(** * Text mode of the JSON editor: reconciliation of text, JSON value and validation

    A shallow embedding of [src/lib/components/modes/textmode/TextMode.svelte].

    The component is a single-threaded, event-driven state machine.  Its
    [let] variables and props become the fields of the record [TextMode];
    every function of the script becomes a computation in a state and
    exception monad over that record.  The text-editing widget (CodeMirror),
    the JSON builtins, [jsonrepair] and the normalisation helpers are
    collaborators of the component: they are gathered in the class
    [Platform].  Calls of the host's callbacks ([onChange], [onError],
    [onSortModal], [onTransformModal]) are appended to the ghost field
    [trace], so that "which events were emitted, in which order" can be
    stated; a callback either returns or throws, and does not call back into
    the component while it runs.  The ghost field [validateTextCalls] counts
    the runs of [validateText] behind [memoizeOne].

    The commands that act on the widget alone ([handleUndo], [handleRedo],
    [handleToggleSearch], [setSelection], [handleDoubleClick], [refresh]),
    the reconfiguration of the widget, focus handling and the markup are
    not part of this development. *)

From Stdlib Require Import ZArith String Ascii List Bool Lia.
From stdpp Require Import gmap strings list fin_maps pretty.

#[local] Set Warnings "-register-all".
#[local] Open Scope string_scope.
#[local] Open Scope list_scope.

(** ** JSON values

    Values as [JSON.parse] returns them.  Objects are finite maps from member
    names to values, so that equality of values is the deep equality of the
    JSON data model: the order of the members of an object, which
    [JSON.parse] and [JSON.stringify] keep, is not part of a value.  Numbers
    are restricted to integers. *)

Inductive JSON : Type :=
  | JNull
  | JBool (b : bool)
  | JNumber (n : Z)
  | JString (s : string)
  | JArray (items : list JSON)
  | JObject (props : gmap string JSON).

Inductive PathSegment : Type :=
  | Key (k : string)
  | Index (i : nat).

Definition JSONPath : Type := list PathSegment.

Inductive JSONPatchOperation : Type :=
  | OpAdd (path : JSONPath) (value : JSON)
  | OpRemove (path : JSONPath)
  | OpReplace (path : JSONPath) (value : JSON)
  | OpCopy (from path : JSONPath)
  | OpMove (from path : JSONPath)
  | OpTest (path : JSONPath) (value : JSON).

Definition JSONPatchDocument : Type := list JSONPatchOperation.

(** Deep equality test of two values, as the [test] operation needs it. *)
Fixpoint json_eqb (a b : JSON) : bool :=
  match a, b with
  | JNull, JNull => true
  | JBool x, JBool y => Bool.eqb x y
  | JNumber x, JNumber y => Z.eqb x y
  | JString x, JString y => String.eqb x y
  | JArray l, JArray l' =>
      (fix items_eqb (l l' : list JSON) : bool :=
         match l, l' with
         | [], [] => true
         | x :: l, y :: l' => json_eqb x y && items_eqb l l'
         | _, _ => false
         end) l l'
  | JObject m, JObject m' =>
      bool_decide (dom m = dom m')
      && map_fold (fun k x acc =>
                     acc && match m' !! k with
                            | Some y => json_eqb x y
                            | None => false
                            end) true m
  | _, _ => false
  end.

(** The size of a value, for inductions on values. *)
Fixpoint json_size (j : JSON) : nat :=
  match j with
  | JArray items => S (foldr (fun x acc => json_size x + acc) 0 items)
  | JObject props => S (map_fold (fun _ x acc => json_size x + acc) 0 props)
  | _ => 1
  end.

(** ** The patch engine

    Modelled from the spec: [immutableJSONPatch] and [revertJSONPatch] are
    imported by the component from a library that is not among the sources.
    A patch document is an ordered sequence of the operations add, remove,
    replace, copy, move and test on paths into the value; applying it is a
    pure function that yields a new value (or fails, when an operation does
    not apply); the inverse document is computed against the value before
    the patch. *)

Module JSONPatch.

Definition childAt (seg : PathSegment) (j : JSON) : option JSON :=
  match seg, j with
  | Key k, JObject m => m !! k
  | Index i, JArray l => l !! i
  | _, _ => None
  end.

Definition setChild (seg : PathSegment) (c : JSON) (j : JSON) : JSON :=
  match seg, j with
  | Key k, JObject m => JObject (<[k:=c]> m)
  | Index i, JArray l => JArray (<[i:=c]> l)
  | _, _ => j
  end.

Fixpoint getIn (j : JSON) (path : JSONPath) : option JSON :=
  match path with
  | [] => Some j
  | seg :: rest =>
      match childAt seg j with
      | Some c => getIn c rest
      | None => None
      end
  end.

Fixpoint updateIn (leaf : PathSegment -> JSON -> option JSON)
    (j : JSON) (seg : PathSegment) (rest : JSONPath) : option JSON :=
  match rest with
  | [] => leaf seg j
  | seg' :: rest' =>
      match childAt seg j with
      | Some c =>
          match updateIn leaf c seg' rest' with
          | Some c' => Some (setChild seg c' j)
          | None => None
          end
      | None => None
      end
  end.

Definition insertAt (v : JSON) (seg : PathSegment) (parent : JSON) : option JSON :=
  match seg, parent with
  | Key k, JObject m => Some (JObject (<[k:=v]> m))
  | Index i, JArray l =>
      if Nat.leb i (length l) then Some (JArray (take i l ++ v :: drop i l)) else None
  | _, _ => None
  end.

Definition deleteAt (seg : PathSegment) (parent : JSON) : option JSON :=
  match seg, parent with
  | Key k, JObject m =>
      match m !! k with
      | Some _ => Some (JObject (delete k m))
      | None => None
      end
  | Index i, JArray l =>
      if Nat.ltb i (length l) then Some (JArray (delete i l)) else None
  | _, _ => None
  end.

Definition replaceAt (v : JSON) (seg : PathSegment) (parent : JSON) : option JSON :=
  match childAt seg parent with
  | Some _ => Some (setChild seg v parent)
  | None => None
  end.

Definition addIn (j : JSON) (path : JSONPath) (v : JSON) : option JSON :=
  match path with
  | [] => Some v
  | seg :: rest => updateIn (insertAt v) j seg rest
  end.

Definition removeIn (j : JSON) (path : JSONPath) : option JSON :=
  match path with
  | [] => None
  | seg :: rest => updateIn deleteAt j seg rest
  end.

Definition replaceIn (j : JSON) (path : JSONPath) (v : JSON) : option JSON :=
  match path with
  | [] => Some v
  | seg :: rest => updateIn (replaceAt v) j seg rest
  end.

Definition applyOperation (j : JSON) (op : JSONPatchOperation) : option JSON :=
  match op with
  | OpAdd path v => addIn j path v
  | OpRemove path => removeIn j path
  | OpReplace path v => replaceIn j path v
  | OpCopy from path =>
      match getIn j from with
      | Some v => addIn j path v
      | None => None
      end
  | OpMove from path =>
      match getIn j from with
      | Some v =>
          match removeIn j from with
          | Some j1 => addIn j1 path v
          | None => None
          end
      | None => None
      end
  | OpTest path v =>
      match getIn j path with
      | Some x => if json_eqb x v then Some j else None
      | None => None
      end
  end.

(** Modelled from the spec: the operations are applied in order; [None]
    when one of them does not apply (the library throws). *)
Fixpoint immutableJSONPatch (j : JSON) (operations : JSONPatchDocument) : option JSON :=
  match operations with
  | [] => Some j
  | op :: rest =>
      match applyOperation j op with
      | Some j' => immutableJSONPatch j' rest
      | None => None
      end
  end.

Fixpoint lastSegment (seg : PathSegment) (rest : JSONPath) : PathSegment :=
  match rest with
  | [] => seg
  | seg' :: rest' => lastSegment seg' rest'
  end.

Definition isArrayItem (path : JSONPath) : bool :=
  match path with
  | [] => false
  | seg :: rest =>
      match lastSegment seg rest with
      | Index _ => true
      | Key _ => false
      end
  end.

Definition revertAdd (j : JSON) (path : JSONPath) : JSONPatchDocument :=
  match path with
  | [] => [OpReplace [] j]
  | _ :: _ =>
      if isArrayItem path then [OpRemove path]
      else match getIn j path with
           | Some old => [OpReplace path old]
           | None => [OpRemove path]
           end
  end.

Definition revertRemove (j : JSON) (path : JSONPath) : JSONPatchDocument :=
  match getIn j path with
  | Some old => [OpAdd path old]
  | None => []
  end.

Definition revertReplace (j : JSON) (path : JSONPath) : JSONPatchDocument :=
  match getIn j path with
  | Some old => [OpReplace path old]
  | None => []
  end.

Definition revertMove (j : JSON) (from path : JSONPath) : JSONPatchDocument :=
  match getIn j from, removeIn j from with
  | Some v, Some j1 => revertAdd j1 path ++ [OpAdd from v]
  | _, _ => []
  end.

Definition revertOperation (j : JSON) (op : JSONPatchOperation) : JSONPatchDocument :=
  match op with
  | OpAdd path _ => revertAdd j path
  | OpRemove path => revertRemove j path
  | OpReplace path _ => revertReplace j path
  | OpCopy _ path => revertAdd j path
  | OpMove from path => revertMove j from path
  | OpTest _ _ => []
  end.

(** Modelled from the spec: the inverse of each operation is computed
    against the value the operation is applied to, and the inverses are
    put in reverse order. *)
Fixpoint revertJSONPatch (j : JSON) (operations : JSONPatchDocument) : JSONPatchDocument :=
  match operations with
  | [] => []
  | op :: rest =>
      match applyOperation j op with
      | Some j' => revertJSONPatch j' rest ++ revertOperation j op
      | None => []
      end
  end.

End JSONPatch.

(** ** Data passed between the component, its collaborators and the host *)

Definition Error : Type := string.

(** Result of running JavaScript code: a value, or a thrown error. *)
Inductive Outcome (A : Type) : Type :=
  | Ret (a : A)
  | Throw (e : Error).
Arguments Ret {A} a.
Arguments Throw {A} e.

(** A variable that holds [null], [undefined] or a value. *)
Inductive Nullable (A : Type) : Type :=
  | Null
  | Undefined
  | Value (a : A).
Arguments Null {A}.
Arguments Undefined {A}.
Arguments Value {A} a.

(** [indentation: number | string] *)
Inductive Indentation : Type :=
  | IndentNumber (n : nat)
  | IndentString (s : string).

(** [JSON_STATUS_VALID], [JSON_STATUS_REPAIRABLE], [JSON_STATUS_INVALID] *)
Inductive JSONStatus : Type :=
  | JSON_STATUS_VALID
  | JSON_STATUS_REPAIRABLE
  | JSON_STATUS_INVALID.

Inductive ValidationSeverity : Type :=
  | SeverityInfo
  | SeverityWarning
  | SeverityError.

Record ParseError : Type := mkParseError {
  pe_position : option nat;
  pe_line : option nat;
  pe_column : option nat;
  pe_message : string
}.

Record ValidationError : Type := mkValidationError {
  ve_path : JSONPath;
  ve_message : string;
  ve_severity : ValidationSeverity
}.

(** [ContentErrors = ContentParseError | ContentValidationErrors]: the
    tagged result of validating a text. *)
Inductive ContentErrors : Type :=
  | ContentParseError (parseError : ParseError) (isRepairable : bool)
  | ContentValidationErrors (validationErrors : list ValidationError).

Definition isContentParseError (contentErrors : ContentErrors) : bool :=
  match contentErrors with
  | ContentParseError _ _ => true
  | ContentValidationErrors _ => false
  end.

Definition isContentValidationErrors (contentErrors : ContentErrors) : bool :=
  match contentErrors with
  | ContentParseError _ _ => false
  | ContentValidationErrors _ => true
  end.

(** A validator is a function of the host.  The component holds a
    reference to it, and [memoizeOne] compares references ([===]); what the
    referenced function computes is given by [runValidator] of [Platform]. *)
Definition Validator : Type := nat.

Definition same_validator (a b : option Validator) : bool :=
  match a, b with
  | None, None => true
  | Some v, Some w => Nat.eqb v w
  | _, _ => false
  end.

(** The remediation attached to a diagnostic: [{ name: 'Auto repair', apply }]. *)
Inductive DiagnosticAction : Type :=
  | AutoRepair.

Record TextLocation : Type := mkTextLocation {
  loc_line : nat;
  loc_column : nat;
  loc_from : nat;
  loc_to : nat
}.

Record RichValidationError : Type := mkRichValidationError {
  rich_path : option JSONPath;
  rich_line : option nat;
  rich_column : option nat;
  rich_from : nat;
  rich_to : nat;
  rich_message : string;
  rich_severity : ValidationSeverity;
  rich_actions : option (list DiagnosticAction)
}.

Record Diagnostic : Type := mkDiagnostic {
  diag_from : nat;
  diag_to : nat;
  diag_message : string;
  diag_actions : option (list DiagnosticAction);
  diag_severity : ValidationSeverity
}.

Record JSONPatchResult : Type := mkJSONPatchResult {
  json : JSON;
  previousJson : JSON;
  undo : JSONPatchDocument;
  redo : JSONPatchDocument
}.

(** The arguments of [onChange(content, previousContent, status)]. *)
Record ChangeEvent : Type := mkChangeEvent {
  current_text : string;
  previous_text : string;
  contentErrors : ContentErrors;
  patchResult : option JSONPatchResult
}.

Record SortModalProps : Type := mkSortModalProps {
  sort_id : string;
  sort_json : JSON;
  sort_selectedPath : JSONPath
}.

Record TransformModalProps : Type := mkTransformModalProps {
  transform_id : string;
  transform_json : JSON;
  transform_selectedPath : JSONPath
}.

Record TransformPreview : Type := mkTransformPreview {
  preview_operations : JSONPatchDocument;
  preview_json : JSON;
  preview_transformedJson : JSON
}.

(** A callback of the host returns ([None]) or throws ([Some err]). *)
Definition OnChange : Type := ChangeEvent -> option Error.

(** Calls of the host's callbacks, in the order they are made. *)
Inductive Event : Type :=
  | EvChange (ev : ChangeEvent)
  | EvError (err : Error)
  | EvSortModal (props : SortModalProps)
  | EvTransformModal (props : TransformModalProps)
  | EvTransformPreview (preview : TransformPreview)
  | EvClose.

(** The state of the widget as far as the component reads it:
    [state.doc.toString()], [undoDepth(state)] and [redoDepth(state)]. *)
Record EditorState : Type := mkEditorState {
  doc : string;
  undoDepth : nat;
  redoDepth : nat
}.

Record ViewUpdate : Type := mkViewUpdate {
  update_state : EditorState;
  docChanged : bool
}.

(** ** Collaborators of the component

    The JSON builtins, [jsonrepair], the helpers imported from other modules
    and the size threshold of [constants]. *)
Class Platform : Type := {
  (** [JSON.parse(text)]: the value, or the [SyntaxError] it throws *)
  JSON_parse : string -> Outcome JSON;
  (** [JSON.stringify(json, null, indentation)]; [None] when the third
      argument is left out *)
  JSON_stringify : JSON -> option Indentation -> string;
  (** the function behind a validator reference *)
  runValidator : Validator -> JSON -> list ValidationError;
  (** [jsonrepair(text)]: the repaired text, or the error it throws *)
  jsonrepair : string -> Outcome string;
  (** the parse error shown for a text and the message of its [SyntaxError] *)
  normalizeJsonParseError : string -> Error -> ParseError;
  (** [findTextLocation(text, path)] *)
  findTextLocation : string -> JSONPath -> TextLocation;
  (** [createNormalizationFunctions({ escapeControlCharacters: false,
      escapeUnicodeCharacters })] *)
  escapeValue : bool -> string -> string;
  unescapeValue : bool -> string -> string;
  MAX_DOCUMENT_SIZE_TEXT_MODE : nat
}.

Record TextMode : Type := mkTextMode {
  (* props *)
  readOnly : bool;
  text : string;
  indentation : Indentation;
  escapeUnicodeCharacters : bool;
  validator : option Validator;
  onChange : option OnChange;
  onError : Error -> option Error;
  onSortModal : SortModalProps -> option Error;
  onTransformModal : TransformModalProps -> option Error;
  (* local variables of the script *)
  codeMirrorView : option EditorState;
  codeMirrorText : option string;
  editorState : option EditorState;
  onChangeDisabled : bool;
  acceptTooLarge : bool;
  validationErrors : list ValidationError;
  canUndo : bool;
  canRedo : bool;
  modalOpen : bool;
  jsonStatus : JSONStatus;
  jsonParseError : Nullable ParseError;
  sortModalId : string;
  transformModalId : string;
  (* state of [debounce(onChangeCodeMirrorValue, ...)]: a trailing call is scheduled *)
  debouncePending : bool;
  (* state of [memoizeOne(validateText)]: last arguments and last result *)
  memoized : option (string * option Validator * ContentErrors);
  (* ghost: runs of [validateText], calls of the host's callbacks *)
  validateTextCalls : nat;
  trace : list Event
}.

(** Assignments to single variables. *)
Definition set_text (v : string) (s : TextMode) : TextMode :=
  mkTextMode (readOnly s) v (indentation s) (escapeUnicodeCharacters s)
    (validator s) (onChange s) (onError s) (onSortModal s)
    (onTransformModal s) (codeMirrorView s) (codeMirrorText s) (editorState s)
    (onChangeDisabled s) (acceptTooLarge s) (validationErrors s) (canUndo s)
    (canRedo s) (modalOpen s) (jsonStatus s) (jsonParseError s)
    (sortModalId s) (transformModalId s) (debouncePending s) (memoized s)
    (validateTextCalls s) (trace s).

Definition set_codeMirrorView (v : option EditorState) (s : TextMode) : TextMode :=
  mkTextMode (readOnly s) (text s) (indentation s) (escapeUnicodeCharacters s)
    (validator s) (onChange s) (onError s) (onSortModal s)
    (onTransformModal s) v (codeMirrorText s) (editorState s)
    (onChangeDisabled s) (acceptTooLarge s) (validationErrors s) (canUndo s)
    (canRedo s) (modalOpen s) (jsonStatus s) (jsonParseError s)
    (sortModalId s) (transformModalId s) (debouncePending s) (memoized s)
    (validateTextCalls s) (trace s).

Definition set_codeMirrorText (v : option string) (s : TextMode) : TextMode :=
  mkTextMode (readOnly s) (text s) (indentation s) (escapeUnicodeCharacters s)
    (validator s) (onChange s) (onError s) (onSortModal s)
    (onTransformModal s) (codeMirrorView s) v (editorState s)
    (onChangeDisabled s) (acceptTooLarge s) (validationErrors s) (canUndo s)
    (canRedo s) (modalOpen s) (jsonStatus s) (jsonParseError s)
    (sortModalId s) (transformModalId s) (debouncePending s) (memoized s)
    (validateTextCalls s) (trace s).

Definition set_editorState (v : option EditorState) (s : TextMode) : TextMode :=
  mkTextMode (readOnly s) (text s) (indentation s) (escapeUnicodeCharacters s)
    (validator s) (onChange s) (onError s) (onSortModal s)
    (onTransformModal s) (codeMirrorView s) (codeMirrorText s) v
    (onChangeDisabled s) (acceptTooLarge s) (validationErrors s) (canUndo s)
    (canRedo s) (modalOpen s) (jsonStatus s) (jsonParseError s)
    (sortModalId s) (transformModalId s) (debouncePending s) (memoized s)
    (validateTextCalls s) (trace s).

Definition set_acceptTooLarge (v : bool) (s : TextMode) : TextMode :=
  mkTextMode (readOnly s) (text s) (indentation s) (escapeUnicodeCharacters s)
    (validator s) (onChange s) (onError s) (onSortModal s)
    (onTransformModal s) (codeMirrorView s) (codeMirrorText s) (editorState s)
    (onChangeDisabled s) v (validationErrors s) (canUndo s) (canRedo s)
    (modalOpen s) (jsonStatus s) (jsonParseError s) (sortModalId s)
    (transformModalId s) (debouncePending s) (memoized s)
    (validateTextCalls s) (trace s).

Definition set_validationErrors (v : list ValidationError) (s : TextMode) : TextMode :=
  mkTextMode (readOnly s) (text s) (indentation s) (escapeUnicodeCharacters s)
    (validator s) (onChange s) (onError s) (onSortModal s)
    (onTransformModal s) (codeMirrorView s) (codeMirrorText s) (editorState s)
    (onChangeDisabled s) (acceptTooLarge s) v (canUndo s) (canRedo s)
    (modalOpen s) (jsonStatus s) (jsonParseError s) (sortModalId s)
    (transformModalId s) (debouncePending s) (memoized s)
    (validateTextCalls s) (trace s).

Definition set_canUndo (v : bool) (s : TextMode) : TextMode :=
  mkTextMode (readOnly s) (text s) (indentation s) (escapeUnicodeCharacters s)
    (validator s) (onChange s) (onError s) (onSortModal s)
    (onTransformModal s) (codeMirrorView s) (codeMirrorText s) (editorState s)
    (onChangeDisabled s) (acceptTooLarge s) (validationErrors s) v (canRedo s)
    (modalOpen s) (jsonStatus s) (jsonParseError s) (sortModalId s)
    (transformModalId s) (debouncePending s) (memoized s)
    (validateTextCalls s) (trace s).

Definition set_canRedo (v : bool) (s : TextMode) : TextMode :=
  mkTextMode (readOnly s) (text s) (indentation s) (escapeUnicodeCharacters s)
    (validator s) (onChange s) (onError s) (onSortModal s)
    (onTransformModal s) (codeMirrorView s) (codeMirrorText s) (editorState s)
    (onChangeDisabled s) (acceptTooLarge s) (validationErrors s) (canUndo s) v
    (modalOpen s) (jsonStatus s) (jsonParseError s) (sortModalId s)
    (transformModalId s) (debouncePending s) (memoized s)
    (validateTextCalls s) (trace s).

Definition set_modalOpen (v : bool) (s : TextMode) : TextMode :=
  mkTextMode (readOnly s) (text s) (indentation s) (escapeUnicodeCharacters s)
    (validator s) (onChange s) (onError s) (onSortModal s)
    (onTransformModal s) (codeMirrorView s) (codeMirrorText s) (editorState s)
    (onChangeDisabled s) (acceptTooLarge s) (validationErrors s) (canUndo s)
    (canRedo s) v (jsonStatus s) (jsonParseError s) (sortModalId s)
    (transformModalId s) (debouncePending s) (memoized s)
    (validateTextCalls s) (trace s).

Definition set_jsonStatus (v : JSONStatus) (s : TextMode) : TextMode :=
  mkTextMode (readOnly s) (text s) (indentation s) (escapeUnicodeCharacters s)
    (validator s) (onChange s) (onError s) (onSortModal s)
    (onTransformModal s) (codeMirrorView s) (codeMirrorText s) (editorState s)
    (onChangeDisabled s) (acceptTooLarge s) (validationErrors s) (canUndo s)
    (canRedo s) (modalOpen s) v (jsonParseError s) (sortModalId s)
    (transformModalId s) (debouncePending s) (memoized s)
    (validateTextCalls s) (trace s).

Definition set_jsonParseError (v : Nullable ParseError) (s : TextMode) : TextMode :=
  mkTextMode (readOnly s) (text s) (indentation s) (escapeUnicodeCharacters s)
    (validator s) (onChange s) (onError s) (onSortModal s)
    (onTransformModal s) (codeMirrorView s) (codeMirrorText s) (editorState s)
    (onChangeDisabled s) (acceptTooLarge s) (validationErrors s) (canUndo s)
    (canRedo s) (modalOpen s) (jsonStatus s) v (sortModalId s)
    (transformModalId s) (debouncePending s) (memoized s)
    (validateTextCalls s) (trace s).

Definition set_debouncePending (v : bool) (s : TextMode) : TextMode :=
  mkTextMode (readOnly s) (text s) (indentation s) (escapeUnicodeCharacters s)
    (validator s) (onChange s) (onError s) (onSortModal s)
    (onTransformModal s) (codeMirrorView s) (codeMirrorText s) (editorState s)
    (onChangeDisabled s) (acceptTooLarge s) (validationErrors s) (canUndo s)
    (canRedo s) (modalOpen s) (jsonStatus s) (jsonParseError s)
    (sortModalId s) (transformModalId s) v (memoized s) (validateTextCalls s)
    (trace s).

Definition set_memoized (v : option (string * option Validator * ContentErrors)) (s : TextMode) : TextMode :=
  mkTextMode (readOnly s) (text s) (indentation s) (escapeUnicodeCharacters s)
    (validator s) (onChange s) (onError s) (onSortModal s)
    (onTransformModal s) (codeMirrorView s) (codeMirrorText s) (editorState s)
    (onChangeDisabled s) (acceptTooLarge s) (validationErrors s) (canUndo s)
    (canRedo s) (modalOpen s) (jsonStatus s) (jsonParseError s)
    (sortModalId s) (transformModalId s) (debouncePending s) v
    (validateTextCalls s) (trace s).

Definition set_validateTextCalls (v : nat) (s : TextMode) : TextMode :=
  mkTextMode (readOnly s) (text s) (indentation s) (escapeUnicodeCharacters s)
    (validator s) (onChange s) (onError s) (onSortModal s)
    (onTransformModal s) (codeMirrorView s) (codeMirrorText s) (editorState s)
    (onChangeDisabled s) (acceptTooLarge s) (validationErrors s) (canUndo s)
    (canRedo s) (modalOpen s) (jsonStatus s) (jsonParseError s)
    (sortModalId s) (transformModalId s) (debouncePending s) (memoized s) v
    (trace s).

Definition set_trace (v : list Event) (s : TextMode) : TextMode :=
  mkTextMode (readOnly s) (text s) (indentation s) (escapeUnicodeCharacters s)
    (validator s) (onChange s) (onError s) (onSortModal s)
    (onTransformModal s) (codeMirrorView s) (codeMirrorText s) (editorState s)
    (onChangeDisabled s) (acceptTooLarge s) (validationErrors s) (canUndo s)
    (canRedo s) (modalOpen s) (jsonStatus s) (jsonParseError s)
    (sortModalId s) (transformModalId s) (debouncePending s) (memoized s)
    (validateTextCalls s) v.

(** ** The monad of the script: state of the component, and exceptions *)

Definition M (A : Type) : Type := TextMode -> Outcome A * TextMode.

Definition ret {A : Type} (a : A) : M A := fun s => (Ret a, s).

Definition bind {A B : Type} (m : M A) (f : A -> M B) : M B :=
  fun s =>
    match m s with
    | (Ret a, s') => f a s'
    | (Throw e, s') => (Throw e, s')
    end.

Definition throw {A : Type} (e : Error) : M A := fun s => (Throw e, s).

(** [try { body } catch (err) { handler(err) }]: assignments made by the
    body before it throws stay. *)
Definition try_catch {A : Type} (body : M A) (handler : Error -> M A) : M A :=
  fun s =>
    match body s with
    | (Ret a, s') => (Ret a, s')
    | (Throw e, s') => handler e s'
    end.

Definition get : M TextMode := fun s => (Ret s, s).

Definition modify (f : TextMode -> TextMode) : M unit := fun s => (Ret tt, f s).

Definition lift {A : Type} (o : Outcome A) : M A := fun s => (o, s).

Declare Scope js_scope.
Delimit Scope js_scope with js.
Notation "x <- c1 ;; c2" := (bind c1 (fun x => c2))
  (at level 100, c1 at next level, right associativity) : js_scope.
Notation "c1 ;; c2" := (bind c1 (fun _ => c2))
  (at level 100, right associativity) : js_scope.
#[local] Open Scope js_scope.

(** Calling a callback of the host: the call is recorded, then the callback
    returns or throws. *)
Definition call_host (ev : Event) (result : option Error) : M unit :=
  modify (fun s => set_trace (trace s ++ [ev]) s) ;;
  match result with
  | Some err => throw err
  | None => ret tt
  end.

(** ** Reactive declarations and helpers *)

Section Helpers.
Context {P : Platform}.

(** [$: isNewDocument = text.length === 0] *)
Definition isNewDocument (s : TextMode) : bool :=
  Nat.eqb (String.length (text s)) 0.

(** [$: tooLarge = text && text.length > MAX_DOCUMENT_SIZE_TEXT_MODE] *)
Definition tooLarge (s : TextMode) : bool :=
  negb (String.eqb (text s) "")
  && Nat.ltb MAX_DOCUMENT_SIZE_TEXT_MODE (String.length (text s)).

(** [$: textEditorDisabled = tooLarge && !acceptTooLarge] *)
Definition textEditorDisabled (s : TextMode) : bool :=
  tooLarge s && negb (acceptTooLarge s).

Definition defined {A : Type} (x : option A) : bool :=
  match x with
  | Some _ => true
  | None => false
  end.

Definition canAutoRepair (text : string) : bool :=
  match jsonrepair text with
  | Ret _ => true
  | Throw _ => false
  end.

(** Modelled from the spec: [validateText] of [logic/validation], which the
    component imports and which is not among the sources.  The text is
    parsed; when it parses and a validator is supplied, the validator runs on
    the value and its list of errors is the outcome (the empty list when
    there is no validator); when it does not parse, the outcome is the parse
    error, marked repairable when the repair function succeeds on the text. *)
Definition validateText (text : string) (validator : option Validator)
  : ContentErrors :=
  match JSON_parse text with
  | Ret json =>
      match validator with
      | Some v => ContentValidationErrors (runValidator v json)
      | None => ContentValidationErrors []
      end
  | Throw err =>
      ContentParseError (normalizeJsonParseError text err) (canAutoRepair text)
  end.

(** [const memoizedValidateText = memoizeOne(validateText)]: when the
    arguments are the ones of the last call ([===] on each), the last result
    is returned; otherwise [validateText] runs and its arguments and result
    replace the remembered ones. *)
Definition memoizedValidateText (text : string) (validator : option Validator)
  : M ContentErrors :=
  s <- get ;;
  let run :=
    (let result := validateText text validator in
     modify (set_memoized (Some (text, validator, result))) ;;
     modify (fun s => set_validateTextCalls (S (validateTextCalls s)) s) ;;
     ret result) in
  match memoized s with
  | Some (lastText, lastValidator, lastResult) =>
      if String.eqb lastText text && same_validator lastValidator validator
      then ret lastResult
      else run
  | None => run
  end.

Definition getCodeMirrorValue (s : TextMode) : string :=
  match codeMirrorView s with
  | Some view => unescapeValue (escapeUnicodeCharacters s) (doc view)
  | None => ""
  end.

Definition toRichValidationError (s : TextMode) (validationError : ValidationError)
  : RichValidationError :=
  let path := ve_path validationError in
  let loc := findTextLocation (text s) path in
  {| rich_path := Some path;
     rich_line := Some (loc_line loc);
     rich_column := Some (loc_column loc);
     rich_from := loc_from loc;
     rich_to := loc_to loc;
     rich_message := ve_message validationError;
     rich_severity := SeverityWarning;
     rich_actions := Some [] |}.

Definition toRichParseError (s : TextMode) (parseError : ParseError)
    (isRepairable : bool) : RichValidationError :=
  {| rich_path := None;
     rich_line := pe_line parseError;
     rich_column := pe_column parseError;
     rich_from := default 0 (pe_position parseError);
     rich_to := default 0 (pe_position parseError);
     rich_severity := SeverityError;
     rich_message := pe_message parseError;
     rich_actions :=
       if isRepairable && negb (readOnly s) then Some [AutoRepair] else None |}.

Definition toDiagnostic (error : RichValidationError) : Diagnostic :=
  {| diag_from := rich_from error;
     diag_to := rich_to error;
     diag_message := rich_message error;
     diag_actions := rich_actions error;
     diag_severity := rich_severity error |}.

(** [canUndo = undoDepth(codeMirrorView.state) > 0], likewise [canRedo];
    reading the state of a missing view is a [TypeError]. *)
Definition updateCanUndoRedo : M unit :=
  s <- get ;;
  match codeMirrorView s with
  | Some view =>
      modify (set_canUndo (Nat.ltb 0 (undoDepth view))) ;;
      modify (set_canRedo (Nat.ltb 0 (redoDepth view)))
  | None => throw "TypeError: Cannot read properties of undefined"
  end.

(** Calling [onChangeCodeMirrorValueDebounced()] starts (or restarts) the
    timer of the trailing call. *)
Definition onChangeCodeMirrorValueDebounced : M unit :=
  modify (set_debouncePending true).

End Helpers.

(** ** Validation, emission of change events and the update from the widget

    [validate] flushes the debounced function, the debounced function is
    [onChangeCodeMirrorValue], which calls [emitOnChange], which calls
    [validate].  The three bodies are written once, over the behaviour
    [flush] of [onChangeCodeMirrorValueDebounced.flush()]. *)

Module Body.
Section Body.
Context {P : Platform}.
Variable flush : M unit.

Definition validate : M ContentErrors :=
  flush ;;
  s <- get ;;
  contentErrors <- memoizedValidateText (text s) (validator s) ;;
  match contentErrors with
  | ContentParseError parseError isRepairable =>
      (* isContentParseError(contentErrors) *)
      modify (set_jsonStatus
                (if isRepairable then JSON_STATUS_REPAIRABLE
                 else JSON_STATUS_INVALID)) ;;
      modify (set_jsonParseError (Value parseError)) ;;
      modify (set_validationErrors []) ;;
      ret contentErrors
  | ContentValidationErrors validationErrors =>
      modify (set_jsonStatus JSON_STATUS_VALID) ;;
      modify (set_jsonParseError Null) ;;
      modify (set_validationErrors validationErrors) ;;
      ret contentErrors
  end.

(** The arguments of [onChange(...)] are evaluated first, [validate()] among
    them; then the callback is called. *)
Definition emitOnChange (text previousText : string) : M unit :=
  s <- get ;;
  match onChange s with
  | Some callback =>
      contentErrors <- validate ;;
      let ev := {| current_text := text;
                   previous_text := previousText;
                   contentErrors := contentErrors;
                   patchResult := None |} in
      call_host (EvChange ev) (callback ev)
  | None => ret tt
  end.

(** [value] is what the variable [codeMirrorText] holds after its
    assignment on the first line. *)
Definition onChangeCodeMirrorValue : M unit :=
  s <- get ;;
  if onChangeDisabled s || negb (defined (codeMirrorView s)) then ret tt
  else
    let value := getCodeMirrorValue s in
    modify (set_codeMirrorText (Some value)) ;;
    s <- get ;;
    if negb (String.eqb value (text s)) then
      let previousText := value in
      modify (set_text value) ;;
      updateCanUndoRedo ;;
      s <- get ;;
      emitOnChange (text s) previousText
    else ret tt.

End Body.
End Body.

Section Component.
Context {P : Platform}.

(** [onChangeCodeMirrorValueDebounced.flush()]: when a trailing call is
    scheduled, the timer is cleared and the debounced function runs now.
    The function runs with the timer already cleared; [fuel] bounds how many
    flushes may nest. *)
Fixpoint flush_fuel (fuel : nat) : M unit :=
  match fuel with
  | 0 => ret tt
  | S fuel' =>
      s <- get ;;
      if debouncePending s then
        modify (set_debouncePending false) ;;
        Body.onChangeCodeMirrorValue (flush_fuel fuel')
      else ret tt
  end.

Definition flush : M unit := flush_fuel 1.

Definition validate : M ContentErrors := Body.validate flush.

Definition emitOnChange (text previousText : string) : M unit :=
  Body.emitOnChange flush text previousText.

Definition onChangeCodeMirrorValue : M unit :=
  Body.onChangeCodeMirrorValue flush.

(** The timer of the debounced function expires. *)
Definition timerExpired : M unit :=
  s <- get ;;
  if debouncePending s then
    modify (set_debouncePending false) ;;
    onChangeCodeMirrorValue
  else ret tt.

(** [EditorView.updateListener.of((update) => ...)] *)
Definition updateListener (update : ViewUpdate) : M unit :=
  modify (set_editorState (Some (update_state update))) ;;
  if docChanged update then onChangeCodeMirrorValueDebounced else ret tt.

(** A transaction of the widget (an edit of the user, for example): the
    view takes its new state, then the update listener runs. *)
Definition widgetTransaction (update : ViewUpdate) : M unit :=
  s <- get ;;
  match codeMirrorView s with
  | Some _ =>
      modify (set_codeMirrorView (Some (update_state update))) ;;
      updateListener update
  | None => ret tt
  end.

Definition patchError : Error := "Error: cannot apply JSON patch".

Definition patch (operations : JSONPatchDocument) : M JSONPatchResult :=
  s <- get ;;
  let previousText := text s in
  previousJson <- lift (JSON_parse (text s)) ;;
  match JSONPatch.immutableJSONPatch previousJson operations with
  | Some updatedJson =>
      let undo := JSONPatch.revertJSONPatch previousJson operations in
      modify (set_text (JSON_stringify updatedJson (Some (indentation s)))) ;;
      s <- get ;;
      (if negb (String.eqb (text s) previousText)
       then emitOnChange (text s) previousText
       else ret tt) ;;
      ret {| json := updatedJson;
             previousJson := previousJson;
             undo := undo;
             redo := operations |}
  | None => throw patchError
  end.

Definition reportError (err : Error) : M unit :=
  s <- get ;;
  call_host (EvError err) (onError s err).

Definition handleFormat : M unit :=
  s <- get ;;
  if readOnly s then ret tt
  else
    try_catch
      (s <- get ;;
       let previousText := text s in
       json <- lift (JSON_parse (text s)) ;;
       modify (set_text (JSON_stringify json (Some (indentation s)))) ;;
       s <- get ;;
       if negb (String.eqb (text s) previousText)
       then emitOnChange (text s) previousText
       else ret tt)
      reportError.

Definition handleCompact : M unit :=
  s <- get ;;
  if readOnly s then ret tt
  else
    try_catch
      (s <- get ;;
       let previousText := text s in
       json <- lift (JSON_parse (text s)) ;;
       modify (set_text (JSON_stringify json None)) ;;
       s <- get ;;
       if negb (String.eqb (text s) previousText)
       then emitOnChange (text s) previousText
       else ret tt)
      reportError.

Definition handleRepair : M unit :=
  s <- get ;;
  if readOnly s then ret tt
  else
    try_catch
      (s <- get ;;
       let previousText := text s in
       repaired <- lift (jsonrepair (text s)) ;;
       modify (set_text repaired) ;;
       modify (set_jsonStatus JSON_STATUS_VALID) ;;
       modify (set_jsonParseError Undefined) ;;
       s <- get ;;
       if negb (String.eqb (text s) previousText)
       then emitOnChange (text s) previousText
       else ret tt)
      reportError.

(** [focus()] acts on the widget only. *)
Definition focus : M unit := ret tt.

Definition handleSort : M unit :=
  s <- get ;;
  if readOnly s then ret tt
  else
    try_catch
      (s <- get ;;
       json <- lift (JSON_parse (text s)) ;;
       modify (set_modalOpen true) ;;
       let props := {| sort_id := sortModalId s;
                       sort_json := json;
                       sort_selectedPath := [] |} in
       call_host (EvSortModal props) (onSortModal s props))
      reportError.

(** The callbacks handed to the sort modal.  [onSort] is an [async]
    function: what [patch] throws settles the returned promise, which is the
    value returned here. *)
Definition sortModal_onSort (operations : JSONPatchDocument) : M (Outcome unit) :=
  fun s =>
    match patch operations s with
    | (Ret _, s') => (Ret (Ret tt), s')
    | (Throw err, s') => (Ret (Throw err), s')
    end.

Definition sortModal_onClose : M unit :=
  modify (set_modalOpen false) ;;
  focus.

Record TransformModalOptions : Type := mkTransformModalOptions {
  opt_id : option string;
  opt_selectedPath : JSONPath;
  opt_onTransform : option (TransformPreview -> option Error);
  opt_onClose : option (option Error)
}.

Definition openTransformModal (options : TransformModalOptions) : M unit :=
  try_catch
    (s <- get ;;
     json <- lift (JSON_parse (text s)) ;;
     modify (set_modalOpen true) ;;
     let id := match opt_id options with
               | Some id => if String.eqb id "" then transformModalId s else id
               | None => transformModalId s
               end in
     let props := {| transform_id := id;
                     transform_json := json;
                     transform_selectedPath := opt_selectedPath options |} in
     call_host (EvTransformModal props) (onTransformModal s props))
    reportError.

(** The callbacks handed to the transform modal; [json] is the value parsed
    when the modal was opened. *)
Definition transformModal_onTransform (options : TransformModalOptions)
    (json : JSON) (operations : JSONPatchDocument) : M unit :=
  match opt_onTransform options with
  | Some onTransform =>
      match JSONPatch.immutableJSONPatch json operations with
      | Some transformedJson =>
          let preview := {| preview_operations := operations;
                            preview_json := json;
                            preview_transformedJson := transformedJson |} in
          call_host (EvTransformPreview preview) (onTransform preview)
      | None => throw patchError
      end
  | None => patch operations ;; ret tt
  end.

Definition transformModal_onClose (options : TransformModalOptions) : M unit :=
  modify (set_modalOpen false) ;;
  focus ;;
  match opt_onClose options with
  | Some result => call_host EvClose result
  | None => ret tt
  end.

Definition handleTransform : M unit :=
  s <- get ;;
  if readOnly s then ret tt
  else
    openTransformModal {| opt_id := None;
                          opt_selectedPath := [];
                          opt_onTransform := None;
                          opt_onClose := None |}.

Definition cancelLoadTooLarge : M unit := onChangeCodeMirrorValue.

Definition linterCallback : M (list Diagnostic) :=
  contentErrors <- validate ;;
  s <- get ;;
  match contentErrors with
  | ContentParseError parseError isRepairable =>
      ret [toDiagnostic (toRichParseError s parseError isRepairable)]
  | ContentValidationErrors validationErrors =>
      ret (map toDiagnostic (map (toRichValidationError s) validationErrors))
  end.

(** The variables as the script initialises them and as [onMount] leaves
    them: the view is created on the text, or on the empty text when the
    editor is disabled.  The callbacks other than [onChange] return. *)
Definition mounted (readOnly : bool) (text : string)
    (indentation : Indentation) (validator : option Validator)
    (onChange : option OnChange) : TextMode :=
  let created :=
    {| readOnly := readOnly;
       text := text;
       indentation := indentation;
       escapeUnicodeCharacters := false;
       validator := validator;
       onChange := onChange;
       onError := fun _ => None;
       onSortModal := fun _ => None;
       onTransformModal := fun _ => None;
       codeMirrorView := None;
       codeMirrorText := None;
       editorState := None;
       onChangeDisabled := false;
       acceptTooLarge := false;
       validationErrors := [];
       canUndo := false;
       canRedo := false;
       modalOpen := false;
       jsonStatus := JSON_STATUS_VALID;
       jsonParseError := Null;
       sortModalId := "1";
       transformModalId := "2";
       debouncePending := false;
       memoized := None;
       validateTextCalls := 0;
       trace := [] |} in
  set_codeMirrorView
    (Some {| doc := if textEditorDisabled created then "" else text;
             undoDepth := 0;
             redoDepth := 0 |})
    created.

(** The user changes the document of the widget to [newDoc]: one
    transaction of the widget, which adds a step to its history. *)
Definition userEdit (newDoc : string) : M unit :=
  s <- get ;;
  match codeMirrorView s with
  | Some view =>
      widgetTransaction
        {| update_state := {| doc := newDoc;
                              undoDepth := S (undoDepth view);
                              redoDepth := 0 |};
           docChanged := true |}
  | None => ret tt
  end.

(** Running computations one after the other, as separate tasks of the
    event loop: an error thrown by one does not stop the next. *)
Fixpoint tasks (ms : list (M unit)) (s : TextMode) : TextMode :=
  match ms with
  | [] => s
  | m :: rest => tasks rest (snd (m s))
  end.

(** The change events among the calls of the host. *)
Fixpoint changes (events : list Event) : list ChangeEvent :=
  match events with
  | [] => []
  | EvChange ev :: rest => ev :: changes rest
  | _ :: rest => changes rest
  end.

(** The cache of [memoizeOne] holds what [validateText] returned. *)
Definition coherent (s : TextMode) : Prop :=
  forall text validator result,
    memoized s = Some (text, validator, result) ->
    result = validateText text validator.

(** The change handler of the host returns (it does not throw). *)
Definition onChangeReturns (s : TextMode) : Prop :=
  forall callback ev, onChange s = Some callback -> callback ev = None.

(** The validation outcome that the variables [jsonParseError],
    [jsonStatus] and [validationErrors] record. *)
Definition parseErrorRecorded (s : TextMode) : Prop :=
  (exists parseError, jsonParseError s = Value parseError)
  /\ (jsonStatus s = JSON_STATUS_REPAIRABLE \/ jsonStatus s = JSON_STATUS_INVALID)
  /\ validationErrors s = [].

Definition noParseErrorRecorded (s : TextMode) : Prop :=
  jsonParseError s = Null /\ jsonStatus s = JSON_STATUS_VALID.

(** *** Closed forms

    What [memoizeOne] remembers for given arguments, the assignments that
    [validate] makes for an outcome, and [validate] as a function of the
    state when no call of the debounced function is scheduled. *)

Definition remembered (text : string) (validator : option Validator)
    (s : TextMode) : option ContentErrors :=
  match memoized s with
  | Some (lastText, lastValidator, lastResult) =>
      if String.eqb lastText text && same_validator lastValidator validator
      then Some lastResult
      else None
  | None => None
  end.

Definition recordOutcome (contentErrors : ContentErrors) (s : TextMode)
  : TextMode :=
  match contentErrors with
  | ContentParseError parseError isRepairable =>
      set_validationErrors []
        (set_jsonParseError (Value parseError)
           (set_jsonStatus
              (if isRepairable then JSON_STATUS_REPAIRABLE
               else JSON_STATUS_INVALID) s))
  | ContentValidationErrors validationErrors =>
      set_validationErrors validationErrors
        (set_jsonParseError Null (set_jsonStatus JSON_STATUS_VALID s))
  end.

Definition validated (s : TextMode) : ContentErrors * TextMode :=
  match remembered (text s) (validator s) s with
  | Some result => (result, recordOutcome result s)
  | None =>
      let result := validateText (text s) (validator s) in
      (result,
       recordOutcome result
         (set_validateTextCalls (S (validateTextCalls s))
            (set_memoized (Some (text s, validator s, result)) s)))
  end.

Definition changeEvent (text previousText : string)
    (contentErrors : ContentErrors) : ChangeEvent :=
  {| current_text := text;
     previous_text := previousText;
     contentErrors := contentErrors;
     patchResult := None |}.

Definition outcomeOf (result : option Error) : Outcome unit :=
  match result with
  | Some err => Throw err
  | None => Ret tt
  end.

(** [emitOnChange] when no call of the debounced function is scheduled. *)
Definition emitted (text previousText : string) (s : TextMode)
  : Outcome unit * TextMode :=
  match onChange s with
  | Some callback =>
      let ev := changeEvent text previousText (fst (validated s)) in
      (outcomeOf (callback ev),
       set_trace (trace (snd (validated s)) ++ [EvChange ev])
         (snd (validated s)))
  | None => (Ret tt, s)
  end.

(** The assignments of [onChangeCodeMirrorValue] when the text of the
    widget differs from the canonical text. *)
Definition applied (value : string) (view : EditorState) (s : TextMode)
  : TextMode :=
  set_canRedo (Nat.ltb 0 (redoDepth view))
    (set_canUndo (Nat.ltb 0 (undoDepth view))
       (set_text value (set_codeMirrorText (Some value) s))).

(** Exactly one validation outcome is recorded. *)
Definition consistent (s : TextMode) : Prop :=
  (parseErrorRecorded s \/ noParseErrorRecorded s)
  /\ ~ (parseErrorRecorded s /\ noParseErrorRecorded s).

(** The four structural commands of the menu, and the repair action. *)
Inductive Command : Type :=
  | Format
  | Compact
  | Sort
  | Transform
  | Repair.

Definition run (c : Command) : M unit :=
  match c with
  | Format => handleFormat
  | Compact => handleCompact
  | Sort => handleSort
  | Transform => handleTransform
  | Repair => handleRepair
  end.

End Component.

(** ** A reference platform

    An instance of [Platform] on which the component can be run: the JSON
    builtins for the values of [JSON] (integers as numbers), a repair
    function that removes trailing commas, and the identity as
    normalisation (no escaping of unicode characters).  The size threshold
    is a parameter of the instance. *)

Module Reference.

(** *** [JSON.stringify(value, null, space)] *)

Definition spaces (n : nat) : string := string_of_list_ascii (repeat " "%char n).

Definition firstChars (n : nat) (s : string) : string := String.substring 0 n s.

(** The gap: [space] clamped to ten spaces, or the first ten characters of
    the string. *)
Definition gapOf (space : option Indentation) : string :=
  match space with
  | None => ""
  | Some (IndentNumber n) => spaces (Nat.min 10 n)
  | Some (IndentString str) => firstChars 10 str
  end.

Definition hexDigit (n : nat) : ascii :=
  match String.get n "0123456789abcdef" with
  | Some c => c
  | None => "0"%char
  end.

Definition doubleQuote : ascii := ascii_of_nat 34.

Definition backslash : ascii := ascii_of_nat 92.

Definition escapeOf (letter : string) : string := String backslash letter.

Definition quoteChar (c : ascii) : string :=
  let n := nat_of_ascii c in
  if Nat.eqb n 34 then escapeOf (String doubleQuote "")
  else if Nat.eqb n 92 then escapeOf (String backslash "")
  else if Nat.eqb n 8 then escapeOf "b"
  else if Nat.eqb n 9 then escapeOf "t"
  else if Nat.eqb n 10 then escapeOf "n"
  else if Nat.eqb n 12 then escapeOf "f"
  else if Nat.eqb n 13 then escapeOf "r"
  else if Nat.ltb n 32 then
    escapeOf "u00"
    +:+ String (hexDigit (n / 16)) (String (hexDigit (n mod 16)) "")
  else String c "".

Fixpoint quoteChars (s : string) : string :=
  match s with
  | "" => ""
  | String c rest => quoteChar c +:+ quoteChars rest
  end.

Definition quoteJSONString (s : string) : string :=
  String doubleQuote (quoteChars s +:+ String doubleQuote "").

Fixpoint join (sep : string) (parts : list string) : string :=
  match parts with
  | [] => ""
  | [p] => p
  | p :: rest => p +:+ sep +:+ join sep rest
  end.

Definition newline : string := String (ascii_of_nat 10) "".

Definition wrap (opening closing gap stepback indent : string)
    (partial : list string) : string :=
  match partial with
  | [] => opening +:+ closing
  | _ =>
      if String.eqb gap "" then opening +:+ join "," partial +:+ closing
      else opening +:+ newline +:+ indent
           +:+ join ("," +:+ newline +:+ indent) partial
           +:+ newline +:+ stepback +:+ closing
  end.

(** The members of an object are printed in the order of the map. *)
Fixpoint serialize (gap indent : string) (value : JSON) : string :=
  match value with
  | JNull => "null"
  | JBool true => "true"
  | JBool false => "false"
  | JNumber n => pretty n
  | JString s => quoteJSONString s
  | JArray items =>
      let stepback := indent in
      let indent := indent +:+ gap in
      wrap "[" "]" gap stepback indent (map (serialize gap indent) items)
  | JObject props =>
      let stepback := indent in
      let indent := indent +:+ gap in
      let colon := if String.eqb gap "" then ":" else ": " in
      wrap "{" "}" gap stepback indent
        (map_fold (fun k v partial =>
                     (quoteJSONString k +:+ colon +:+ serialize gap indent v)
                     :: partial) [] props)
  end.

Definition stringify (value : JSON) (space : option Indentation) : string :=
  serialize (gapOf space) "" value.


(** *** [JSON.parse(text)] *)

Definition isWhitespace (c : ascii) : bool :=
  let n := nat_of_ascii c in
  Nat.eqb n 32 || Nat.eqb n 9 || Nat.eqb n 10 || Nat.eqb n 13.

Fixpoint skipWhitespace (s : string) : string :=
  match s with
  | "" => ""
  | String c rest => if isWhitespace c then skipWhitespace rest else s
  end.

Definition digitValue (c : ascii) : option nat :=
  let n := nat_of_ascii c in
  if Nat.leb 48 n && Nat.leb n 57 then Some (n - 48) else None.

Definition hexValue (c : ascii) : option nat :=
  let n := nat_of_ascii c in
  if Nat.leb 48 n && Nat.leb n 57 then Some (n - 48)
  else if Nat.leb 97 n && Nat.leb n 102 then Some (n - 87)
  else if Nat.leb 65 n && Nat.leb n 70 then Some (n - 55)
  else None.

Fixpoint takeDigits (s : string) : list nat * string :=
  match s with
  | "" => ([], "")
  | String c rest =>
      match digitValue c with
      | Some d => let (ds, rest') := takeDigits rest in (d :: ds, rest')
      | None => ([], s)
      end
  end.

Definition digitsValue (ds : list nat) : Z :=
  fold_left (fun acc d => (10 * acc + Z.of_nat d)%Z) ds 0%Z.

(** A number: an integer literal.  A fraction or an exponent is outside the
    values of [JSON] and is refused like a syntax error. *)
Definition parseNumber (s : string) : option (JSON * string) :=
  let (negative, s1) :=
    match s with
    | String c rest => if Nat.eqb (nat_of_ascii c) 45 then (true, rest) else (false, s)
    | "" => (false, s)
    end in
  let (ds, rest) := takeDigits s1 in
  let continues :=
    match rest with
    | String c _ =>
        let n := nat_of_ascii c in
        Nat.eqb n 46 || Nat.eqb n 101 || Nat.eqb n 69
    | "" => false
    end in
  match ds with
  | [] => None
  | d :: ds' =>
      if (Nat.eqb d 0 && negb (Nat.eqb (length ds') 0)) || continues then None
      else
        let n := digitsValue ds in
        Some (JNumber (if negative then (- n)%Z else n), rest)
  end.

Definition unescapeChar (c : ascii) : option ascii :=
  let n := nat_of_ascii c in
  if Nat.eqb n 34 then Some doubleQuote
  else if Nat.eqb n 92 then Some backslash
  else if Nat.eqb n 47 then Some "/"%char
  else if Nat.eqb n 98 then Some (ascii_of_nat 8)
  else if Nat.eqb n 102 then Some (ascii_of_nat 12)
  else if Nat.eqb n 110 then Some (ascii_of_nat 10)
  else if Nat.eqb n 114 then Some (ascii_of_nat 13)
  else if Nat.eqb n 116 then Some (ascii_of_nat 9)
  else None.

Definition hex4 (a b c d : ascii) : option nat :=
  match hexValue a, hexValue b, hexValue c, hexValue d with
  | Some x, Some y, Some z, Some w => Some (((x * 16 + y) * 16 + z) * 16 + w)
  | _, _, _, _ => None
  end.

(** The characters of a string literal after its opening quote, up to the
    closing quote.  Of the unicode escapes, the ones below 128 are read. *)
Fixpoint parseChars (s : string) : option (string * string) :=
  match s with
  | "" => None
  | String c rest =>
      let n := nat_of_ascii c in
      if Nat.eqb n 34 then Some ("", rest)
      else if Nat.eqb n 92 then
        match rest with
        | String e rest' =>
            if Nat.eqb (nat_of_ascii e) 117 then
              match rest' with
              | String h1 (String h2 (String h3 (String h4 rest''))) =>
                  match hex4 h1 h2 h3 h4 with
                  | Some code =>
                      if Nat.ltb code 128 then
                        match parseChars rest'' with
                        | Some (str, r) => Some (String (ascii_of_nat code) str, r)
                        | None => None
                        end
                      else None
                  | None => None
                  end
              | _ => None
              end
            else
              match unescapeChar e with
              | Some c' =>
                  match parseChars rest' with
                  | Some (str, r) => Some (String c' str, r)
                  | None => None
                  end
              | None => None
              end
        | "" => None
        end
      else if Nat.ltb n 32 then None
      else
        match parseChars rest with
        | Some (str, r) => Some (String c str, r)
        | None => None
        end
  end.

Fixpoint stripPrefix (p s : string) : option string :=
  match p, s with
  | "", _ => Some s
  | String a p', String b s' => if Ascii.eqb a b then stripPrefix p' s' else None
  | _, "" => None
  end.

Definition parseLiteral (word : string) (value : JSON) (s : string)
  : option (JSON * string) :=
  match stripPrefix word s with
  | Some rest => Some (value, rest)
  | None => None
  end.

Fixpoint parseValue (fuel : nat) (s : string) : option (JSON * string) :=
  match fuel with
  | 0 => None
  | S fuel' =>
      match skipWhitespace s with
      | "" => None
      | String c rest as s' =>
          let n := nat_of_ascii c in
          if Nat.eqb n 123 then
            match skipWhitespace rest with
            | String c' rest' =>
                if Nat.eqb (nat_of_ascii c') 125 then Some (JObject ∅, rest')
                else
                  match parseMembers fuel' ∅ rest with
                  | Some (props, r) => Some (JObject props, r)
                  | None => None
                  end
            | "" => None
            end
          else if Nat.eqb n 91 then
            match skipWhitespace rest with
            | String c' rest' =>
                if Nat.eqb (nat_of_ascii c') 93 then Some (JArray [], rest')
                else
                  match parseElements fuel' rest with
                  | Some (items, r) => Some (JArray items, r)
                  | None => None
                  end
            | "" => None
            end
          else if Nat.eqb n 34 then
            match parseChars rest with
            | Some (str, r) => Some (JString str, r)
            | None => None
            end
          else if Nat.eqb n 116 then parseLiteral "true" (JBool true) s'
          else if Nat.eqb n 102 then parseLiteral "false" (JBool false) s'
          else if Nat.eqb n 110 then parseLiteral "null" JNull s'
          else parseNumber s'
      end
  end
with parseElements (fuel : nat) (s : string) : option (list JSON * string) :=
  match fuel with
  | 0 => None
  | S fuel' =>
      match parseValue fuel' s with
      | Some (value, rest) =>
          match skipWhitespace rest with
          | String c rest' =>
              let n := nat_of_ascii c in
              if Nat.eqb n 44 then
                match parseElements fuel' rest' with
                | Some (items, r) => Some (value :: items, r)
                | None => None
                end
              else if Nat.eqb n 93 then Some ([value], rest')
              else None
          | "" => None
          end
      | None => None
      end
  end
with parseMembers (fuel : nat) (props : gmap string JSON) (s : string)
  : option (gmap string JSON * string) :=
  match fuel with
  | 0 => None
  | S fuel' =>
      match skipWhitespace s with
      | String c rest =>
          if Nat.eqb (nat_of_ascii c) 34 then
            match parseChars rest with
            | Some (k, rest1) =>
                match skipWhitespace rest1 with
                | String c1 rest2 =>
                    if Nat.eqb (nat_of_ascii c1) 58 then
                      match parseValue fuel' rest2 with
                      | Some (value, rest3) =>
                          match skipWhitespace rest3 with
                          | String c3 rest4 =>
                              let n := nat_of_ascii c3 in
                              if Nat.eqb n 44 then
                                parseMembers fuel' (<[k:=value]> props) rest4
                              else if Nat.eqb n 125 then
                                Some (<[k:=value]> props, rest4)
                              else None
                          | "" => None
                          end
                      | None => None
                      end
                    else None
                | "" => None
                end
            | None => None
            end
          else None
      | "" => None
      end
  end.

Definition syntaxError : Error := "SyntaxError: Unexpected token in JSON".

Definition parse (text : string) : Outcome JSON :=
  match parseValue (2 * String.length text + 2) text with
  | Some (value, rest) =>
      if String.eqb (skipWhitespace rest) "" then Ret value
      else Throw syntaxError
  | None => Throw syntaxError
  end.

(** *** A repair function: trailing commas are removed *)

Fixpoint stripTrailingCommas (inString escaped : bool) (s : string) : string :=
  match s with
  | "" => ""
  | String c rest =>
      let n := nat_of_ascii c in
      if inString then
        if escaped then String c (stripTrailingCommas true false rest)
        else if Nat.eqb n 92 then String c (stripTrailingCommas true true rest)
        else if Nat.eqb n 34 then String c (stripTrailingCommas false false rest)
        else String c (stripTrailingCommas true false rest)
      else if Nat.eqb n 34 then String c (stripTrailingCommas true false rest)
      else if Nat.eqb n 44 then
        match skipWhitespace rest with
        | String c' _ =>
            let n' := nat_of_ascii c' in
            if Nat.eqb n' 125 || Nat.eqb n' 93
            then stripTrailingCommas false false rest
            else String c (stripTrailingCommas false false rest)
        | "" => String c (stripTrailingCommas false false rest)
        end
      else String c (stripTrailingCommas false false rest)
  end.

Definition repair (text : string) : Outcome string :=
  let repaired := stripTrailingCommas false false text in
  match parse repaired with
  | Ret _ => Ret repaired
  | Throw _ => Throw "JSONRepairError: cannot repair the document"
  end.

(** *** The instance *)

Definition platform (maxDocumentSize : nat) : Platform :=
  {| JSON_parse := parse;
     JSON_stringify := stringify;
     runValidator := fun _ _ => [];
     jsonrepair := repair;
     normalizeJsonParseError := fun _ err =>
       {| pe_position := None; pe_line := None; pe_column := None;
          pe_message := err |};
     findTextLocation := fun _ _ =>
       {| loc_line := 0; loc_column := 0; loc_from := 0; loc_to := 0 |};
     escapeValue := fun _ value => value;
     unescapeValue := fun _ value => value;
     MAX_DOCUMENT_SIZE_TEXT_MODE := maxDocumentSize |}.

(** *** Notions for the facts about the printer and the parser *)

Fixpoint isWhitespaceString (s : string) : bool :=
  match s with
  | "" => true
  | String c rest => isWhitespace c && isWhitespaceString rest
  end.

(** An indentation that [JSON.parse] skips: a number (of spaces), or a
    string of white space. *)
Definition whitespaceIndentation (indentation : Indentation) : bool :=
  match indentation with
  | IndentNumber _ => true
  | IndentString str => isWhitespaceString str
  end.

(** What may follow a number: not a digit, a fraction or an exponent. *)
Definition delimited (rest : string) : bool :=
  match rest with
  | "" => true
  | String c _ =>
      let n := nat_of_ascii c in
      match digitValue c with
      | Some _ => false
      | None => negb (Nat.eqb n 46 || Nat.eqb n 101 || Nat.eqb n 69)
      end
  end.

(** The white space before an item and before the closing bracket. *)
Definition sepWS (gap indent : string) : string :=
  if String.eqb gap "" then "" else newline +:+ indent.

(** A member of an object as it is printed. *)
Definition entry (gap indent : string) (member : string * JSON) : string :=
  quoteJSONString member.1
  +:+ (if String.eqb gap "" then ":" else ": ")
  +:+ serialize gap indent member.2.

(** What a value is read back from: its text, printed with the gap, is
    read back whatever follows it, given fuel for its size. *)
Definition readsBack (gap : string) (value : JSON) : Prop :=
  forall fuel indent rest,
    2 * json_size value <= S fuel ->
    isWhitespaceString indent = true ->
    delimited rest = true ->
    parseValue fuel (serialize gap indent value +:+ rest) = Some (value, rest).

Definition sizes (items : list JSON) : nat :=
  foldr (fun x acc => json_size x + acc) 0 items.

Definition memberSizes (members : list (string * JSON)) : nat :=
  foldr (fun member acc => json_size member.2 + acc) 0 members.

(** The members in the order in which [parseMembers] inserts them. *)
Definition insertAll (members : list (string * JSON))
    (props : gmap string JSON) : gmap string JSON :=
  fold_left (fun m member => <[member.1:=member.2]> m) members props.

Definition lengths (parts : list string) : nat :=
  foldr (fun p acc => String.length p + acc) 0 parts.

End Reference.

(** ** Concrete documents

    States of the component on the reference platform, with a size
    threshold of 16 characters and a change handler that returns. *)

Module Scenario.

Definition platform : Platform := Reference.platform 16.

Definition listener : OnChange := fun _ => None.

Definition quote (s : string) : string :=
  String Reference.doubleQuote (s +:+ String Reference.doubleQuote "").

(** A writable document [[1]] in which the user types [,2] in three edits
    that follow each other within the delay of the debounce. *)
Definition beforeTyping : TextMode :=
  mounted (P:=platform) false "[1]" (IndentNumber 2) None (Some listener).

Definition typing : list (M unit) :=
  [userEdit "[1,"; userEdit "[1,2"; userEdit "[1,2]"].

Definition afterTyping : TextMode :=
  tasks (typing ++ [timerExpired (P:=platform)]) beforeTyping.

(** A writable document [[1, 2]]: the user types [, 3] and runs Format
    before the timer of the debounce expires. *)
Definition spaced : TextMode :=
  mounted (P:=platform) false "[1, 2]" (IndentNumber 2) None (Some listener).

Definition beforeFormat : TextMode := tasks [userEdit "[1, 2, 3]"] spaced.

Definition afterFormat : TextMode :=
  snd (handleFormat (P:=platform) beforeFormat).

(** A writable document of 27 characters, above the threshold, that the
    user has not accepted. *)
Definition oversized : TextMode :=
  mounted (P:=platform) false "[1,          2,          3]" (IndentNumber 2)
    None (Some listener).

(** A read-only document. *)
Definition locked : TextMode :=
  mounted (P:=platform) true "[1, 2]" (IndentNumber 2) None (Some listener).

(** The document of the example of the patch engine: an object with the
    member [a] equal to 1. *)
Definition objectText : string := "{" +:+ quote "a" +:+ ":1}".

Definition object : TextMode :=
  mounted (P:=platform) false objectText (IndentNumber 2) None (Some listener).

Definition lockedObject : TextMode :=
  mounted (P:=platform) true objectText (IndentNumber 2) None (Some listener).

Definition replaceA : JSONPatchDocument := [OpReplace [Key "a"] (JNumber 2)].

(** A writable document indented with a string that is not white space. *)
Definition oddIndentation : TextMode :=
  mounted (P:=platform) false "[1]" (IndentString "2,") None (Some listener).

(** A writable document that does not parse: a trailing comma. *)
Definition broken : TextMode :=
  mounted (P:=platform) false "[1, 2,]" (IndentNumber 2) None (Some listener).

(** The document [[1]] has been validated; then the host assigns the text
    [[1, 2]]. *)
Definition reassigned : TextMode :=
  set_text "[1, 2]" (snd (validate (P:=platform) beforeTyping)).

End Scenario.

(** ** The rest of the script

    The projection of the canonical text into the widget, the reactive
    declarations that the markup reads, and the operations of the component
    as the events that the host, the user and the timer can raise. *)

(** The widget, as far as the script relies on it: the transaction that
    [dispatch({ changes: { from: 0, to: doc.length, insert } })] makes of a
    view, whose new document is the inserted text.  The depths of the
    history and whether the transaction counts as a change of the document
    are the widget's own. *)
Class Widget : Type := {
  replaceAll : EditorState -> string -> ViewUpdate;
  replaceAll_doc :
    forall view insert, doc (update_state (replaceAll view insert)) = insert
}.

Section Projection.
Context {P : Platform} {W : Widget}.

Definition same_text (a : option string) (b : string) : bool :=
  match a with
  | Some a' => String.eqb a' b
  | None => false
  end.

Definition setCodeMirrorValue (text : string) (force : bool) : M unit :=
  s <- get ;;
  if textEditorDisabled s && negb force then ret tt
  else
    match codeMirrorView s with
    | Some view =>
        if negb (same_text (codeMirrorText s) text) then
          modify (set_codeMirrorText (Some text)) ;;
          widgetTransaction
            (replaceAll view (escapeValue (escapeUnicodeCharacters s) text)) ;;
          updateCanUndoRedo
        else ret tt
    | None => ret tt
    end.

(** [$: setCodeMirrorValue(text)] *)
Definition projectText : M unit :=
  s <- get ;;
  setCodeMirrorValue (text s) false.

Definition handleAcceptTooLarge : M unit :=
  modify (set_acceptTooLarge true) ;;
  s <- get ;;
  setCodeMirrorValue (text s) true.

Definition forceUpdateText : M unit :=
  s <- get ;;
  match codeMirrorView s with
  | Some view =>
      widgetTransaction
        (replaceAll view (escapeValue (escapeUnicodeCharacters s) (text s)))
  | None => ret tt
  end.

(** [$: repairActions]: the action offered beside the message of the parse
    error. *)
Definition repairActions (s : TextMode) : list DiagnosticAction :=
  match jsonStatus s with
  | JSON_STATUS_REPAIRABLE => if negb (readOnly s) then [AutoRepair] else []
  | _ => []
  end.

(** [createIndentUnit]: the unit of indentation given to the widget. *)
Definition createIndentUnit (indentation : Indentation) : string :=
  match indentation with
  | IndentNumber n => string_of_list_ascii (repeat " "%char n)
  | IndentString s => s
  end.

(** The events of the component: what the user, the widget, the timer and
    the host can make it do. *)
Inductive Action : Type :=
  | DoCommand (c : Command)
  | DoPatch (operations : JSONPatchDocument)
  | DoValidate
  | DoLint
  | DoTimer
  | DoWidget (update : ViewUpdate)
  | DoCancelLoadTooLarge
  | DoAcceptTooLarge
  | DoProjectText
  | DoForceUpdateText
  | DoOpenTransformModal (options : TransformModalOptions)
  | DoSortApply (operations : JSONPatchDocument)
  | DoSortClose
  | DoTransformApply (options : TransformModalOptions) (json : JSON)
      (operations : JSONPatchDocument)
  | DoTransformClose (options : TransformModalOptions).

Definition perform (a : Action) (s : TextMode) : TextMode :=
  match a with
  | DoCommand c => snd (run c s)
  | DoPatch operations => snd (patch operations s)
  | DoValidate => snd (validate s)
  | DoLint => snd (linterCallback s)
  | DoTimer => snd (timerExpired s)
  | DoWidget update => snd (widgetTransaction update s)
  | DoCancelLoadTooLarge => snd (cancelLoadTooLarge s)
  | DoAcceptTooLarge => snd (handleAcceptTooLarge s)
  | DoProjectText => snd (projectText s)
  | DoForceUpdateText => snd (forceUpdateText s)
  | DoOpenTransformModal options => snd (openTransformModal options s)
  | DoSortApply operations => snd (sortModal_onSort operations s)
  | DoSortClose => snd (sortModal_onClose s)
  | DoTransformApply options json operations =>
      snd (transformModal_onTransform options json operations s)
  | DoTransformClose options => snd (transformModal_onClose options s)
  end.

Fixpoint performAll (actions : list Action) (s : TextMode) : TextMode :=
  match actions with
  | [] => s
  | a :: rest => performAll rest (perform a s)
  end.

(** The assignments that the functions of the script make.  A call of the
    debounced function is scheduled, and the state of the view replaced,
    only on a mounted view; [acceptTooLarge] is only ever set to [true];
    [memoizeOne] remembers what [validateText] returned; the calls of the
    host are appended to the trace, and are among the [allowed] ones. *)
Inductive assigns (allowed : Event -> Prop) : TextMode -> TextMode -> Prop :=
  | assigns_refl s : assigns allowed s s
  | assigns_trans s1 s2 s3 :
      assigns allowed s1 s2 -> assigns allowed s2 s3 -> assigns allowed s1 s3
  | assigns_text v s : assigns allowed s (set_text v s)
  | assigns_codeMirrorText v s : assigns allowed s (set_codeMirrorText v s)
  | assigns_editorState v s : assigns allowed s (set_editorState v s)
  | assigns_acceptTooLarge s : assigns allowed s (set_acceptTooLarge true s)
  | assigns_validationErrors v s : assigns allowed s (set_validationErrors v s)
  | assigns_canUndo v s : assigns allowed s (set_canUndo v s)
  | assigns_canRedo v s : assigns allowed s (set_canRedo v s)
  | assigns_modalOpen v s : assigns allowed s (set_modalOpen v s)
  | assigns_jsonStatus v s : assigns allowed s (set_jsonStatus v s)
  | assigns_jsonParseError v s : assigns allowed s (set_jsonParseError v s)
  | assigns_view st s :
      defined (codeMirrorView s) = true ->
      assigns allowed s (set_codeMirrorView (Some st) s)
  | assigns_schedule s :
      defined (codeMirrorView s) = true ->
      assigns allowed s (set_debouncePending true s)
  | assigns_unschedule s : assigns allowed s (set_debouncePending false s)
  | assigns_remember text validator s :
      assigns allowed s
        (set_validateTextCalls (S (validateTextCalls s))
           (set_memoized
              (Some (text, validator, validateText text validator)) s))
  | assigns_call ev s :
      allowed ev -> assigns allowed s (set_trace (trace s ++ [ev]) s).

Definition anyEvent (ev : Event) : Prop := True.

Definition isChange (ev : Event) : Prop :=
  match ev with
  | EvChange _ => True
  | _ => False
  end.

(** The variables that no function of the script assigns: the props other
    than [text], the identifiers of the modals and [onChangeDisabled]. *)
Definition unassigned (s s' : TextMode) : Prop :=
  readOnly s' = readOnly s
  /\ indentation s' = indentation s
  /\ escapeUnicodeCharacters s' = escapeUnicodeCharacters s
  /\ validator s' = validator s
  /\ onChange s' = onChange s
  /\ onError s' = onError s
  /\ onSortModal s' = onSortModal s
  /\ onTransformModal s' = onTransformModal s
  /\ sortModalId s' = sortModalId s
  /\ transformModalId s' = transformModalId s
  /\ onChangeDisabled s' = onChangeDisabled s.

(** The events whose code makes no call of [onError], [onSortModal] or
    [onTransformModal], nor of the [onTransform] or [onClose] of the
    options of the transform modal.  The commands of the menu and
    [openTransformModal] call [onError] and the modals; the callbacks handed
    to the transform modal call the [onTransform] and [onClose] of the
    options when these are given.  Of the three buttons of the message
    about a large document, two are events of the component
    ([handleAcceptTooLarge], [cancelLoadTooLarge]); the third is the
    [onSwitchToTreeMode] of the host itself, which no function of the
    script calls. *)
Definition callsOnChangeOnly (a : Action) : bool :=
  match a with
  | DoCommand _ => false
  | DoOpenTransformModal _ => false
  | DoTransformApply options _ _ => negb (defined (opt_onTransform options))
  | DoTransformClose options => negb (defined (opt_onClose options))
  | _ => true
  end.

(** The edits [docs] of the user, one transaction of the widget each. *)
Definition edits (docs : list string) : list (M unit) := map userEdit docs.

End Projection.

(** ** More concrete documents *)

Module Desk.

(** A widget whose replacement of the whole document is a change of the
    document that adds a step to the history. *)
Definition widget : Widget :=
  {| replaceAll := fun view insert =>
       {| update_state := {| doc := insert;
                             undoDepth := S (undoDepth view);
                             redoDepth := 0 |};
          docChanged := true |};
     replaceAll_doc := fun _ _ => eq_refl |}.

(** The user types in the document [[1]], runs Format, and the timer of
    the debounce expires. *)
Definition session : list Action :=
  [DoWidget {| update_state := {| doc := "[1, 2]";
                                  undoDepth := 1;
                                  redoDepth := 0 |};
               docChanged := true |};
   DoCommand Format;
   DoTimer].

(** The host patches, validates and lints; the timer expires and the text
    is projected. *)
Definition hostCalls : list Action :=
  [DoPatch Scenario.replaceA; DoValidate; DoLint; DoTimer; DoProjectText].

(** A custom [onTransform] that returns. *)
Definition preview : TransformPreview -> option Error := fun _ => None.

Definition previewOptions : TransformModalOptions :=
  {| opt_id := None;
     opt_selectedPath := [];
     opt_onTransform := Some preview;
     opt_onClose := None |}.

(** The parse error of the reference platform. *)
Definition syntaxError : ParseError :=
  {| pe_position := None;
     pe_line := None;
     pe_column := None;
     pe_message := Reference.syntaxError |}.

(** The diagnostic of the document with the trailing comma. *)
Definition trailingComma : Diagnostic :=
  {| diag_from := 0;
     diag_to := 0;
     diag_message := Reference.syntaxError;
     diag_actions := Some [AutoRepair];
     diag_severity := SeverityError |}.

(** The text of the large document of the scenarios. *)
Definition largeText : string := "[1,          2,          3]".

(** A change handler that throws, and the object document mounted with
    it. *)
Definition boom : Error := "Error: boom".

Definition thrower : OnChange := fun _ => Some boom.

Definition guarded : TextMode :=
  mounted (P:=Scenario.platform) false Scenario.objectText (IndentNumber 2)
    None (Some thrower).

(** The options of [handleTransform]: no callback of the host. *)
Definition plainOptions : TransformModalOptions :=
  {| opt_id := None;
     opt_selectedPath := [];
     opt_onTransform := None;
     opt_onClose := None |}.

End Desk.

(** ** Tactics of the proofs *)

Ltac unfold_monad :=
  unfold bind, ret, get, modify, lift, throw, try_catch, call_host in *.

Ltac validated_cases s :=
  unfold validated, recordOutcome;
  destruct (remembered (text s) (validator s) s) as [[? ?|?]|];
  [ | | destruct (validateText (text s) (validator s))]; simpl.

(** * Facts

    ** JSON values *)

Lemma json_size_item items x :
  x ∈ items -> json_size x < json_size (JArray items).
Proof.
  simpl. induction 1 as [x l|x y l _ IH]; simpl; lia.
Qed.

Lemma json_size_prop (props : gmap string JSON) k x :
  props !! k = Some x -> json_size x < json_size (JObject props).
Proof.
  intros Hk. simpl.
  rewrite (map_fold_delete_L _ _ k x props); [lia| |done].
  intros. lia.
Qed.

Lemma json_eqb_array_eq l l' :
  (forall x, x ∈ l -> forall y, json_eqb x y = true <-> x = y) ->
  json_eqb (JArray l) (JArray l') = true <-> l = l'.
Proof.
  simpl. revert l'. induction l as [|x l IH]; intros l' Hx; destruct l' as [|y l']; try done.
  rewrite andb_true_iff, Hx, IH.
  - split; [by intros [-> ->]|by intros [= -> ->]].
  - intros z Hz. apply Hx. by right.
  - by left.
Qed.

Lemma json_eqb_fold_true (m m' : gmap string JSON) :
  map_fold (fun k x acc =>
              acc && match m' !! k with
                     | Some y => json_eqb x y
                     | None => false
                     end) true m = true
  <-> (forall k x, m !! k = Some x ->
                   exists y, m' !! k = Some y /\ json_eqb x y = true).
Proof.
  apply (map_fold_weak_ind (fun b m => b = true <-> forall k x, m !! k = Some x ->
                   exists y, m' !! k = Some y /\ json_eqb x y = true)).
  - split; [|done]. intros _ k x. by rewrite lookup_empty.
  - intros k x m0 b Hk IH. rewrite andb_true_iff, IH. split.
    + intros [Hall Hx] k' x'. rewrite lookup_insert. case_decide as Hkk.
      * intros [= <-]. subst k'. destruct (m' !! k) as [y|]; [eauto|done].
      * by apply Hall.
    + intros Hall. split.
      * intros k' x' Hk'. apply Hall. rewrite lookup_insert_ne; [done|]. by intros ->; rewrite Hk in Hk'.
      * destruct (Hall k x) as (y & -> & Hy); [by rewrite lookup_insert_eq|done].
Qed.

Lemma json_eqb_eq a b : json_eqb a b = true <-> a = b.
Proof.
  remember (json_size a) as n eqn:Hn. revert a b Hn.
  induction n as [n IH] using lt_wf_ind. intros a b ->.
  destruct a as [|x|x|x|l|m], b as [|y|y|y|l'|m'];
    try (split; [simpl; discriminate|discriminate]); try done.
  - simpl. rewrite Bool.eqb_true_iff. split; [by intros ->|by intros [= ->]].
  - simpl. rewrite Z.eqb_eq. split; [by intros ->|by intros [= ->]].
  - simpl. rewrite String.eqb_eq. split; [by intros ->|by intros [= ->]].
  - rewrite json_eqb_array_eq; [split; [by intros ->|by intros [= ->]]|].
    intros x Hx y. eapply IH; [|reflexivity]. by apply json_size_item.
  - change (json_eqb (JObject m) (JObject m')) with
      (bool_decide (dom m = dom m')
       && map_fold (fun k x acc =>
              acc && match m' !! k with
                     | Some y => json_eqb x y
                     | None => false
                     end) true m).
    rewrite andb_true_iff, bool_decide_eq_true, json_eqb_fold_true. split.
    + intros [Hdom Hall]. f_equal. apply map_eq. intros k.
      destruct (m !! k) as [x|] eqn:Hk.
      * destruct (Hall _ _ Hk) as (y & Hy & Hxy). rewrite Hy. f_equal.
        eapply IH; [|reflexivity|exact Hxy]. by eapply json_size_prop.
      * symmetry. apply not_elem_of_dom. rewrite <- Hdom. by apply not_elem_of_dom.
    + intros [= <-]. split; [done|]. intros k x Hk. exists x. split; [done|].
      eapply IH; [|reflexivity|done]. by eapply json_size_prop.
Qed.

(** ** The patch engine *)

Module JSONPatchFacts.
Import JSONPatch.

Lemma setChild_setChild seg c c' j :
  childAt seg j = Some c -> setChild seg c (setChild seg c' j) = j.
Proof.
  destruct seg as [k|i], j; simpl; try discriminate; intros H.
  - by rewrite insert_insert_eq, insert_id.
  - by rewrite list_insert_insert_eq, list_insert_id.
Qed.

Lemma childAt_setChild seg c c' j :
  childAt seg j = Some c -> childAt seg (setChild seg c' j) = Some c'.
Proof.
  destruct seg as [k|i], j; simpl; try discriminate; intros H.
  - by rewrite lookup_insert_eq.
  - apply list_lookup_insert_eq. by eapply lookup_lt_Some.
Qed.

(** The generic inversion principle: if [g] undoes [f] at the parent of the
    addressed position, then descending with [g] undoes descending with [f]. *)
Lemma updateIn_inverse f g j seg rest j' :
  updateIn f j seg rest = Some j' ->
  (forall parent parent',
      childAt (lastSegment seg rest) parent = getIn j (seg :: rest) ->
      f (lastSegment seg rest) parent = Some parent' ->
      g (lastSegment seg rest) parent' = Some parent) ->
  updateIn g j' seg rest = Some j.
Proof.
  revert j seg j'. induction rest as [|seg' rest IH]; intros j seg j' Hf Hinv.
  - simpl in *. apply Hinv; [|done]. by destruct (childAt seg j).
  - simpl in Hf. destruct (childAt seg j) as [c|] eqn:Hc; [|done].
    destruct (updateIn f c seg' rest) as [c'|] eqn:Hu; [|done].
    injection Hf as <-. simpl.
    rewrite (childAt_setChild _ _ _ _ Hc).
    rewrite (IH c seg' c' Hu).
    + by rewrite setChild_setChild.
    + intros parent parent' Hp Hfp.
      apply Hinv; [|done].
      change (childAt (lastSegment seg' rest) parent = getIn j (seg :: seg' :: rest)).
      rewrite Hp. change (getIn j (seg :: seg' :: rest)) with
        (match childAt seg j with Some c => getIn c (seg' :: rest) | None => None end).
      by rewrite Hc.
Qed.


Lemma insertAt_deleteAt_index v i parent parent' :
  insertAt v (Index i) parent = Some parent' ->
  deleteAt (Index i) parent' = Some parent.
Proof.
  destruct parent as [| | | |l|]; simpl; try discriminate.
  destruct (Nat.leb i (length l)) eqn:Hi; [|discriminate].
  apply Nat.leb_le in Hi. intros [= <-]. simpl.
  assert (Hlt : Nat.ltb i (length (take i l ++ v :: drop i l)) = true).
  { apply Nat.ltb_lt. rewrite length_app, length_take_le by done. simpl. lia. }
  rewrite Hlt. do 2 f_equal.
  rewrite <- (length_take_le l i) at 1 by done.
  by rewrite delete_middle, take_drop.
Qed.

Lemma insertAt_deleteAt_key v k parent parent' :
  childAt (Key k) parent = None ->
  insertAt v (Key k) parent = Some parent' ->
  deleteAt (Key k) parent' = Some parent.
Proof.
  destruct parent as [| | | | |m]; simpl; try discriminate.
  intros Hk [= <-]. simpl. rewrite lookup_insert_eq.
  by rewrite delete_insert_id.
Qed.

Lemma insertAt_replaceAt_key v k old parent parent' :
  childAt (Key k) parent = Some old ->
  insertAt v (Key k) parent = Some parent' ->
  replaceAt old (Key k) parent' = Some parent.
Proof.
  destruct parent as [| | | | |m]; simpl; try discriminate.
  intros Hk [= <-]. unfold replaceAt. simpl. rewrite lookup_insert_eq.
  by rewrite insert_insert_eq, insert_id.
Qed.

Lemma deleteAt_insertAt seg old parent parent' :
  childAt seg parent = Some old ->
  deleteAt seg parent = Some parent' ->
  insertAt old seg parent' = Some parent.
Proof.
  destruct seg as [k|i], parent as [| | | |l|m]; simpl; try discriminate.
  - intros Hk. rewrite Hk. intros [= <-]. simpl.
    by rewrite insert_delete_eq, insert_id.
  - intros Hi. pose proof (lookup_lt_Some _ _ _ Hi) as Hlt.
    destruct (Nat.ltb_spec i (length l)); [|lia]. intros [= <-]. simpl.
    assert (Hle : Nat.leb i (length (delete i l)) = true).
    { apply Nat.leb_le. rewrite length_delete by eauto. lia. }
    rewrite Hle. do 2 f_equal.
    rewrite delete_take_drop.
    rewrite take_app_le by (rewrite length_take_le; lia).
    rewrite take_take, Nat.min_id.
    rewrite drop_app_ge by (rewrite length_take_le; lia).
    rewrite length_take_le, Nat.sub_diag by lia. simpl.
    by apply take_drop_middle.
Qed.

Lemma replaceAt_replaceAt v seg old parent parent' :
  childAt seg parent = Some old ->
  replaceAt v seg parent = Some parent' ->
  replaceAt old seg parent' = Some parent.
Proof.
  unfold replaceAt. intros Hc. rewrite Hc. intros [= <-].
  rewrite (childAt_setChild _ _ _ _ Hc). by rewrite setChild_setChild.
Qed.


Lemma updateIn_is_Some f j seg rest j' :
  (forall s p p', f s p = Some p' -> is_Some (childAt s p)) ->
  updateIn f j seg rest = Some j' ->
  is_Some (getIn j (seg :: rest)).
Proof.
  intros Hf. revert j seg j'.
  induction rest as [|seg' rest IH]; intros j seg j' Hu; simpl in *.
  - destruct (Hf _ _ _ Hu) as [c ->]. by eexists.
  - destruct (childAt seg j) as [c|]; [|done].
    destruct (updateIn f c seg' rest) as [c'|] eqn:Hc; [|done].
    by eapply IH.
Qed.

Lemma deleteAt_is_Some s p p' : deleteAt s p = Some p' -> is_Some (childAt s p).
Proof.
  destruct s as [k|i], p as [| | | |l|m]; simpl; try discriminate.
  - destruct (m !! k); [by eexists|discriminate].
  - destruct (Nat.ltb_spec i (length l)); [|discriminate].
    intros _. by apply lookup_lt_is_Some.
Qed.

Lemma replaceAt_is_Some v s p p' : replaceAt v s p = Some p' -> is_Some (childAt s p).
Proof. unfold replaceAt. destruct (childAt s p); [by eexists|discriminate]. Qed.

Lemma immutableJSONPatch_app j ops1 ops2 :
  immutableJSONPatch j (ops1 ++ ops2) =
  match immutableJSONPatch j ops1 with
  | Some j' => immutableJSONPatch j' ops2
  | None => None
  end.
Proof.
  revert j. induction ops1 as [|op ops1 IH]; intros j; simpl; [done|].
  destruct (applyOperation j op); [apply IH|done].
Qed.

Lemma addIn_revert j path v j' :
  addIn j path v = Some j' ->
  immutableJSONPatch j' (revertAdd j path) = Some j.
Proof.
  destruct path as [|seg rest]; [done|].
  unfold addIn, revertAdd, isArrayItem. intros Hadd.
  destruct (lastSegment seg rest) as [k|i] eqn:Hlast.
  - destruct (getIn j (seg :: rest)) as [old|] eqn:Hget; simpl.
    + rewrite (updateIn_inverse _ (replaceAt old) _ _ _ _ Hadd); [done|].
      rewrite Hlast, Hget. intros parent parent' Hp. by apply insertAt_replaceAt_key.
    + rewrite (updateIn_inverse _ deleteAt _ _ _ _ Hadd); [done|].
      rewrite Hlast, Hget. intros parent parent' Hp. by apply insertAt_deleteAt_key.
  - simpl. rewrite (updateIn_inverse _ deleteAt _ _ _ _ Hadd); [done|].
    rewrite Hlast. intros parent parent' _. by apply insertAt_deleteAt_index.
Qed.

Lemma removeIn_addIn j path old j' :
  getIn j path = Some old ->
  removeIn j path = Some j' ->
  addIn j' path old = Some j.
Proof.
  destruct path as [|seg rest]; [done|].
  unfold removeIn, addIn. intros Hget Hrem.
  apply (updateIn_inverse _ _ _ _ _ _ Hrem).
  rewrite Hget. intros parent parent'. by apply deleteAt_insertAt.
Qed.

Lemma removeIn_revert j path j' :
  removeIn j path = Some j' ->
  immutableJSONPatch j' (revertRemove j path) = Some j.
Proof.
  intros Hrem. unfold revertRemove.
  destruct path as [|seg rest]; [done|].
  destruct (updateIn_is_Some _ _ _ _ _ deleteAt_is_Some Hrem) as [old Hget].
  rewrite Hget. cbn [immutableJSONPatch applyOperation].
  by rewrite (removeIn_addIn _ _ _ _ Hget Hrem).
Qed.

Lemma replaceIn_revert j path v j' :
  replaceIn j path v = Some j' ->
  immutableJSONPatch j' (revertReplace j path) = Some j.
Proof.
  intros Hrep. unfold revertReplace.
  destruct path as [|seg rest]; [done|].
  destruct (updateIn_is_Some _ _ _ _ _ (replaceAt_is_Some v) Hrep) as [old Hget].
  rewrite Hget. simpl. unfold replaceIn in Hrep.
  rewrite (updateIn_inverse _ (replaceAt old) _ _ _ _ Hrep); [done|].
  rewrite Hget. intros parent parent'. by apply replaceAt_replaceAt.
Qed.

Lemma applyOperation_revert j op j' :
  applyOperation j op = Some j' ->
  immutableJSONPatch j' (revertOperation j op) = Some j.
Proof.
  destruct op as [path v|path|path v|from path|from path|path v]; simpl.
  - apply addIn_revert.
  - apply removeIn_revert.
  - apply replaceIn_revert.
  - destruct (getIn j from); [apply addIn_revert|done].
  - unfold revertMove.
    destruct (getIn j from) as [v|] eqn:Hget; [|done].
    destruct (removeIn j from) as [j1|] eqn:Hrem; [|done].
    intros Hadd. rewrite immutableJSONPatch_app, (addIn_revert _ _ _ _ Hadd).
    cbn [immutableJSONPatch applyOperation]. by rewrite (removeIn_addIn _ _ _ _ Hget Hrem).
  - destruct (getIn j path) as [x|]; [|done].
    destruct (json_eqb x v); [|done]. by intros [= <-].
Qed.

Lemma revertJSONPatch_correct j operations j' :
  immutableJSONPatch j operations = Some j' ->
  immutableJSONPatch j' (revertJSONPatch j operations) = Some j.
Proof.
  revert j. induction operations as [|op rest IH]; intros j; simpl.
  - by intros [= <-].
  - destruct (applyOperation j op) as [j1|] eqn:Hop; [|done].
    intros Hrest. rewrite immutableJSONPatch_app, (IH _ Hrest).
    by apply applyOperation_revert.
Qed.

Example replace_example :
  let doc := JObject {[ "a" := JNumber 1 ]} in
  let ops := [OpReplace [Key "a"] (JNumber 2)] in
  immutableJSONPatch doc ops = Some (JObject {[ "a" := JNumber 2 ]})
  /\ revertJSONPatch doc ops = [OpReplace [Key "a"] (JNumber 1)].
Proof. split; reflexivity. Qed.

End JSONPatchFacts.

(** ** The component *)

Section Facts.
Context {P : Platform}.

(** *** Memoised validation *)

Lemma memoizedValidateText_remembered t v s result :
  remembered t v s = Some result ->
  memoizedValidateText t v s = (Ret result, s).
Proof.
  unfold remembered, memoizedValidateText. unfold_monad.
  destruct (memoized s) as [[[lt lv] lr]|]; [|done].
  destruct (String.eqb lt t && same_validator lv v); [|done].
  by intros [= ->].
Qed.

Lemma memoizedValidateText_fresh t v s :
  remembered t v s = None ->
  memoizedValidateText t v s =
  (Ret (validateText t v),
   set_validateTextCalls (S (validateTextCalls s))
     (set_memoized (Some (t, v, validateText t v)) s)).
Proof.
  unfold remembered, memoizedValidateText. unfold_monad.
  destruct (memoized s) as [[[lt lv] lr]|]; [|done].
  by destruct (String.eqb lt t && same_validator lv v).
Qed.

Lemma Body_validate_ret flush s s1 :
  flush s = (Ret tt, s1) ->
  Body.validate flush s = (Ret (fst (validated s1)), snd (validated s1)).
Proof.
  intros Hf. unfold Body.validate, validated.
  unfold bind at 1. rewrite Hf. unfold bind at 1, get at 1. unfold bind at 1.
  destruct (remembered (text s1) (validator s1) s1) as [r|] eqn:Hr.
  - rewrite (memoizedValidateText_remembered _ _ _ _ Hr). by destruct r.
  - rewrite (memoizedValidateText_fresh _ _ _ Hr).
    by destruct (validateText (text s1) (validator s1)).
Qed.

Lemma Body_validate_throw flush s e s1 :
  flush s = (Throw e, s1) ->
  Body.validate flush s = (Throw e, s1).
Proof. intros Hf. unfold Body.validate. unfold bind at 1. by rewrite Hf. Qed.


Lemma call_host_unfold ev result s :
  call_host ev result s = (outcomeOf result, set_trace (trace s ++ [ev]) s).
Proof. unfold call_host. unfold_monad. by destruct result. Qed.

Lemma Body_emitOnChange_none flush t p s :
  onChange s = None -> Body.emitOnChange flush t p s = (Ret tt, s).
Proof. intros Hc. unfold Body.emitOnChange. unfold_monad. by rewrite Hc. Qed.

Lemma Body_emitOnChange_ret flush t p s s1 :
  flush s = (Ret tt, s1) ->
  onChange s1 = onChange s ->
  Body.emitOnChange flush t p s =
  match onChange s with
  | Some _ => emitted t p s1
  | None => (Ret tt, s)
  end.
Proof.
  intros Hf Hc. unfold Body.emitOnChange, emitted.
  unfold bind at 1, get at 1. rewrite Hc.
  destruct (onChange s) as [callback|]; [|done].
  unfold bind at 1. rewrite (Body_validate_ret _ _ _ Hf).
  by rewrite call_host_unfold.
Qed.

Lemma Body_emitOnChange_throw flush t p s e s1 :
  flush s = (Throw e, s1) ->
  Body.emitOnChange flush t p s =
  match onChange s with
  | Some _ => (Throw e, s1)
  | None => (Ret tt, s)
  end.
Proof.
  intros Hf. unfold Body.emitOnChange.
  unfold bind at 1, get at 1.
  destruct (onChange s) as [callback|]; [|done].
  unfold bind at 1. by rewrite (Body_validate_throw _ _ _ _ Hf).
Qed.

Lemma Body_onChangeCodeMirrorValue_unfold flush s :
  Body.onChangeCodeMirrorValue flush s =
  if onChangeDisabled s then (Ret tt, s)
  else match codeMirrorView s with
       | Some view =>
           let value := getCodeMirrorValue s in
           if String.eqb value (text s)
           then (Ret tt, set_codeMirrorText (Some value) s)
           else Body.emitOnChange flush value value (applied value view s)
       | None => (Ret tt, s)
       end.
Proof.
  unfold Body.onChangeCodeMirrorValue, updateCanUndoRedo, applied.
  unfold bind at 1, get at 1.
  destruct (onChangeDisabled s); [done|].
  destruct (codeMirrorView s) as [view|] eqn:Hv; [|done]. simpl.
  unfold_monad. simpl.
  destruct (String.eqb (getCodeMirrorValue s) (text s)); [done|]. simpl.
  by rewrite Hv.
Qed.

Lemma flush_idle s : debouncePending s = false -> flush s = (Ret tt, s).
Proof. intros Hp. unfold flush. simpl. unfold_monad. by rewrite Hp. Qed.

Lemma flush_pending s :
  debouncePending s = true ->
  flush s = Body.onChangeCodeMirrorValue (ret tt) (set_debouncePending false s).
Proof. intros Hp. unfold flush. simpl. unfold_monad. by rewrite Hp. Qed.


Lemma flush_unfold s :
  flush s =
  if debouncePending s then
    let s0 := set_debouncePending false s in
    if onChangeDisabled s then (Ret tt, s0)
    else match codeMirrorView s with
         | Some view =>
             let value := getCodeMirrorValue s in
             if String.eqb value (text s)
             then (Ret tt, set_codeMirrorText (Some value) s0)
             else emitted value value (applied value view s0)
         | None => (Ret tt, s0)
         end
  else (Ret tt, s).
Proof.
  destruct (debouncePending s) eqn:Hp; [|by apply flush_idle].
  rewrite (flush_pending _ Hp), Body_onChangeCodeMirrorValue_unfold. simpl.
  destruct (onChangeDisabled s); [done|].
  destruct (codeMirrorView s) as [view|]; [|done].
  change (getCodeMirrorValue (set_debouncePending false s))
    with (getCodeMirrorValue s).
  destruct (String.eqb (getCodeMirrorValue s) (text s)); [done|].
  rewrite (Body_emitOnChange_ret _ _ _ _ _ eq_refl eq_refl).
  unfold emitted. simpl. by destruct (onChange s).
Qed.

(** More fuel than one nested flush changes nothing: the debounced function
    runs with its timer cleared. *)
Lemma flush_fuel_stable fuel s : flush_fuel (S fuel) s = flush s.
Proof.
  unfold flush. simpl. unfold bind at 1 3, get.
  destruct (debouncePending s) eqn:Hp; [|done].
  unfold bind, modify.
  rewrite !Body_onChangeCodeMirrorValue_unfold. simpl.
  destruct (onChangeDisabled s); [done|].
  destruct (codeMirrorView s) as [view|]; [|done].
  destruct (String.eqb _ _); [done|].
  assert (Hidle : forall n, flush_fuel n
            (applied (getCodeMirrorValue (set_debouncePending false s)) view
               (set_debouncePending false s)) =
          (Ret tt, applied (getCodeMirrorValue (set_debouncePending false s)) view
               (set_debouncePending false s))).
  { intros n. destruct n; [done|]. simpl. unfold_monad. done. }
  rewrite (Body_emitOnChange_ret _ _ _ _ _ (Hidle fuel) eq_refl).
  by rewrite (Body_emitOnChange_ret _ _ _ _ _ eq_refl eq_refl).
Qed.

Lemma validated_text s : text (snd (validated s)) = text s.
Proof. by validated_cases s. Qed.

Lemma validated_trace s : trace (snd (validated s)) = trace s.
Proof. by validated_cases s. Qed.

Lemma validated_pending s :
  debouncePending (snd (validated s)) = debouncePending s.
Proof. by validated_cases s. Qed.

Lemma validated_onChange s : onChange (snd (validated s)) = onChange s.
Proof. by validated_cases s. Qed.

Lemma validated_validator s : validator (snd (validated s)) = validator s.
Proof. by validated_cases s. Qed.

Lemma recordOutcome_consistent r s : consistent (recordOutcome r s).
Proof.
  unfold consistent, parseErrorRecorded, noParseErrorRecorded.
  destruct r as [pe rep|errs]; simpl.
  - split.
    + left. split; [by eexists|]. split; [by destruct rep; auto|done].
    + intros [_ [? _]]. done.
  - split; [by right|]. intros [[[? ?] _] _]. done.
Qed.

Lemma validated_consistent s : consistent (snd (validated s)).
Proof.
  unfold validated. destruct (remembered _ _ _); apply recordOutcome_consistent.
Qed.

Lemma emitted_consistent t p s :
  forall e, fst (emitted t p s) = Throw e -> consistent (snd (emitted t p s)).
Proof.
  unfold emitted. destruct (onChange s); [|done]. simpl. intros e _.
  apply validated_consistent.
Qed.

Lemma validate_unfold s :
  validate s =
  match flush s with
  | (Ret _, s1) => (Ret (fst (validated s1)), snd (validated s1))
  | (Throw e, s1) => (Throw e, s1)
  end.
Proof.
  unfold validate. destruct (flush s) as [[[]|e] s1] eqn:Hf.
  - by apply Body_validate_ret.
  - by apply Body_validate_throw.
Qed.



(** *** Memoisation: depth one *)

Lemma same_validator_refl v : same_validator v v = true.
Proof. destruct v; simpl; [apply Nat.eqb_refl|done]. Qed.

Lemma remembered_recordOutcome t v r s :
  remembered t v (recordOutcome r s) = remembered t v s.
Proof. by destruct r. Qed.

Lemma validated_remembered s :
  remembered (text s) (validator s) (snd (validated s)) = Some (fst (validated s)).
Proof.
  unfold validated.
  destruct (remembered (text s) (validator s) s) as [r|] eqn:Hr; simpl.
  - by rewrite remembered_recordOutcome.
  - rewrite remembered_recordOutcome. unfold remembered. simpl.
    by rewrite String.eqb_refl, same_validator_refl.
Qed.

Lemma recordOutcome_idem r s : recordOutcome r (recordOutcome r s) = recordOutcome r s.
Proof. by destruct r. Qed.

Lemma validated_idem s :
  validated (snd (validated s)) = (fst (validated s), snd (validated s)).
Proof.
  unfold validated at 1.
  rewrite validated_text, validated_validator, validated_remembered.
  f_equal. unfold validated.
  destruct (remembered (text s) (validator s) s); apply recordOutcome_idem.
Qed.

Lemma validated_calls s :
  validateTextCalls (snd (validated s)) =
  match remembered (text s) (validator s) s with
  | Some _ => validateTextCalls s
  | None => S (validateTextCalls s)
  end.
Proof. by validated_cases s. Qed.

Lemma validated_memoized_fresh s :
  remembered (text s) (validator s) s = None ->
  validated s =
  (validateText (text s) (validator s),
   recordOutcome (validateText (text s) (validator s))
     (set_validateTextCalls (S (validateTextCalls s))
        (set_memoized
           (Some (text s, validator s, validateText (text s) (validator s))) s))).
Proof. unfold validated. by intros ->. Qed.

Lemma emitted_pending t p s :
  debouncePending (snd (emitted t p s)) = debouncePending s.
Proof.
  unfold emitted. destruct (onChange s); [|done]. simpl. apply validated_pending.
Qed.

Lemma emitted_text t p s : text (snd (emitted t p s)) = text s.
Proof.
  unfold emitted. destruct (onChange s); [|done]. simpl. apply validated_text.
Qed.

Lemma emitted_validator t p s : validator (snd (emitted t p s)) = validator s.
Proof.
  unfold emitted. destruct (onChange s); [|done]. simpl. apply validated_validator.
Qed.

Lemma flush_pending_false s : debouncePending (snd (flush s)) = false.
Proof.
  rewrite flush_unfold. destruct (debouncePending s) eqn:Hp; [|done]. simpl.
  destruct (onChangeDisabled s); [done|].
  destruct (codeMirrorView s); [|done].
  destruct (String.eqb _ _); [done|]. by rewrite emitted_pending.
Qed.

Lemma validate_idle s :
  debouncePending s = false ->
  validate s = (Ret (fst (validated s)), snd (validated s)).
Proof. intros Hp. by rewrite validate_unfold, flush_idle. Qed.

Lemma validated_calls_le s :
  validateTextCalls (snd (validated s)) <= S (validateTextCalls s).
Proof. rewrite validated_calls. destruct (remembered _ _ _); lia. Qed.

Lemma validated_calls_frame s s' :
  text s' = text s ->
  validator s' = validator s ->
  memoized s' = memoized s ->
  validateTextCalls s' = validateTextCalls s ->
  validateTextCalls (snd (validated s')) = validateTextCalls (snd (validated s)).
Proof.
  intros Ht Hv Hm Hc. rewrite !validated_calls. unfold remembered.
  by rewrite Ht, Hv, Hm, Hc.
Qed.

Lemma validated_twice_calls s :
  validateTextCalls (snd (validated (snd (validated s)))) =
  validateTextCalls (snd (validated s)).
Proof. by rewrite validated_idem. Qed.

(** After a flush, the pair (text, validator) is either remembered (it was
    validated for the change event of the flushed update) or at most one run
    of [validateText] away. *)
Lemma flush_calls s :
  validateTextCalls (snd (validated (snd (flush s)))) <= S (validateTextCalls s).
Proof.
  rewrite flush_unfold. destruct (debouncePending s) eqn:Hp;
    [|apply validated_calls_le].
  cbv zeta.
  destruct (onChangeDisabled s);
    [exact (validated_calls_le (set_debouncePending false s))|].
  destruct (codeMirrorView s) as [view|];
    [|exact (validated_calls_le (set_debouncePending false s))].
  destruct (String.eqb _ _);
    [exact (validated_calls_le (set_codeMirrorText _ (set_debouncePending false s)))|].
  set (s3 := applied _ _ _).
  unfold emitted. destruct (onChange s3).
  - cbn [snd].
    rewrite (validated_calls_frame (snd (validated s3))) by reflexivity.
    rewrite validated_twice_calls. exact (validated_calls_le s3).
  - exact (validated_calls_le s3).
Qed.



(** *** The flush before validation *)

Lemma same_validator_eq v w : same_validator v w = true -> v = w.
Proof.
  destruct v, w; simpl; try done. intros Hv. f_equal. by apply Nat.eqb_eq.
Qed.

Lemma remembered_coherent t v s r :
  coherent s -> remembered t v s = Some r -> r = validateText t v.
Proof.
  unfold remembered. intros Hc.
  destruct (memoized s) as [[[lt lv] lr]|] eqn:Hm; [|done].
  destruct (String.eqb lt t) eqn:Ht; [|done].
  destruct (same_validator lv v) eqn:Hv; [|done]. simpl.
  intros [= <-]. apply String.eqb_eq in Ht. apply same_validator_eq in Hv.
  subst. by apply Hc.
Qed.

Lemma validated_result s :
  coherent s -> fst (validated s) = validateText (text s) (validator s).
Proof.
  intros Hc. unfold validated.
  destruct (remembered _ _ _) as [r|] eqn:Hr; [|done].
  simpl. by eapply remembered_coherent.
Qed.

Lemma coherent_ext s s' : memoized s' = memoized s -> coherent s -> coherent s'.
Proof. unfold coherent. intros ->. auto. Qed.

Lemma validated_coherent s : coherent s -> coherent (snd (validated s)).
Proof.
  intros Hc. unfold validated.
  destruct (remembered _ _ _) as [r|] eqn:Hr; simpl.
  - eapply coherent_ext; [|done]. by destruct r.
  - intros t v r.
    replace (memoized (recordOutcome _ _)) with
      (Some (text s, validator s, validateText (text s) (validator s)))
      by (by destruct (validateText (text s) (validator s))).
    by intros [= <- <- <-].
Qed.

Lemma emitted_coherent t p s : coherent s -> coherent (snd (emitted t p s)).
Proof.
  intros Hc. unfold emitted. destruct (onChange s); [|done]. simpl.
  eapply coherent_ext; [|by apply validated_coherent]. done.
Qed.

Lemma flush_coherent s : coherent s -> coherent (snd (flush s)).
Proof.
  intros Hc. rewrite flush_unfold. destruct (debouncePending s); [|done]. simpl.
  destruct (onChangeDisabled s); [done|].
  destruct (codeMirrorView s); [|done].
  destruct (String.eqb _ _); [done|]. by apply emitted_coherent.
Qed.

Lemma flush_validator s : validator (snd (flush s)) = validator s.
Proof.
  rewrite flush_unfold. destruct (debouncePending s); [|done]. simpl.
  destruct (onChangeDisabled s); [done|].
  destruct (codeMirrorView s); [|done].
  destruct (String.eqb _ _); [done|]. by rewrite emitted_validator.
Qed.

Lemma flush_text_latest s :
  debouncePending s = true ->
  onChangeDisabled s = false ->
  defined (codeMirrorView s) = true ->
  text (snd (flush s)) = getCodeMirrorValue s.
Proof.
  intros Hp Hd Hv. rewrite flush_unfold, Hp, Hd. simpl.
  destruct (codeMirrorView s) as [view|] eqn:Hview; [|done].
  destruct (String.eqb _ _) eqn:He.
  - simpl. symmetry. by apply String.eqb_eq.
  - by rewrite emitted_text.
Qed.

Lemma flush_text_idle s :
  debouncePending s = false -> text (snd (flush s)) = text s.
Proof. intros Hp. by rewrite flush_idle. Qed.



(** *** Emission of change events *)

Lemma emitted_onChange t p s : onChange (snd (emitted t p s)) = onChange s.
Proof.
  unfold emitted. destruct (onChange s) eqn:Hc; [|done]. simpl.
  by rewrite validated_onChange.
Qed.

Lemma validated_onError s : onError (snd (validated s)) = onError s.
Proof. by validated_cases s. Qed.

Lemma emitted_onError t p s : onError (snd (emitted t p s)) = onError s.
Proof.
  unfold emitted. destruct (onChange s); [|done]. simpl. apply validated_onError.
Qed.

Lemma flush_onChange s : onChange (snd (flush s)) = onChange s.
Proof.
  rewrite flush_unfold. destruct (debouncePending s); [|done]. simpl.
  destruct (onChangeDisabled s); [done|].
  destruct (codeMirrorView s); [|done].
  destruct (String.eqb _ _); [done|]. by rewrite emitted_onChange.
Qed.

Lemma flush_onError s : onError (snd (flush s)) = onError s.
Proof.
  rewrite flush_unfold. destruct (debouncePending s); [|done]. simpl.
  destruct (onChangeDisabled s); [done|].
  destruct (codeMirrorView s); [|done].
  destruct (String.eqb _ _); [done|]. by rewrite emitted_onError.
Qed.

Lemma emitOnChange_unfold t p s :
  emitOnChange t p s =
  match onChange s with
  | Some _ =>
      match flush s with
      | (Ret _, s1) => emitted t p s1
      | (Throw e, s1) => (Throw e, s1)
      end
  | None => (Ret tt, s)
  end.
Proof.
  unfold emitOnChange. destruct (flush s) as [[[]|e] s1] eqn:Hf.
  - rewrite (Body_emitOnChange_ret _ _ _ _ _ Hf); [done|].
    change s1 with (snd (Ret tt, s1)). rewrite <- Hf. apply flush_onChange.
  - by rewrite (Body_emitOnChange_throw _ _ _ _ _ _ Hf).
Qed.

Lemma emitOnChange_idle t p s :
  debouncePending s = false -> emitOnChange t p s = emitted t p s.
Proof.
  intros Hp. rewrite emitOnChange_unfold, (flush_idle _ Hp).
  unfold emitted. by destruct (onChange s).
Qed.

Lemma emitOnChange_onError t p s : onError (snd (emitOnChange t p s)) = onError s.
Proof.
  rewrite emitOnChange_unfold. destruct (onChange s); [|done].
  destruct (flush s) as [[[]|e] s1] eqn:Hf.
  - rewrite emitted_onError. change s1 with (snd (Ret tt, s1)).
    rewrite <- Hf. apply flush_onError.
  - simpl. change s1 with (snd (Throw (A:=unit) e, s1)).
    rewrite <- Hf. apply flush_onError.
Qed.

(** What the flush throws is what the change handler of the host threw. *)
Lemma flush_throw s e s' :
  flush s = (Throw e, s') ->
  exists callback ev, onChange s = Some callback /\ callback ev = Some e.
Proof.
  rewrite flush_unfold. destruct (debouncePending s); [|done]. simpl.
  destruct (onChangeDisabled s); [done|].
  destruct (codeMirrorView s); [|done].
  destruct (String.eqb _ _); [done|].
  unfold emitted. simpl. destruct (onChange s) as [callback|]; [|done].
  intros [= Hcb _]. eexists _, _. split; [done|].
  by destruct (callback _) eqn:Hev; [injection Hcb as ->|].
Qed.

Lemma emitOnChange_throw t p s e s' :
  emitOnChange t p s = (Throw e, s') ->
  exists callback ev, onChange s = Some callback /\ callback ev = Some e.
Proof.
  rewrite emitOnChange_unfold. destruct (onChange s) as [callback|] eqn:Hc; [|done].
  destruct (flush s) as [[[]|e1] s1] eqn:Hf.
  - unfold emitted.
    replace (onChange s1) with (Some callback).
    2: { change s1 with (snd (Ret tt, s1)). rewrite <- Hf. by rewrite flush_onChange. }
    intros [= Hcb _]. eexists _, _. split; [done|].
    by destruct (callback _) eqn:Hev; [injection Hcb as ->|].
  - intros [= -> ->]. destruct (flush_throw _ _ _ Hf) as (cb & ev & Hcb & Hev).
    rewrite Hc in Hcb. injection Hcb as <-. eauto.
Qed.


(** *** The commands *)

Lemma reportError_unfold err s :
  reportError err s =
  (outcomeOf (onError s err), set_trace (trace s ++ [EvError err]) s).
Proof. unfold reportError. unfold bind, get. apply call_host_unfold. Qed.

Lemma set_text_same s : set_text (text s) s = s.
Proof. by destruct s. Qed.

Lemma handleFormat_unfold s :
  handleFormat s =
  if readOnly s then (Ret tt, s)
  else match JSON_parse (text s) with
       | Ret json =>
           let formatted := JSON_stringify json (Some (indentation s)) in
           if String.eqb formatted (text s) then (Ret tt, set_text formatted s)
           else match emitOnChange formatted (text s) (set_text formatted s) with
                | (Ret _, s2) => (Ret tt, s2)
                | (Throw err, s2) => reportError err s2
                end
       | Throw err => reportError err s
       end.
Proof.
  unfold handleFormat. unfold bind at 1, get at 1.
  destruct (readOnly s); [done|].
  unfold try_catch, bind, get, lift, modify, ret.
  destruct (JSON_parse (text s)) as [json|err]; [|done]. simpl.
  destruct (String.eqb _ _); [done|]. simpl.
  by destruct (emitOnChange _ _ _) as [[[]|err] s2].
Qed.

Lemma handleCompact_unfold s :
  handleCompact s =
  if readOnly s then (Ret tt, s)
  else match JSON_parse (text s) with
       | Ret json =>
           let compacted := JSON_stringify json None in
           if String.eqb compacted (text s) then (Ret tt, set_text compacted s)
           else match emitOnChange compacted (text s) (set_text compacted s) with
                | (Ret _, s2) => (Ret tt, s2)
                | (Throw err, s2) => reportError err s2
                end
       | Throw err => reportError err s
       end.
Proof.
  unfold handleCompact. unfold bind at 1, get at 1.
  destruct (readOnly s); [done|].
  unfold try_catch, bind, get, lift, modify, ret.
  destruct (JSON_parse (text s)) as [json|err]; [|done]. simpl.
  destruct (String.eqb _ _); [done|]. simpl.
  by destruct (emitOnChange _ _ _) as [[[]|err] s2].
Qed.

Lemma handleRepair_unfold s :
  handleRepair s =
  if readOnly s then (Ret tt, s)
  else match jsonrepair (text s) with
       | Ret repaired =>
           let s1 := set_jsonParseError Undefined
                       (set_jsonStatus JSON_STATUS_VALID (set_text repaired s)) in
           if String.eqb repaired (text s) then (Ret tt, s1)
           else match emitOnChange repaired (text s) s1 with
                | (Ret _, s2) => (Ret tt, s2)
                | (Throw err, s2) => reportError err s2
                end
       | Throw err => reportError err s
       end.
Proof.
  unfold handleRepair. unfold bind at 1, get at 1.
  destruct (readOnly s); [done|].
  unfold try_catch, bind, get, lift, modify, ret.
  destruct (jsonrepair (text s)) as [repaired|err]; [|done]. simpl.
  destruct (String.eqb _ _); [done|]. simpl.
  by destruct (emitOnChange _ _ _) as [[[]|err] s2].
Qed.

Lemma handleSort_unfold s :
  handleSort s =
  if readOnly s then (Ret tt, s)
  else match JSON_parse (text s) with
       | Ret json =>
           let props := {| sort_id := sortModalId s;
                           sort_json := json;
                           sort_selectedPath := [] |} in
           let s1 := set_trace (trace s ++ [EvSortModal props])
                       (set_modalOpen true s) in
           match onSortModal s props with
           | Some err => reportError err s1
           | None => (Ret tt, s1)
           end
       | Throw err => reportError err s
       end.
Proof.
  unfold handleSort. unfold bind at 1, get at 1.
  destruct (readOnly s); [done|].
  unfold try_catch, bind, get, lift, modify, ret.
  destruct (JSON_parse (text s)) as [json|err]; [|done]. simpl.
  rewrite call_host_unfold. simpl. by destruct (onSortModal s _).
Qed.

Lemma handleTransform_unfold s :
  handleTransform s =
  if readOnly s then (Ret tt, s)
  else match JSON_parse (text s) with
       | Ret json =>
           let props := {| transform_id := transformModalId s;
                           transform_json := json;
                           transform_selectedPath := [] |} in
           let s1 := set_trace (trace s ++ [EvTransformModal props])
                       (set_modalOpen true s) in
           match onTransformModal s props with
           | Some err => reportError err s1
           | None => (Ret tt, s1)
           end
       | Throw err => reportError err s
       end.
Proof.
  unfold handleTransform, openTransformModal. unfold bind at 1, get at 1.
  destruct (readOnly s); [done|].
  unfold try_catch, bind, get, lift, modify, ret.
  destruct (JSON_parse (text s)) as [json|err]; [|done]. simpl.
  rewrite call_host_unfold. simpl. by destruct (onTransformModal s _).
Qed.

(** Read-only documents: the commands return at once. *)
Lemma run_readOnly s c :
  readOnly s = true -> run c s = (Ret tt, s).
Proof.
  intros Hro. destruct c; simpl.
  - by rewrite handleFormat_unfold, Hro.
  - by rewrite handleCompact_unfold, Hro.
  - by rewrite handleSort_unfold, Hro.
  - by rewrite handleTransform_unfold, Hro.
  - by rewrite handleRepair_unfold, Hro.
Qed.


(** *** Errors *)

Lemma reportError_throw err s e s' :
  reportError err s = (Throw e, s') -> onError s err = Some e.
Proof.
  rewrite reportError_unfold. destruct (onError s err); simpl; [|done].
  by intros [= -> _].
Qed.

Lemma after_emitOnChange_throw t p s e s' :
  match emitOnChange t p s with
  | (Ret _, s2) => (Ret tt, s2)
  | (Throw err, s2) => reportError err s2
  end = (Throw e, s') ->
  exists err, onError s err = Some e.
Proof.
  destruct (emitOnChange t p s) as [[[]|err] s2] eqn:He; [done|].
  intros Hr. apply reportError_throw in Hr. exists err.
  rewrite <- Hr. change s2 with (snd (Throw (A:=unit) err, s2)).
  rewrite <- He. symmetry. by rewrite emitOnChange_onError.
Qed.

Lemma run_throw c s e s' :
  run c s = (Throw e, s') -> exists err, onError s err = Some e.
Proof.
  destruct c; simpl.
  - rewrite handleFormat_unfold. destruct (readOnly s); [done|].
    destruct (JSON_parse (text s)) as [json|err].
    + simpl. destruct (String.eqb _ _); [done|].
      intros Hr. by apply after_emitOnChange_throw in Hr.
    + intros Hr. apply reportError_throw in Hr. eauto.
  - rewrite handleCompact_unfold. destruct (readOnly s); [done|].
    destruct (JSON_parse (text s)) as [json|err].
    + simpl. destruct (String.eqb _ _); [done|].
      intros Hr. by apply after_emitOnChange_throw in Hr.
    + intros Hr. apply reportError_throw in Hr. eauto.
  - rewrite handleSort_unfold. destruct (readOnly s); [done|].
    destruct (JSON_parse (text s)) as [json|err].
    + simpl. destruct (onSortModal s _) as [err|]; [|done].
      intros Hr. apply reportError_throw in Hr. eauto.
    + intros Hr. apply reportError_throw in Hr. eauto.
  - rewrite handleTransform_unfold. destruct (readOnly s); [done|].
    destruct (JSON_parse (text s)) as [json|err].
    + simpl. destruct (onTransformModal s _) as [err|]; [|done].
      intros Hr. apply reportError_throw in Hr. eauto.
    + intros Hr. apply reportError_throw in Hr. eauto.
  - rewrite handleRepair_unfold. destruct (readOnly s); [done|].
    destruct (jsonrepair (text s)) as [repaired|err].
    + simpl. destruct (String.eqb _ _); [done|].
      intros Hr. by apply after_emitOnChange_throw in Hr.
    + intros Hr. apply reportError_throw in Hr. eauto.
Qed.

Lemma validate_throw s e s' :
  validate s = (Throw e, s') ->
  exists callback ev, onChange s = Some callback /\ callback ev = Some e.
Proof.
  rewrite validate_unfold. destruct (flush s) as [[[]|e1] s1] eqn:Hf; [done|].
  intros [= -> ->]. by eapply flush_throw.
Qed.

Lemma linterCallback_unfold s :
  linterCallback s =
  match validate s with
  | (Ret contentErrors, s') =>
      (Ret match contentErrors with
           | ContentParseError parseError isRepairable =>
               [toDiagnostic (toRichParseError s' parseError isRepairable)]
           | ContentValidationErrors validationErrors =>
               map toDiagnostic (map (toRichValidationError s') validationErrors)
           end, s')
  | (Throw e, s') => (Throw e, s')
  end.
Proof.
  unfold linterCallback. unfold bind at 1.
  destruct (validate s) as [[r|e] s']; [|done].
  unfold bind, get, ret. by destruct r.
Qed.



(** *** [patch] *)

Lemma patch_unfold operations s :
  patch operations s =
  match JSON_parse (text s) with
  | Ret previousJson =>
      match JSONPatch.immutableJSONPatch previousJson operations with
      | Some updatedJson =>
          let result :=
            {| json := updatedJson;
               previousJson := previousJson;
               undo := JSONPatch.revertJSONPatch previousJson operations;
               redo := operations |} in
          let updated := JSON_stringify updatedJson (Some (indentation s)) in
          if String.eqb updated (text s) then (Ret result, set_text updated s)
          else match emitOnChange updated (text s) (set_text updated s) with
               | (Ret _, s2) => (Ret result, s2)
               | (Throw err, s2) => (Throw err, s2)
               end
      | None => (Throw patchError, s)
      end
  | Throw err => (Throw err, s)
  end.
Proof.
  unfold patch. unfold bind, get, lift, modify, ret, throw.
  destruct (JSON_parse (text s)) as [previousJson|err]; [|done].
  destruct (JSONPatch.immutableJSONPatch _ _) as [updatedJson|]; [|done]. simpl.
  destruct (String.eqb _ _); [done|]. simpl.
  by destruct (emitOnChange _ _ _) as [[[]|err] s2].
Qed.



(** *** [Format] twice *)

Lemma changes_app tr1 tr2 : changes (tr1 ++ tr2) = changes tr1 ++ changes tr2.
Proof.
  induction tr1 as [|ev tr1 IH]; [done|].
  destruct ev; simpl; by rewrite ?IH.
Qed.



(** *** The update from the widget *)

Lemma validated_onChangeDisabled s :
  onChangeDisabled (snd (validated s)) = onChangeDisabled s.
Proof. by validated_cases s. Qed.

Lemma emitted_onChangeDisabled t p s :
  onChangeDisabled (snd (emitted t p s)) = onChangeDisabled s.
Proof.
  unfold emitted. destruct (onChange s); [|done]. simpl.
  apply validated_onChangeDisabled.
Qed.

Lemma emitted_changes t p s callback :
  onChange s = Some callback ->
  changes (trace (snd (emitted t p s))) =
  changes (trace s) ++ [changeEvent t p (fst (validated s))].
Proof.
  intros Hc. unfold emitted. rewrite Hc. simpl.
  by rewrite changes_app, validated_trace.
Qed.

Lemma timerExpired_unfold s :
  timerExpired s =
  if debouncePending s then onChangeCodeMirrorValue (set_debouncePending false s)
  else (Ret tt, s).
Proof.
  unfold timerExpired. unfold bind, get, modify, ret.
  by destruct (debouncePending s).
Qed.

Lemma onChangeCodeMirrorValue_applies s view :
  debouncePending s = false ->
  onChangeDisabled s = false ->
  codeMirrorView s = Some view ->
  getCodeMirrorValue s <> text s ->
  onChangeCodeMirrorValue s =
  emitted (getCodeMirrorValue s) (getCodeMirrorValue s)
    (applied (getCodeMirrorValue s) view s).
Proof.
  intros Hp Hd Hv Hneq. unfold onChangeCodeMirrorValue.
  rewrite Body_onChangeCodeMirrorValue_unfold, Hd, Hv. simpl.
  apply String.eqb_neq in Hneq. rewrite Hneq.
  by apply emitOnChange_idle.
Qed.

Lemma flush_throw_consistent s e :
  fst (flush s) = Throw e -> consistent (snd (flush s)).
Proof.
  rewrite flush_unfold. destruct (debouncePending s); [|done]. cbv zeta.
  destruct (onChangeDisabled s); [done|].
  destruct (codeMirrorView s) as [view|]; [|done].
  destruct (String.eqb _ _); [done|]. apply emitted_consistent.
Qed.

(** ** The claims of the specification *)

(** C1 (what the code does).  When the timer of the debounce expires and
    the update applies (the unescaped text of the widget differs from the
    canonical text), exactly one change event is emitted and the canonical
    text becomes the text of the widget.  Its [current.text] is the text of
    the widget after the last edit; its [previous.text] is that same text,
    not the canonical text as it was before the update: [previousText] is
    read from [codeMirrorText] after the widget was read. *)
Theorem debounced_update_event s view callback :
  debouncePending s = true ->
  onChangeDisabled s = false ->
  codeMirrorView s = Some view ->
  onChange s = Some callback ->
  getCodeMirrorValue s <> text s ->
  exists contentErrors,
    changes (trace (snd (timerExpired s))) =
    changes (trace s)
    ++ [changeEvent (getCodeMirrorValue s) (getCodeMirrorValue s) contentErrors]
    /\ text (snd (timerExpired s)) = getCodeMirrorValue s
    /\ previous_text
         (changeEvent (getCodeMirrorValue s) (getCodeMirrorValue s) contentErrors)
       <> text s.
Proof.
  intros Hp Hd Hv Hc Hneq. rewrite timerExpired_unfold, Hp.
  rewrite (onChangeCodeMirrorValue_applies _ view) by done.
  change (getCodeMirrorValue (set_debouncePending false s))
    with (getCodeMirrorValue s).
  eexists. split; [|split].
  - by rewrite (emitted_changes _ _ _ callback).
  - by rewrite emitted_text.
  - done.
Qed.

(** C2 (amended).  On a read-only document each of the commands Format,
    Compact, Sort and Transform (and Repair) returns at once: the state is
    unchanged, so the canonical text is unchanged and nothing is emitted. *)
Theorem readOnly_commands_refuse s c :
  readOnly s = true ->
  run c s = (Ret tt, s)
  /\ text (snd (run c s)) = text s
  /\ trace (snd (run c s)) = trace s.
Proof.
  intros Hro. rewrite (run_readOnly _ _ Hro). by repeat split.
Qed.

(** C3 (what the code does).  Format runs on a writable document while an
    update from the widget is scheduled.  The emission of the change event
    of Format validates first, the validation flushes the scheduled update,
    and the update is not suppressed: it enters the update path, replaces
    the canonical text by the text of the widget and emits a change event of
    its own.  Two change events leave the same synchronous run, and
    [onChangeDisabled] is [false] all along. *)
Theorem format_reenters_update s view callback json :
  readOnly s = false ->
  debouncePending s = true ->
  onChangeDisabled s = false ->
  codeMirrorView s = Some view ->
  onChange s = Some callback ->
  (forall ev, callback ev = None) ->
  JSON_parse (text s) = Ret json ->
  JSON_stringify json (Some (indentation s)) <> text s ->
  getCodeMirrorValue s <> JSON_stringify json (Some (indentation s)) ->
  let formatted := JSON_stringify json (Some (indentation s)) in
  let value := getCodeMirrorValue s in
  exists contentErrors1 contentErrors2,
    changes (trace (snd (handleFormat s))) =
    changes (trace s)
    ++ [changeEvent value value contentErrors1;
        changeEvent formatted (text s) contentErrors2]
    /\ text (snd (handleFormat s)) = value
    /\ onChangeDisabled (snd (handleFormat s)) = false.
Proof.
  intros Hro Hp Hd Hv Hc Hret Hparse Hneq Hwidget formatted value.
  rewrite handleFormat_unfold, Hro, Hparse. simpl. fold formatted.
  apply String.eqb_neq in Hneq. fold formatted in Hneq. rewrite Hneq.
  rewrite emitOnChange_unfold. simpl. rewrite Hc.
  rewrite flush_unfold. simpl. rewrite Hp, Hd, Hv. simpl.
  change (getCodeMirrorValue (set_text formatted s)) with value.
  apply String.eqb_neq in Hwidget. fold value formatted in Hwidget.
  rewrite Hwidget.
  set (s1 := applied value view (set_debouncePending false (set_text formatted s))).
  assert (Hc1 : onChange s1 = Some callback) by done.
  assert (He1 : fst (emitted value value s1) = Ret tt).
  { unfold emitted. rewrite Hc1. simpl. by rewrite Hret. }
  destruct (emitted value value s1) as [o1 s2] eqn:E1. simpl in He1. subst o1.
  assert (Hc2 : onChange s2 = Some callback).
  { change s2 with (snd (Ret tt, s2)). rewrite <- E1. by rewrite emitted_onChange. }
  assert (He2 : fst (emitted formatted (text s) s2) = Ret tt).
  { unfold emitted. rewrite Hc2. simpl. by rewrite Hret. }
  destruct (emitted formatted (text s) s2) as [o2 s3] eqn:E2.
  simpl in He2. subst o2. simpl.
  exists (fst (validated s1)), (fst (validated s2)).
  change s3 with (snd (Ret tt, s3)). rewrite <- E2.
  rewrite (emitted_changes _ _ _ _ Hc2), emitted_text, emitted_onChangeDisabled.
  change s2 with (snd (Ret tt, s2)). rewrite <- E1.
  rewrite (emitted_changes _ _ _ _ Hc1), emitted_text, emitted_onChangeDisabled.
  by rewrite <- app_assoc.
Qed.

(** C4.  When the current text parses to [v] and the patch document applies
    to [v], [patch] returns [v] itself as [previousJson], the patched value
    as [json], and as [undo] the inverse patch computed from the value
    before the patch; applying [undo] to the patched value gives back [v].
    What [patch] throws in that case is what the change handler threw. *)
Theorem patch_undo_restores s operations v v' :
  JSON_parse (text s) = Ret v ->
  JSONPatch.immutableJSONPatch v operations = Some v' ->
  (forall result s',
      patch operations s = (Ret result, s') ->
      previousJson result = v
      /\ json result = v'
      /\ undo result = JSONPatch.revertJSONPatch v operations
      /\ redo result = operations)
  /\ JSONPatch.immutableJSONPatch v' (JSONPatch.revertJSONPatch v operations)
     = Some v
  /\ (forall e s',
        patch operations s = (Throw e, s') ->
        exists callback ev, onChange s = Some callback /\ callback ev = Some e).
Proof.
  intros Hparse Happly. rewrite patch_unfold, Hparse, Happly. simpl.
  split; [|split].
  - intros result s'. destruct (String.eqb _ _).
    + by intros [= <- _].
    + destruct (emitOnChange _ _ _) as [[[]|err] s2]; [|done]. by intros [= <- _].
  - by apply JSONPatchFacts.revertJSONPatch_correct.
  - intros e s'. destruct (String.eqb _ _); [done|].
    destruct (emitOnChange _ _ _) as [[[]|err] s2] eqn:He; [done|].
    intros [= -> ->]. by apply emitOnChange_throw in He.
Qed.

(** C5.  [validate] twice in a row: the second call returns the result of
    the first and leaves the state, the count of runs of [validateText]
    included, as it is; the first call runs [validateText] at most once.
    When the remembered pair differs from the current (text, validator) in
    either component, [validate] runs [validateText] once more, and the
    current pair replaces the remembered one: the cache holds one pair. *)
Theorem validate_memoized_once s :
  (forall r1 s1,
      validate s = (Ret r1, s1) ->
      validate s1 = (Ret r1, s1)
      /\ validateTextCalls s1 <= S (validateTextCalls s))
  /\ (debouncePending s = false ->
      forall lastText lastValidator lastResult,
        memoized s = Some (lastText, lastValidator, lastResult) ->
        lastText <> text s \/ same_validator lastValidator (validator s) = false ->
        exists s1,
          validate s = (Ret (validateText (text s) (validator s)), s1)
          /\ validateTextCalls s1 = S (validateTextCalls s)
          /\ memoized s1 =
             Some (text s, validator s, validateText (text s) (validator s))).
Proof.
  split.
  - intros r1 s1. rewrite validate_unfold.
    destruct (flush s) as [[[]|e] sf] eqn:Hf; [|done]. intros [= <- <-].
    split.
    + rewrite validate_idle.
      * by rewrite validated_idem.
      * rewrite validated_pending. change sf with (snd (Ret tt, sf)).
        rewrite <- Hf. apply flush_pending_false.
    + change sf with (snd (Ret tt, sf)). rewrite <- Hf. apply flush_calls.
  - intros Hp lt lv lr Hm Hdiff.
    assert (Hr : remembered (text s) (validator s) s = None).
    { unfold remembered. rewrite Hm.
      destruct Hdiff as [Ht|Hv].
      - apply String.eqb_neq in Ht. by rewrite Ht.
      - rewrite Hv. by rewrite andb_false_r. }
    rewrite (validate_idle _ Hp), (validated_memoized_fresh _ Hr).
    eexists. split; [reflexivity|].
    by destruct (validateText (text s) (validator s)).
Qed.

(** C7.  [validate] flushes first: after the flush no update is scheduled,
    and when one was scheduled (on a mounted view) the canonical text is the
    unescaped text of the widget.  The outcome that [validate] returns is
    computed for the text after the flush; when the flush throws (the change
    handler of the flushed update threw), no outcome is computed. *)
Theorem validate_flushes_first s :
  let sf := snd (flush s) in
  debouncePending sf = false
  /\ (debouncePending s = true ->
      onChangeDisabled s = false ->
      defined (codeMirrorView s) = true ->
      text sf = getCodeMirrorValue s)
  /\ (forall r s',
        validate s = (Ret r, s') ->
        text s' = text sf
        /\ (coherent s -> r = validateText (text sf) (validator s)))
  /\ (forall e s', validate s = (Throw e, s') -> flush s = (Throw e, s')).
Proof.
  intros sf. split; [apply flush_pending_false|].
  split; [apply flush_text_latest|].
  split.
  - intros r s'. rewrite validate_unfold. subst sf.
    destruct (flush s) as [[[]|e] s1] eqn:Hf; [|done]. intros [= <- <-]. simpl.
    split; [apply validated_text|].
    intros Hc. rewrite validated_result.
    + f_equal. change s1 with (snd (Ret tt, s1)). rewrite <- Hf.
      apply flush_validator.
    + change s1 with (snd (Ret tt, s1)). rewrite <- Hf. exact (flush_coherent _ Hc).
  - intros e s'. rewrite validate_unfold.
    destruct (flush s) as [[[]|e'] s1]; [discriminate|by intros [= -> ->]].
Qed.

(** C9.  After every call of [validate], whether it returns or throws,
    exactly one outcome is recorded: a parse error ([jsonParseError] holds
    it, [jsonStatus] is repairable or invalid, [validationErrors] is empty),
    or no parse error ([jsonParseError] is [null], [jsonStatus] is valid).
    When [validate] returns, the recorded outcome is the returned one. *)
Theorem validate_outcome_consistent s :
  consistent (snd (validate s))
  /\ match fst (validate s) with
     | Ret contentErrors =>
         recordOutcome contentErrors (snd (validate s)) = snd (validate s)
     | Throw _ => True
     end.
Proof.
  rewrite validate_unfold.
  destruct (flush s) as [[[]|e] s1] eqn:Hf.
  - cbn [fst snd]. split; [apply validated_consistent|].
    unfold validated. destruct (remembered _ _ _); apply recordOutcome_idem.
  - cbn [fst snd]. split; [|done].
    change s1 with (snd (Throw (A:=unit) e, s1)). rewrite <- Hf.
    apply (flush_throw_consistent s e). by rewrite Hf.
Qed.

(** C10.  [patch] has no read-only check.  On a read-only document whose
    text parses, with a patch that applies and changes the text, a change
    handler registered and no update from the widget scheduled, [patch]
    assigns the new text and emits one change event from the previous text
    to the new one, while every command of the menu returns at once. *)
Theorem patch_ignores_readOnly s operations v v' callback :
  readOnly s = true ->
  JSON_parse (text s) = Ret v ->
  JSONPatch.immutableJSONPatch v operations = Some v' ->
  JSON_stringify v' (Some (indentation s)) <> text s ->
  onChange s = Some callback ->
  debouncePending s = false ->
  let updated := JSON_stringify v' (Some (indentation s)) in
  text (snd (patch operations s)) = updated
  /\ (exists contentErrors,
        trace (snd (patch operations s)) =
        trace s ++ [EvChange (changeEvent updated (text s) contentErrors)])
  /\ (forall c, run c s = (Ret tt, s)).
Proof.
  intros Hro Hparse Happly Hneq Hcb Hp updated.
  rewrite patch_unfold, Hparse, Happly. simpl. fold updated.
  apply String.eqb_neq in Hneq. fold updated in Hneq. rewrite Hneq.
  rewrite emitOnChange_idle by done.
  unfold emitted. simpl. rewrite Hcb. simpl.
  split; [|split].
  - by destruct (callback _); simpl; rewrite validated_text.
  - eexists. by destruct (callback _); simpl; rewrite validated_trace.
  - intros c. by apply run_readOnly.
Qed.

End Facts.

(** ** The claims on concrete documents *)

Section Concrete.
Import Scenario.
#[local] Existing Instance Scenario.platform.

(** C1: three edits within the delay, then the timer: one change event,
    whose [previous.text] is the new text and not the text before the
    edits. *)
Lemma debounced_update_event_witness :
  let s := tasks typing beforeTyping in
  let view := {| doc := "[1,2]"; undoDepth := 3; redoDepth := 0 |} in
  (debouncePending s = true
   /\ onChangeDisabled s = false
   /\ codeMirrorView s = Some view
   /\ onChange s = Some listener
   /\ getCodeMirrorValue s <> text s)
  /\ exists contentErrors,
       changes (trace (snd (timerExpired s))) =
       changes (trace s)
       ++ [changeEvent (getCodeMirrorValue s) (getCodeMirrorValue s) contentErrors]
       /\ text (snd (timerExpired s)) = getCodeMirrorValue s
       /\ previous_text
            (changeEvent (getCodeMirrorValue s) (getCodeMirrorValue s) contentErrors)
          <> text s.
Proof.
  intros s view.
  assert (Hp : debouncePending s = true) by (vm_compute; reflexivity).
  assert (Hd : onChangeDisabled s = false) by (vm_compute; reflexivity).
  assert (Hv : codeMirrorView s = Some view) by (vm_compute; reflexivity).
  assert (Hc : onChange s = Some listener) by (vm_compute; reflexivity).
  assert (Hneq : getCodeMirrorValue s <> text s)
    by (intros Heq; vm_compute in Heq; discriminate).
  split; [repeat split; assumption|].
  exact (debounced_update_event s view listener Hp Hd Hv Hc Hneq).
Defined.

Example debounced_update_event_values :
  text (tasks typing beforeTyping) = "[1]"
  /\ changes (trace afterTyping)
     = [changeEvent "[1,2]" "[1,2]" (ContentValidationErrors [])]
  /\ text afterTyping = "[1,2]".
Proof. vm_compute. repeat split; reflexivity. Qed.

(** C2, as stated, fails: Format runs on a writable document that is larger
    than the threshold and was not accepted. *)
Lemma oversized_format_runs :
  (readOnly oversized = true \/ textEditorDisabled oversized = true)
  /\ ~ (text (snd (run Format oversized)) = text oversized
        /\ changes (trace (snd (run Format oversized)))
           = changes (trace oversized)).
Proof.
  split; [right; vm_compute; reflexivity|].
  intros [Ht _]. vm_compute in Ht. discriminate.
Qed.

Lemma readOnly_commands_refuse_witness :
  readOnly locked = true
  /\ (run Format locked = (Ret tt, locked)
      /\ text (snd (run Format locked)) = text locked
      /\ trace (snd (run Format locked)) = trace locked).
Proof.
  assert (Hro : readOnly locked = true) by (vm_compute; reflexivity).
  split; [exact Hro|].
  exact (readOnly_commands_refuse locked Format Hro).
Defined.

(** C3: the user types and runs Format before the timer expires. *)
Lemma format_reenters_update_witness :
  let s := beforeFormat in
  let view := {| doc := "[1, 2, 3]"; undoDepth := 1; redoDepth := 0 |} in
  let json := JArray [JNumber 1; JNumber 2] in
  (readOnly s = false
   /\ debouncePending s = true
   /\ onChangeDisabled s = false
   /\ codeMirrorView s = Some view
   /\ onChange s = Some listener
   /\ JSON_parse (text s) = Ret json
   /\ JSON_stringify json (Some (indentation s)) <> text s
   /\ getCodeMirrorValue s <> JSON_stringify json (Some (indentation s)))
  /\ exists contentErrors1 contentErrors2,
       changes (trace (snd (handleFormat s))) =
       changes (trace s)
       ++ [changeEvent (getCodeMirrorValue s) (getCodeMirrorValue s) contentErrors1;
           changeEvent (JSON_stringify json (Some (indentation s))) (text s)
             contentErrors2]
       /\ text (snd (handleFormat s)) = getCodeMirrorValue s
       /\ onChangeDisabled (snd (handleFormat s)) = false.
Proof.
  intros s view json.
  assert (Hro : readOnly s = false) by (vm_compute; reflexivity).
  assert (Hp : debouncePending s = true) by (vm_compute; reflexivity).
  assert (Hd : onChangeDisabled s = false) by (vm_compute; reflexivity).
  assert (Hv : codeMirrorView s = Some view) by (vm_compute; reflexivity).
  assert (Hc : onChange s = Some listener) by (vm_compute; reflexivity).
  assert (Hparse : JSON_parse (text s) = Ret json) by (vm_compute; reflexivity).
  assert (Hneq : JSON_stringify json (Some (indentation s)) <> text s)
    by (intros Heq; vm_compute in Heq; discriminate).
  assert (Hwidget : getCodeMirrorValue s <> JSON_stringify json (Some (indentation s)))
    by (intros Heq; vm_compute in Heq; discriminate).
  split; [repeat split; assumption|].
  exact (format_reenters_update s view listener json Hro Hp Hd Hv Hc
           (fun _ => eq_refl) Hparse Hneq Hwidget).
Defined.

Example format_reenters_update_values :
  text beforeFormat = "[1, 2]"
  /\ changes (trace afterFormat)
     = [changeEvent "[1, 2, 3]" "[1, 2, 3]" (ContentValidationErrors []);
        changeEvent
          (JSON_stringify (JArray [JNumber 1; JNumber 2]) (Some (IndentNumber 2)))
          "[1, 2]" (ContentValidationErrors [])]
  /\ text afterFormat = "[1, 2, 3]".
Proof. vm_compute. repeat split; reflexivity. Qed.

(** C4: replacing the member [a] of the object by 2, and back. *)
Lemma patch_undo_restores_witness :
  let v := JObject {[ "a" := JNumber 1 ]} in
  let v' := JObject {[ "a" := JNumber 2 ]} in
  (JSON_parse (text object) = Ret v
   /\ JSONPatch.immutableJSONPatch v replaceA = Some v')
  /\ JSONPatch.immutableJSONPatch v' (JSONPatch.revertJSONPatch v replaceA)
     = Some v.
Proof.
  intros v v'.
  assert (Hparse : JSON_parse (text object) = Ret v) by (vm_compute; reflexivity).
  assert (Happly : JSONPatch.immutableJSONPatch v replaceA = Some v')
    by (vm_compute; reflexivity).
  split; [split; assumption|].
  exact (proj1 (proj2 (patch_undo_restores object replaceA v v' Hparse Happly))).
Defined.

(** C5: validating twice; validating after the text was assigned anew. *)
Lemma validate_memoized_once_witness :
  let s := beforeTyping in
  let r := ContentValidationErrors [] in
  let s1 := snd (validate s) in
  (validate s = (Ret r, s1)
   /\ debouncePending reassigned = false
   /\ memoized reassigned = Some ("[1]", None, r)
   /\ "[1]" <> text reassigned)
  /\ (validate s1 = (Ret r, s1)
      /\ validateTextCalls s1 <= S (validateTextCalls s))
  /\ exists s2,
       validate reassigned =
       (Ret (validateText (text reassigned) (validator reassigned)), s2)
       /\ validateTextCalls s2 = S (validateTextCalls reassigned)
       /\ memoized s2 =
          Some (text reassigned, validator reassigned,
                validateText (text reassigned) (validator reassigned)).
Proof.
  intros s r s1.
  assert (Hv : validate s = (Ret r, s1)) by (vm_compute; reflexivity).
  assert (Hp : debouncePending reassigned = false) by (vm_compute; reflexivity).
  assert (Hm : memoized reassigned = Some ("[1]", None, r))
    by (vm_compute; reflexivity).
  assert (Hneq : "[1]" <> text reassigned)
    by (intros Heq; vm_compute in Heq; discriminate).
  split; [repeat split; assumption|].
  split.
  - exact (proj1 (validate_memoized_once s) r s1 Hv).
  - exact (proj2 (validate_memoized_once reassigned) Hp "[1]" None r Hm
             (or_introl Hneq)).
Defined.


(** C7: validating while the edits of the user are still scheduled. *)
Lemma validate_flushes_first_witness :
  let s := tasks typing beforeTyping in
  (debouncePending s = true
   /\ onChangeDisabled s = false
   /\ defined (codeMirrorView s) = true)
  /\ text (snd (flush s)) = getCodeMirrorValue s.
Proof.
  intros s.
  assert (Hp : debouncePending s = true) by (vm_compute; reflexivity).
  assert (Hd : onChangeDisabled s = false) by (vm_compute; reflexivity).
  assert (Hv : defined (codeMirrorView s) = true) by (vm_compute; reflexivity).
  split; [repeat split; assumption|].
  exact (proj1 (proj2 (validate_flushes_first s)) Hp Hd Hv).
Defined.

(** C10: the patch of the example on the read-only object. *)
Lemma patch_ignores_readOnly_witness :
  let s := lockedObject in
  let v := JObject {[ "a" := JNumber 1 ]} in
  let v' := JObject {[ "a" := JNumber 2 ]} in
  let updated := JSON_stringify v' (Some (indentation s)) in
  (readOnly s = true
   /\ JSON_parse (text s) = Ret v
   /\ JSONPatch.immutableJSONPatch v replaceA = Some v'
   /\ updated <> text s
   /\ onChange s = Some listener
   /\ debouncePending s = false)
  /\ text (snd (patch replaceA s)) = updated
  /\ (exists contentErrors,
        trace (snd (patch replaceA s)) =
        trace s ++ [EvChange (changeEvent updated (text s) contentErrors)])
  /\ (forall c, run c s = (Ret tt, s)).
Proof.
  intros s v v' updated.
  assert (Hro : readOnly s = true) by (vm_compute; reflexivity).
  assert (Hparse : JSON_parse (text s) = Ret v) by (vm_compute; reflexivity).
  assert (Happly : JSONPatch.immutableJSONPatch v replaceA = Some v')
    by (vm_compute; reflexivity).
  assert (Hneq : updated <> text s)
    by (intros Heq; vm_compute in Heq; discriminate).
  assert (Hc : onChange s = Some listener) by (vm_compute; reflexivity).
  assert (Hp : debouncePending s = false) by (vm_compute; reflexivity).
  split; [repeat split; assumption|].
  exact (patch_ignores_readOnly s replaceA v v' listener Hro Hparse Happly Hneq Hc Hp).
Defined.

End Concrete.

(** ** The reference printer and parser

    [Reference.parse] reads back what [Reference.stringify] prints with a
    gap of white space. *)

Module ReferenceFacts.
Import Reference.

Lemma append_cons c (a b : string) : String c a +:+ b = String c (a +:+ b).
Proof. reflexivity. Qed.

Lemma append_empty_l (a : string) : "" +:+ a = a.
Proof. reflexivity. Qed.

Lemma append_assoc' (a b c : string) : (a +:+ b) +:+ c = a +:+ (b +:+ c).
Proof.
  induction a as [|x a IH]; [done|]. by rewrite !append_cons, IH.
Qed.

Lemma append_empty_r (a : string) : a +:+ "" = a.
Proof. induction a as [|x a IH]; [done|]. by rewrite append_cons, IH. Qed.

Lemma length_append' (a b : string) :
  String.length (a +:+ b) = String.length a + String.length b.
Proof.
  induction a as [|x a IH]; [done|]. rewrite append_cons. simpl. by rewrite IH.
Qed.

(** *** White space *)

Lemma isWhitespaceString_append a b :
  isWhitespaceString (a +:+ b) = isWhitespaceString a && isWhitespaceString b.
Proof.
  induction a as [|x a IH]; [done|].
  rewrite append_cons. simpl. by rewrite IH, andb_assoc.
Qed.

Lemma skipWhitespace_append ws s :
  isWhitespaceString ws = true -> skipWhitespace (ws +:+ s) = skipWhitespace s.
Proof.
  induction ws as [|c ws IH]; [done|]. rewrite append_cons. simpl.
  intros [Hc Hws]%andb_prop. rewrite Hc. by apply IH.
Qed.

Lemma skipWhitespace_solid c s :
  isWhitespace c = false -> skipWhitespace (String c s) = String c s.
Proof. intros Hc. simpl. by rewrite Hc. Qed.

Lemma isWhitespaceString_spaces n : isWhitespaceString (spaces n) = true.
Proof. unfold spaces. induction n as [|n IH]; simpl; [done|exact IH]. Qed.

Lemma isWhitespaceString_substring n m s :
  isWhitespaceString s = true ->
  isWhitespaceString (String.substring n m s) = true.
Proof.
  revert n m. induction s as [|c s IH]; intros n m Hs.
  - by destruct n, m.
  - simpl in Hs. apply andb_prop in Hs as [Hc Hs].
    destruct n as [|n]; simpl.
    + destruct m as [|m]; [done|]. simpl. rewrite Hc. by apply IH.
    + by apply IH.
Qed.

(** *** Numbers *)

Lemma digitValue_pretty_N_char x :
  (x < 10)%N -> digitValue (pretty_N_char x) = Some (N.to_nat x).
Proof.
  intros Hx.
  assert (Hcases : In x [0; 1; 2; 3; 4; 5; 6; 7; 8; 9]%N).
  { simpl. lia. }
  simpl in Hcases.
  destruct Hcases as [<-|[<-|[<-|[<-|[<-|[<-|[<-|[<-|[<-|[<-|[]]]]]]]]]]];
    reflexivity.
Qed.

Lemma pretty_N_go_append x s t :
  pretty_N_go x s +:+ t = pretty_N_go x (s +:+ t).
Proof.
  revert s. induction (N.lt_wf_0 x) as [x _ IH]; intros s.
  destruct (decide (0 < x)%N) as [Hx|Hx].
  - rewrite !(pretty_N_go_step x) by done.
    rewrite IH; [done|]. apply N.div_lt; lia.
  - assert (x = 0%N) as -> by lia. by rewrite !pretty_N_go_0.
Qed.

Lemma digitsValue_snoc ds d :
  digitsValue (ds ++ [d]) = (10 * digitsValue ds + Z.of_nat d)%Z.
Proof. unfold digitsValue. by rewrite fold_left_app. Qed.

Lemma takeDigits_pretty_N_go x s ds rest :
  takeDigits s = (ds, rest) ->
  exists ds0,
    takeDigits (pretty_N_go x s) = (ds0 ++ ds, rest)
    /\ digitsValue ds0 = Z.of_N x
    /\ (x = 0%N -> ds0 = [])
    /\ ((0 < x)%N -> exists d ds', ds0 = d :: ds' /\ d <> 0).
Proof.
  revert s ds. induction (N.lt_wf_0 x) as [x _ IH]; intros s ds Hs.
  destruct (decide (0 < x)%N) as [Hx|Hx].
  - rewrite pretty_N_go_step by done.
    assert (Hd : (x `mod` 10 < 10)%N) by (apply N.mod_lt; lia).
    destruct (IH (x `div` 10)%N) with
      (s := String (pretty_N_char (x `mod` 10)) s)
      (ds := N.to_nat (x `mod` 10) :: ds)
      as (ds1&Ht&Hval&Hzero&Hpos).
    { apply N.div_lt; lia. }
    { simpl. by rewrite (digitValue_pretty_N_char _ Hd), Hs. }
    exists (ds1 ++ [N.to_nat (x `mod` 10)]). split; [|split; [|split]].
    + by rewrite <- app_assoc.
    + rewrite digitsValue_snoc, Hval, N_nat_Z.
      assert (x = 10 * (x `div` 10) + x `mod` 10)%N
        by (apply N.div_mod; lia).
      lia.
    + intros ->. lia.
    + intros _. destruct (N.eq_0_gt_0_cases (x `div` 10)) as [Hq0|Hq].
      * rewrite (Hzero Hq0). eexists _, []. split; [done|].
        apply N.div_small_iff in Hq0; [|done].
        rewrite N.mod_small by done. lia.
      * destruct (Hpos Hq) as (d&ds'&->&Hd0).
        by exists d, (ds' ++ [N.to_nat (x `mod` 10)]).
  - assert (x = 0%N) as -> by lia. rewrite pretty_N_go_0.
    exists []. by repeat split; [..|lia].
Qed.

Lemma takeDigits_delimited rest :
  delimited rest = true -> takeDigits rest = ([], rest).
Proof.
  destruct rest as [|c rest]; [done|]. simpl.
  by destruct (digitValue c).
Qed.

Lemma takeDigits_head s d ds rest :
  takeDigits s = (d :: ds, rest) ->
  exists c tail, s = String c tail /\ digitValue c = Some d.
Proof.
  destruct s as [|c tail]; [done|]. simpl.
  destruct (digitValue c) as [d'|] eqn:Hc; [|done].
  destruct (takeDigits tail). intros [= <- _ _]. by exists c, tail.
Qed.

Lemma digitValue_bounds c d :
  digitValue c = Some d -> 48 <= nat_of_ascii c <= 57.
Proof.
  unfold digitValue.
  destruct (Nat.leb_spec 48 (nat_of_ascii c)), (Nat.leb_spec (nat_of_ascii c) 57);
    simpl; intros ?; first [done|lia].
Qed.

Lemma continues_delimited rest :
  delimited rest = true ->
  match rest with
  | String c _ =>
      Nat.eqb (nat_of_ascii c) 46 || Nat.eqb (nat_of_ascii c) 101
      || Nat.eqb (nat_of_ascii c) 69
  | "" => false
  end = false.
Proof.
  destruct rest as [|c rest]; [done|]. simpl.
  destruct (digitValue c); [done|]. by intros ->%negb_true_iff.
Qed.

Lemma parseDigits_positive p rest :
  delimited rest = true ->
  exists d ds,
    takeDigits (pretty (N.pos p) +:+ rest) = (d :: ds, rest)
    /\ d <> 0
    /\ digitsValue (d :: ds) = Z.pos p.
Proof.
  intros Hrest. unfold pretty, pretty_N.
  destruct (decide (N.pos p = 0%N)) as [|_]; [done|].
  rewrite pretty_N_go_append, append_empty_l.
  destruct (takeDigits_pretty_N_go (N.pos p) rest [] rest
              (takeDigits_delimited _ Hrest)) as (ds0&Ht&Hval&_&Hpos).
  destruct Hpos as (d&ds&->&Hd); [done|].
  rewrite app_nil_r in Ht. by exists d, ds.
Qed.

Lemma parseNumber_unsigned s d ds rest :
  takeDigits s = (d :: ds, rest) ->
  d <> 0 ->
  delimited rest = true ->
  parseNumber s = Some (JNumber (digitsValue (d :: ds)), rest).
Proof.
  intros Ht Hd Hrest. unfold parseNumber.
  destruct (takeDigits_head _ _ _ _ Ht) as (c&tail&->&Hc).
  pose proof (digitValue_bounds _ _ Hc) as Hb.
  destruct (Nat.eqb_spec (nat_of_ascii c) 45) as [Heq|_]; [lia|].
  rewrite Ht, (continues_delimited _ Hrest).
  destruct (Nat.eqb_spec d 0) as [|_]; [done|]. by rewrite orb_false_r.
Qed.

Lemma parseNumber_pretty n rest :
  delimited rest = true ->
  parseNumber (pretty n +:+ rest) = Some (JNumber n, rest).
Proof.
  intros Hrest. destruct n as [|p|p].
  - change (pretty 0%Z) with "0". rewrite append_cons, append_empty_l.
    unfold parseNumber.
    change (Nat.eqb (nat_of_ascii "0") 45) with false. cbv iota.
    change (takeDigits (String "0" rest))
      with (let (ds, rest') := takeDigits rest in (0 :: ds, rest')).
    rewrite (takeDigits_delimited _ Hrest), (continues_delimited _ Hrest).
    reflexivity.
  - change (pretty (Z.pos p)) with (pretty (N.pos p)).
    destruct (parseDigits_positive p rest Hrest) as (d&ds&Ht&Hd&Hval).
    by rewrite (parseNumber_unsigned _ _ _ _ Ht Hd Hrest), Hval.
  - change (pretty (Z.neg p)) with ("-" +:+ pretty (N.pos p)).
    rewrite append_assoc', append_cons, append_empty_l.
    destruct (parseDigits_positive p rest Hrest) as (d&ds&Ht&Hd&Hval).
    unfold parseNumber.
    change (Nat.eqb (nat_of_ascii "-") 45) with true. cbv iota.
    rewrite Ht, (continues_delimited _ Hrest).
    destruct (Nat.eqb_spec d 0) as [|_]; [done|].
    rewrite orb_false_r, Hval. reflexivity.
Qed.

(** The first character of a printed number: a digit or the sign. *)
Lemma pretty_head (n : Z) rest :
  exists c tail,
    pretty n +:+ rest = String c tail
    /\ (nat_of_ascii c = 45 \/ 48 <= nat_of_ascii c <= 57).
Proof.
  destruct n as [|p|p].
  - exists "0"%char, rest. split; [done|]. right.
    change (nat_of_ascii "0") with 48. lia.
  - change (pretty (Z.pos p)) with (pretty (N.pos p)).
    destruct (parseDigits_positive p "" eq_refl) as (d&ds&Ht&_&_).
    rewrite append_empty_r in Ht.
    destruct (takeDigits_head _ _ _ _ Ht) as (c&tail&->&Hc).
    exists c, (tail +:+ rest). split; [done|]. right.
    by eapply digitValue_bounds.
  - change (pretty (Z.neg p)) with ("-" +:+ pretty (N.pos p)).
    eexists _, _. split; [by rewrite append_assoc', append_cons|]. by left.
Qed.

(** *** Strings *)

Lemma parseChars_quoteChar c tail :
  parseChars (quoteChar c +:+ tail) =
  match parseChars tail with
  | Some (str, r) => Some (String c str, r)
  | None => None
  end.
Proof.
  destruct c as [[] [] [] [] [] [] [] []]; reflexivity.
Qed.

Lemma parseChars_quoteChars s rest :
  parseChars (quoteChars s +:+ String doubleQuote rest) = Some (s, rest).
Proof.
  induction s as [|c s IH]; [done|].
  change (quoteChars (String c s)) with (quoteChar c +:+ quoteChars s).
  by rewrite append_assoc', parseChars_quoteChar, IH.
Qed.

Lemma quoteJSONString_append s rest :
  quoteJSONString s +:+ rest =
  String doubleQuote (quoteChars s +:+ String doubleQuote rest).
Proof.
  unfold quoteJSONString. by rewrite append_cons, append_assoc', append_cons.
Qed.

(** *** Arrays and objects *)

Lemma isWhitespaceString_sepWS gap indent :
  isWhitespaceString indent = true -> isWhitespaceString (sepWS gap indent) = true.
Proof. unfold sepWS. by destruct (String.eqb gap ""). Qed.

Lemma join_cons sep p q qs tail :
  join sep (p :: q :: qs) +:+ tail = p +:+ sep +:+ (join sep (q :: qs) +:+ tail).
Proof.
  change (join sep (p :: q :: qs)) with (p +:+ sep +:+ join sep (q :: qs)).
  by rewrite !append_assoc'.
Qed.

Lemma wrap_nonempty opening closing gap stepback indent p partial tail :
  wrap opening closing gap stepback indent (p :: partial) +:+ tail =
  opening
  +:+ (sepWS gap indent
       +:+ (join ("," +:+ sepWS gap indent) (p :: partial)
            +:+ (sepWS gap stepback +:+ (closing +:+ tail)))).
Proof.
  unfold wrap, sepWS. destruct (String.eqb gap "").
  - rewrite !append_empty_l, !append_assoc'. reflexivity.
  - by rewrite !append_assoc'.
Qed.

Lemma serialize_array gap indent items :
  serialize gap indent (JArray items) =
  wrap "[" "]" gap indent (indent +:+ gap)
    (map (serialize gap (indent +:+ gap)) items).
Proof. reflexivity. Qed.

Lemma serialize_object gap indent props :
  serialize gap indent (JObject props) =
  wrap "{" "}" gap indent (indent +:+ gap)
    (map (entry gap (indent +:+ gap)) (map_to_list props)).
Proof.
  change (serialize gap indent (JObject props)) with
    (wrap "{" "}" gap indent (indent +:+ gap)
       (map_fold (fun k v partial =>
                    (quoteJSONString k
                     +:+ (if String.eqb gap "" then ":" else ": ")
                     +:+ serialize gap (indent +:+ gap) v) :: partial)
          [] props)).
  f_equal. rewrite map_fold_foldr.
  induction (map_to_list props) as [|[k v] l IH]; [done|].
  simpl. by rewrite IH.
Qed.

Lemma json_size_object props :
  json_size (JObject props) =
  S (foldr (fun member acc => json_size member.2 + acc) 0 (map_to_list props)).
Proof.
  simpl. f_equal. rewrite map_fold_foldr.
  induction (map_to_list props) as [|[k v] l IH]; [done|].
  simpl. by rewrite IH.
Qed.

Lemma parseValue_unfold fuel s :
  parseValue (S fuel) s =
  match skipWhitespace s with
  | "" => None
  | String c rest as s' =>
      let n := nat_of_ascii c in
      if Nat.eqb n 123 then
        match skipWhitespace rest with
        | String c' rest' =>
            if Nat.eqb (nat_of_ascii c') 125 then Some (JObject ∅, rest')
            else
              match parseMembers fuel ∅ rest with
              | Some (props, r) => Some (JObject props, r)
              | None => None
              end
        | "" => None
        end
      else if Nat.eqb n 91 then
        match skipWhitespace rest with
        | String c' rest' =>
            if Nat.eqb (nat_of_ascii c') 93 then Some (JArray [], rest')
            else
              match parseElements fuel rest with
              | Some (items, r) => Some (JArray items, r)
              | None => None
              end
        | "" => None
        end
      else if Nat.eqb n 34 then
        match parseChars rest with
        | Some (str, r) => Some (JString str, r)
        | None => None
        end
      else if Nat.eqb n 116 then parseLiteral "true" (JBool true) s'
      else if Nat.eqb n 102 then parseLiteral "false" (JBool false) s'
      else if Nat.eqb n 110 then parseLiteral "null" JNull s'
      else parseNumber s'
  end.
Proof. reflexivity. Qed.

Lemma parseElements_unfold fuel s :
  parseElements (S fuel) s =
  match parseValue fuel s with
  | Some (value, rest) =>
      match skipWhitespace rest with
      | String c rest' =>
          let n := nat_of_ascii c in
          if Nat.eqb n 44 then
            match parseElements fuel rest' with
            | Some (items, r) => Some (value :: items, r)
            | None => None
            end
          else if Nat.eqb n 93 then Some ([value], rest')
          else None
      | "" => None
      end
  | None => None
  end.
Proof. reflexivity. Qed.

Lemma parseMembers_unfold fuel props s :
  parseMembers (S fuel) props s =
  match skipWhitespace s with
  | String c rest =>
      if Nat.eqb (nat_of_ascii c) 34 then
        match parseChars rest with
        | Some (k, rest1) =>
            match skipWhitespace rest1 with
            | String c1 rest2 =>
                if Nat.eqb (nat_of_ascii c1) 58 then
                  match parseValue fuel rest2 with
                  | Some (value, rest3) =>
                      match skipWhitespace rest3 with
                      | String c3 rest4 =>
                          let n := nat_of_ascii c3 in
                          if Nat.eqb n 44 then
                            parseMembers fuel (<[k:=value]> props) rest4
                          else if Nat.eqb n 125 then
                            Some (<[k:=value]> props, rest4)
                          else None
                      | "" => None
                      end
                  | None => None
                  end
                else None
            | "" => None
            end
        | None => None
        end
      else None
  | "" => None
  end.
Proof. reflexivity. Qed.

Lemma parseValue_skip fuel ws s :
  isWhitespaceString ws = true ->
  parseValue fuel (ws +:+ s) = parseValue fuel s.
Proof.
  intros Hws. destruct fuel as [|fuel]; [done|].
  by rewrite !parseValue_unfold, skipWhitespace_append.
Qed.

Lemma json_size_pos value : 0 < json_size value.
Proof. destruct value; simpl; lia. Qed.

Lemma delimited_closing gap stepback c rest :
  isWhitespaceString stepback = true ->
  isWhitespace c = false ->
  delimited (String c rest) = true ->
  delimited (sepWS gap stepback +:+ String c rest) = true
  /\ skipWhitespace (sepWS gap stepback +:+ String c rest) = String c rest.
Proof.
  intros Hws Hc Hd. split.
  - unfold sepWS. destruct (String.eqb gap ""); [done|]. reflexivity.
  - rewrite skipWhitespace_append by by apply isWhitespaceString_sepWS.
    by apply skipWhitespace_solid.
Qed.

Lemma parseElements_reads gap items :
  Forall (readsBack gap) items ->
  items <> [] ->
  forall fuel indent stepback rest,
    2 * sizes items <= fuel ->
    isWhitespaceString indent = true ->
    isWhitespaceString stepback = true ->
    parseElements fuel
      (sepWS gap indent
       +:+ (join ("," +:+ sepWS gap indent) (map (serialize gap indent) items)
            +:+ (sepWS gap stepback +:+ String "]" rest)))
    = Some (items, rest).
Proof.
  induction 1 as [|x items Hx Hitems IH]; [done|]. intros _.
  intros fuel indent stepback rest Hfuel Hindent Hstep.
  pose proof (json_size_pos x) as Hpos.
  destruct fuel as [|fuel]; [simpl in Hfuel; lia|].
  rewrite parseElements_unfold.
  rewrite parseValue_skip by by apply isWhitespaceString_sepWS.
  destruct items as [|y items].
  - change (join _ (map _ [x])) with (serialize gap indent x).
    destruct (delimited_closing gap stepback "]" rest Hstep eq_refl eq_refl)
      as [Hd Hskip].
    rewrite (Hx fuel indent _ ltac:(simpl in Hfuel; lia) Hindent Hd).
    by rewrite Hskip.
  - change (map (serialize gap indent) (x :: y :: items))
      with (serialize gap indent x :: serialize gap indent y
            :: map (serialize gap indent) items).
    rewrite join_cons, (append_assoc' "," ), append_cons, append_empty_l.
    assert (Hf : 2 * json_size x <= S fuel) by (simpl in Hfuel; lia).
    match goal with
    | |- context [serialize gap indent x +:+ String "," ?t] =>
        rewrite (Hx fuel indent (String "," t) Hf Hindent eq_refl)
    end.
    change (skipWhitespace (String "," ?r)) with (String "," r).
    cbv beta iota zeta.
    change (Nat.eqb (nat_of_ascii ",") 44) with true. cbv iota.
    change (serialize gap indent y :: map (serialize gap indent) items)
      with (map (serialize gap indent) (y :: items)).
    rewrite (IH ltac:(done) fuel indent stepback rest); [done| |done|done].
    simpl in Hfuel |- *. lia.
Qed.

Lemma entry_append gap indent k v tail :
  entry gap indent (k, v) +:+ tail =
  String doubleQuote
    (quoteChars k
     +:+ String doubleQuote
           (String ":"
              ((if String.eqb gap "" then "" else " ")
               +:+ (serialize gap indent v +:+ tail)))).
Proof.
  unfold entry. cbn [fst snd].
  rewrite !append_assoc', quoteJSONString_append.
  by destruct (String.eqb gap "").
Qed.

Lemma parseMember gap indent k v fuel props tail :
  readsBack gap v ->
  2 * json_size v <= S fuel ->
  isWhitespaceString indent = true ->
  delimited tail = true ->
  parseMembers (S fuel) props (entry gap indent (k, v) +:+ tail) =
  match skipWhitespace tail with
  | String c3 rest4 =>
      if Nat.eqb (nat_of_ascii c3) 44 then
        parseMembers fuel (<[k:=v]> props) rest4
      else if Nat.eqb (nat_of_ascii c3) 125 then Some (<[k:=v]> props, rest4)
      else None
  | "" => None
  end.
Proof.
  intros Hv Hfuel Hindent Htail.
  rewrite parseMembers_unfold, entry_append.
  change (skipWhitespace (String doubleQuote ?r)) with (String doubleQuote r).
  cbv beta iota.
  change (Nat.eqb (nat_of_ascii doubleQuote) 34) with true. cbv iota.
  rewrite parseChars_quoteChars.
  change (skipWhitespace (String ":" ?r)) with (String ":" r).
  cbv beta iota.
  change (Nat.eqb (nat_of_ascii ":") 58) with true. cbv iota.
  rewrite parseValue_skip by (by destruct (String.eqb gap "")).
  by rewrite (Hv fuel indent tail Hfuel Hindent Htail).
Qed.

Lemma parseMembers_reads gap members :
  Forall (fun member => readsBack gap member.2) members ->
  members <> [] ->
  forall fuel props indent stepback rest,
    2 * memberSizes members <= fuel ->
    isWhitespaceString indent = true ->
    isWhitespaceString stepback = true ->
    parseMembers fuel props
      (sepWS gap indent
       +:+ (join ("," +:+ sepWS gap indent) (map (entry gap indent) members)
            +:+ (sepWS gap stepback +:+ String "}" rest)))
    = Some (insertAll members props, rest).
Proof.
  induction 1 as [|[k v] members Hv Hmembers IH]; [done|]. intros _.
  intros fuel props indent stepback rest Hfuel Hindent Hstep.
  cbn [snd] in Hv. pose proof (json_size_pos v) as Hpos.
  destruct fuel as [|fuel]; [simpl in Hfuel; lia|].
  assert (Hf : 2 * json_size v <= S fuel) by (simpl in Hfuel; lia).
  assert (Hskip : forall s,
             parseMembers (S fuel) props (sepWS gap indent +:+ s)
             = parseMembers (S fuel) props s).
  { intros s. rewrite !parseMembers_unfold.
    by rewrite skipWhitespace_append by by apply isWhitespaceString_sepWS. }
  rewrite Hskip.
  destruct members as [|[k' v'] members].
  - change (join _ (map _ [(k, v)])) with (entry gap indent (k, v)).
    destruct (delimited_closing gap stepback "}" rest Hstep eq_refl eq_refl)
      as [Hd Hclose].
    rewrite (parseMember gap indent k v fuel props _ Hv Hf Hindent Hd).
    by rewrite Hclose.
  - change (map (entry gap indent) ((k, v) :: (k', v') :: members))
      with (entry gap indent (k, v) :: entry gap indent (k', v')
            :: map (entry gap indent) members).
    rewrite join_cons, (append_assoc' ","), append_cons, append_empty_l.
    match goal with
    | |- context [entry gap indent (k, v) +:+ String "," ?t] =>
        rewrite (parseMember gap indent k v fuel props (String "," t)
                   Hv Hf Hindent eq_refl)
    end.
    change (skipWhitespace (String "," ?r)) with (String "," r).
    cbv beta iota.
    change (Nat.eqb (nat_of_ascii ",") 44) with true. cbv iota.
    change (entry gap indent (k', v') :: map (entry gap indent) members)
      with (map (entry gap indent) ((k', v') :: members)).
    rewrite (IH ltac:(done) fuel (<[k:=v]> props) indent stepback rest);
      [done| |done|done].
    simpl in Hfuel |- *. lia.
Qed.

Lemma insertAll_reverse (members : list (string * JSON)) :
  insertAll members ∅ = list_to_map (reverse members).
Proof.
  induction members as [|[k v] members IH] using rev_ind; [done|].
  unfold insertAll in *. rewrite fold_left_app, IH, reverse_snoc.
  reflexivity.
Qed.

Lemma insertAll_list_to_map (members : list (string * JSON)) :
  NoDup members.*1 -> insertAll members ∅ = list_to_map members.
Proof.
  intros Hnodup. rewrite insertAll_reverse.
  apply list_to_map_proper; [|apply reverse_Permutation].
  by rewrite fmap_reverse, reverse_Permutation.
Qed.

(** *** Values *)

Lemma solid_char c :
  nat_of_ascii c = 45 \/ 48 <= nat_of_ascii c <= 57 ->
  isWhitespace c = false
  /\ Nat.eqb (nat_of_ascii c) 123 = false
  /\ Nat.eqb (nat_of_ascii c) 91 = false
  /\ Nat.eqb (nat_of_ascii c) 34 = false
  /\ Nat.eqb (nat_of_ascii c) 116 = false
  /\ Nat.eqb (nat_of_ascii c) 102 = false
  /\ Nat.eqb (nat_of_ascii c) 110 = false
  /\ Nat.eqb (nat_of_ascii c) 93 = false.
Proof.
  intros Hc. unfold isWhitespace.
  repeat match goal with
         | |- context [Nat.eqb ?a ?b] => destruct (Nat.eqb_spec a b); [lia|]
         end.
  done.
Qed.

Lemma wrap_head o closing gap stepback indent partial tail :
  exists t,
    wrap (String o "") closing gap stepback indent partial +:+ tail = String o t.
Proof.
  destruct partial as [|p partial].
  - unfold wrap. rewrite append_assoc', append_cons. by eexists.
  - rewrite wrap_nonempty, append_cons. by eexists.
Qed.

(** The first character of a printed value is not white space and does not
    close an array. *)
Lemma serialize_head gap indent value tail :
  exists c t,
    serialize gap indent value +:+ tail = String c t
    /\ isWhitespace c = false
    /\ Nat.eqb (nat_of_ascii c) 93 = false.
Proof.
  destruct value as [|[]|n|s|items|props].
  - by exists "n"%char, ("ull" +:+ tail).
  - by exists "t"%char, ("rue" +:+ tail).
  - by exists "f"%char, ("alse" +:+ tail).
  - destruct (pretty_head n tail) as (c&t&Ht&Hc).
    exists c, t. split; [exact Ht|].
    destruct (solid_char c Hc) as (?&_&_&_&_&_&_&?). by split.
  - exists doubleQuote. eexists. split; [apply quoteJSONString_append|done].
  - rewrite serialize_array.
    destruct (wrap_head "[" "]" gap indent (indent +:+ gap)
                (map (serialize gap (indent +:+ gap)) items) tail) as (t&->).
    by exists "["%char, t.
  - rewrite serialize_object.
    destruct (wrap_head "{" "}" gap indent (indent +:+ gap)
                (map (entry gap (indent +:+ gap)) (map_to_list props)) tail)
      as (t&->).
    by exists "{"%char, t.
Qed.

Lemma join_head sep p partial tail :
  exists t, join sep (p :: partial) +:+ tail = p +:+ t.
Proof.
  destruct partial as [|q partial].
  - by exists tail.
  - rewrite join_cons. by eexists.
Qed.

Lemma readsBack_number gap n : readsBack gap (JNumber n).
Proof.
  intros fuel indent rest Hfuel _ Hrest.
  destruct fuel as [|fuel]; [simpl in Hfuel; lia|].
  change (serialize gap indent (JNumber n)) with (pretty n).
  rewrite parseValue_unfold.
  destruct (pretty_head n rest) as (c&t&Ht&Hc).
  destruct (solid_char c Hc) as (Hws&H1&H2&H3&H4&H5&H6&_).
  rewrite Ht, (skipWhitespace_solid _ _ Hws). cbv beta iota zeta.
  rewrite H1, H2, H3, H4, H5, H6, <- Ht.
  by apply parseNumber_pretty.
Qed.

Lemma readsBack_string gap s : readsBack gap (JString s).
Proof.
  intros fuel indent rest Hfuel _ _.
  destruct fuel as [|fuel]; [simpl in Hfuel; lia|].
  change (serialize gap indent (JString s)) with (quoteJSONString s).
  rewrite parseValue_unfold, quoteJSONString_append.
  change (skipWhitespace (String doubleQuote ?r)) with (String doubleQuote r).
  cbv beta iota zeta.
  change (Nat.eqb (nat_of_ascii doubleQuote) 123) with false.
  change (Nat.eqb (nat_of_ascii doubleQuote) 91) with false.
  change (Nat.eqb (nat_of_ascii doubleQuote) 34) with true.
  cbv iota. by rewrite parseChars_quoteChars.
Qed.

Lemma readsBack_array gap items :
  isWhitespaceString gap = true ->
  Forall (readsBack gap) items ->
  readsBack gap (JArray items).
Proof.
  intros Hgap Hitems fuel indent rest Hfuel Hindent _.
  destruct fuel as [|fuel]; [simpl in Hfuel; lia|].
  rewrite serialize_array, parseValue_unfold.
  destruct items as [|x items]; [reflexivity|].
  change (map (serialize gap (indent +:+ gap)) (x :: items))
    with (serialize gap (indent +:+ gap) x
          :: map (serialize gap (indent +:+ gap)) items).
  rewrite wrap_nonempty, append_cons, append_empty_l.
  change (skipWhitespace (String "[" ?r)) with (String "[" r).
  cbv beta iota zeta.
  change (Nat.eqb (nat_of_ascii "[") 123) with false.
  change (Nat.eqb (nat_of_ascii "[") 91) with true.
  cbv iota.
  assert (Hin : isWhitespaceString (indent +:+ gap) = true)
    by (by rewrite isWhitespaceString_append, Hindent, Hgap).
  rewrite skipWhitespace_append by by apply isWhitespaceString_sepWS.
  match goal with
  | |- context [skipWhitespace (join ?sep (?p :: ?ps) +:+ ?tail)] =>
      destruct (join_head sep p ps tail) as (t&Ht); rewrite Ht;
      destruct (serialize_head gap (indent +:+ gap) x t) as (c&t'&Hc&Hws&H93);
      rewrite Hc, (skipWhitespace_solid _ _ Hws), H93, <- Hc, <- Ht
  end.
  change (serialize gap (indent +:+ gap) x
          :: map (serialize gap (indent +:+ gap)) items)
    with (map (serialize gap (indent +:+ gap)) (x :: items)).
  change ("]" +:+ rest) with (String "]" rest).
  rewrite (parseElements_reads gap (x :: items) Hitems ltac:(done)
             fuel (indent +:+ gap) indent rest); [done| |done|done].
  change (json_size (JArray (x :: items))) with (S (sizes (x :: items))) in Hfuel.
  lia.
Qed.

Lemma readsBack_object gap (props : gmap string JSON) :
  isWhitespaceString gap = true ->
  (forall k v, props !! k = Some v -> readsBack gap v) ->
  readsBack gap (JObject props).
Proof.
  intros Hgap Hprops fuel indent rest Hfuel Hindent _.
  destruct fuel as [|fuel]; [simpl in Hfuel; lia|].
  rewrite json_size_object in Hfuel.
  rewrite serialize_object, parseValue_unfold.
  assert (Hall : Forall (fun member => readsBack gap member.2)
                   (map_to_list props)).
  { apply Forall_forall. intros [k v] Hkv.
    apply elem_of_map_to_list in Hkv. by eapply Hprops. }
  pose proof (NoDup_fst_map_to_list props) as Hnodup.
  pose proof (list_to_map_to_list props) as Hprops'.
  destruct (map_to_list props) as [|[k v] members] eqn:Hlist.
  { apply map_to_list_empty_iff in Hlist as ->. reflexivity. }
  change (map (entry gap (indent +:+ gap)) ((k, v) :: members))
    with (entry gap (indent +:+ gap) (k, v)
          :: map (entry gap (indent +:+ gap)) members).
  rewrite wrap_nonempty, append_cons, append_empty_l.
  change (skipWhitespace (String "{" ?r)) with (String "{" r).
  cbv beta iota zeta.
  change (Nat.eqb (nat_of_ascii "{") 123) with true.
  cbv iota.
  assert (Hin : isWhitespaceString (indent +:+ gap) = true)
    by (by rewrite isWhitespaceString_append, Hindent, Hgap).
  rewrite skipWhitespace_append by by apply isWhitespaceString_sepWS.
  match goal with
  | |- context [skipWhitespace (join ?sep (?p :: ?ps) +:+ ?tail)] =>
      destruct (join_head sep p ps tail) as (t&Ht); rewrite Ht;
      rewrite entry_append;
      change (skipWhitespace (String doubleQuote ?r)) with (String doubleQuote r);
      cbv beta iota;
      change (Nat.eqb (nat_of_ascii doubleQuote) 125) with false;
      cbv iota; rewrite <- entry_append, <- Ht
  end.
  change (entry gap (indent +:+ gap) (k, v)
          :: map (entry gap (indent +:+ gap)) members)
    with (map (entry gap (indent +:+ gap)) ((k, v) :: members)).
  change ("}" +:+ rest) with (String "}" rest).
  rewrite (parseMembers_reads gap ((k, v) :: members) Hall ltac:(done)
             fuel ∅ (indent +:+ gap) indent rest); [| |done|done].
  - by rewrite insertAll_list_to_map, Hprops'.
  - unfold memberSizes. lia.
Qed.

Lemma serialize_readsBack gap value :
  isWhitespaceString gap = true -> readsBack gap value.
Proof.
  intros Hgap. remember (json_size value) as n eqn:Hn. revert value Hn.
  induction n as [n IH] using lt_wf_ind. intros value ->.
  destruct value as [|b|n|s|items|props].
  - intros [|fuel] indent rest Hfuel _ _; [simpl in Hfuel; lia|reflexivity].
  - intros [|fuel] indent rest Hfuel _ _; [simpl in Hfuel; lia|].
    by destruct b.
  - apply readsBack_number.
  - apply readsBack_string.
  - apply readsBack_array; [done|]. apply Forall_forall. intros x Hx.
    eapply IH; [|reflexivity]. by apply json_size_item.
  - apply readsBack_object; [done|]. intros k v Hkv.
    eapply IH; [|reflexivity]. by eapply json_size_prop.
Qed.

(** *** The fuel of [parse] suffices *)

Lemma length_join sep parts : lengths parts <= String.length (join sep parts).
Proof.
  induction parts as [|p [|q parts] IH]; [done|simpl; lia|].
  change (join sep (p :: q :: parts)) with (p +:+ sep +:+ join sep (q :: parts)).
  rewrite !length_append'. simpl in IH |- *. lia.
Qed.

Lemma length_wrap o closing gap stepback indent partial :
  S (lengths partial)
  <= String.length (wrap (String o "") closing gap stepback indent partial).
Proof.
  destruct partial as [|p partial].
  - unfold wrap. rewrite append_cons. simpl. lia.
  - pose proof (length_join ("," +:+ sepWS gap indent) (p :: partial)) as Hj.
    change (lengths (p :: partial))
      with (String.length p + lengths partial) in Hj.
    rewrite <- (append_empty_r (wrap _ _ _ _ _ _)), wrap_nonempty.
    set (j := join _ (p :: partial)) in *.
    rewrite append_cons. simpl. rewrite !length_append'. lia.
Qed.

Lemma length_entry gap indent k v :
  String.length (serialize gap indent v)
  <= String.length (entry gap indent (k, v)).
Proof. unfold entry. cbn [fst snd]. rewrite !length_append'. lia. Qed.

Lemma json_size_length gap indent value :
  json_size value <= String.length (serialize gap indent value).
Proof.
  remember (json_size value) as n eqn:Hn. revert value indent Hn.
  induction n as [n IH] using lt_wf_ind. intros value indent ->.
  destruct value as [|[]|n|s|items|props]; try (simpl; lia).
  - destruct (pretty_head n "") as (c&t&Ht&_).
    rewrite append_empty_r in Ht.
    change (serialize gap indent (JNumber n)) with (pretty n).
    rewrite Ht. simpl. lia.
  - rewrite serialize_array.
    etransitivity; [|apply length_wrap].
    change (json_size (JArray items)) with (S (sizes items)).
    apply le_n_S.
    assert (Hitems : forall x, x ∈ items ->
              json_size x
              <= String.length (serialize gap (indent +:+ gap) x)).
    { intros x Hx. eapply IH; [|reflexivity]. by apply json_size_item. }
    clear IH. induction items as [|x items IHitems]; [done|].
    simpl. pose proof (Hitems x ltac:(left)).
    specialize (IHitems (fun y Hy => Hitems y ltac:(by right))). lia.
  - rewrite serialize_object, json_size_object.
    etransitivity; [|apply length_wrap]. apply le_n_S.
    assert (Hmembers : forall k v, (k, v) ∈ map_to_list props ->
              json_size v
              <= String.length (serialize gap (indent +:+ gap) v)).
    { intros k v Hkv. apply elem_of_map_to_list in Hkv.
      eapply IH; [|reflexivity]. by eapply json_size_prop. }
    clear IH. induction (map_to_list props) as [|[k v] members IHmembers];
      [done|].
    pose proof (Hmembers k v ltac:(left)).
    pose proof (length_entry gap (indent +:+ gap) k v).
    specialize (IHmembers (fun k' v' H' => Hmembers k' v' ltac:(by right))).
    change (json_size v
            + foldr (fun member acc => json_size member.2 + acc) 0 members
            <= String.length (entry gap (indent +:+ gap) (k, v))
               + lengths (map (entry gap (indent +:+ gap)) members)).
    lia.
Qed.

Lemma isWhitespaceString_gapOf space :
  match space with
  | Some (IndentString str) => isWhitespaceString str = true
  | _ => True
  end ->
  isWhitespaceString (gapOf space) = true.
Proof.
  destruct space as [[n|str]|]; simpl; [intros _|intros Hstr|done].
  - apply isWhitespaceString_spaces.
  - by apply isWhitespaceString_substring.
Qed.

(** [JSON.parse] reads back what [JSON.stringify] prints with a gap of
    white space. *)
Lemma parse_serialize gap value :
  isWhitespaceString gap = true ->
  parse (serialize gap "" value) = Ret value.
Proof.
  intros Hgap. unfold parse.
  pose proof (json_size_length gap "" value) as Hlen.
  pose proof (serialize_readsBack gap value Hgap
                (2 * String.length (serialize gap "" value) + 2) "" ""
                ltac:(lia) eq_refl eq_refl) as Hread.
  rewrite append_empty_r in Hread. by rewrite Hread.
Qed.

End ReferenceFacts.
(** * More facts about the script

    ** Every function is a sequence of assignments *)

Section MoreFacts.
Context {P : Platform} {W : Widget}.

Section Assignments.
Variable allowed : Event -> Prop.
Hypothesis allowed_change : forall ev, allowed (EvChange ev).

Lemma assigns_call_eq ev events s :
  allowed ev -> events = trace s -> assigns allowed s (set_trace (events ++ [ev]) s).
Proof. intros Hev ->. by apply assigns_call. Qed.

Lemma assigns_recordOutcome r s : assigns allowed s (recordOutcome r s).
Proof.
  destruct r; simpl;
    (eapply assigns_trans; [eapply assigns_trans|]);
    [apply assigns_jsonStatus|apply assigns_jsonParseError
    |apply assigns_validationErrors|apply assigns_jsonStatus
    |apply assigns_jsonParseError|apply assigns_validationErrors].
Qed.

Lemma assigns_validated s : assigns allowed s (snd (validated s)).
Proof.
  unfold validated. destruct (remembered _ _ _); cbn [snd].
  - apply assigns_recordOutcome.
  - eapply assigns_trans; [apply assigns_remember|apply assigns_recordOutcome].
Qed.

Lemma assigns_emitted t p s : assigns allowed s (snd (emitted t p s)).
Proof.
  unfold emitted. destruct (onChange s); cbn [snd]; [|apply assigns_refl].
  eapply assigns_trans; [apply assigns_validated|].
  by apply assigns_call.
Qed.

Lemma assigns_applied value view s : assigns allowed s (applied value view s).
Proof.
  unfold applied.
  eapply assigns_trans; [apply assigns_codeMirrorText|].
  eapply assigns_trans; [apply assigns_text|].
  eapply assigns_trans; [apply assigns_canUndo|apply assigns_canRedo].
Qed.

Lemma assigns_flush s : assigns allowed s (snd (flush s)).
Proof.
  rewrite flush_unfold. destruct (debouncePending s); [|apply assigns_refl].
  cbv zeta.
  destruct (onChangeDisabled s); [apply assigns_unschedule|].
  destruct (codeMirrorView s) as [view|]; [|apply assigns_unschedule].
  eapply assigns_trans; [apply assigns_unschedule|].
  destruct (String.eqb _ _); [apply assigns_codeMirrorText|].
  eapply assigns_trans; [apply assigns_applied|apply assigns_emitted].
Qed.

Lemma assigns_emitOnChange t p s : assigns allowed s (snd (emitOnChange t p s)).
Proof.
  rewrite emitOnChange_unfold. destruct (onChange s); [|apply assigns_refl].
  pose proof (assigns_flush s) as Hf.
  destruct (flush s) as [[[]|e] s1]; cbn [snd] in *; [|done].
  eapply assigns_trans; [exact Hf|apply assigns_emitted].
Qed.

Lemma assigns_patch operations s : assigns allowed s (snd (patch operations s)).
Proof.
  rewrite patch_unfold.
  destruct (JSON_parse (text s)); [|apply assigns_refl].
  destruct (JSONPatch.immutableJSONPatch _ _); [|apply assigns_refl]. cbv zeta.
  destruct (String.eqb _ _); [apply assigns_text|].
  pose proof (assigns_emitOnChange
                (JSON_stringify j (Some (indentation s))) (text s)
                (set_text (JSON_stringify j (Some (indentation s))) s)) as He.
  destruct (emitOnChange _ _ _) as [[[]|err] s2]; cbn [snd] in *;
    (eapply assigns_trans; [apply assigns_text|exact He]).
Qed.

Lemma assigns_validate s : assigns allowed s (snd (validate s)).
Proof.
  rewrite validate_unfold. pose proof (assigns_flush s) as Hf.
  destruct (flush s) as [[[]|e] s1]; cbn [snd] in *; [|done].
  eapply assigns_trans; [exact Hf|apply assigns_validated].
Qed.

Lemma assigns_linterCallback s : assigns allowed s (snd (linterCallback s)).
Proof.
  rewrite linterCallback_unfold. pose proof (assigns_validate s) as Hv.
  by destruct (validate s) as [[r|e] s1].
Qed.

Lemma assigns_onChangeCodeMirrorValue s :
  assigns allowed s (snd (onChangeCodeMirrorValue s)).
Proof.
  unfold onChangeCodeMirrorValue. rewrite Body_onChangeCodeMirrorValue_unfold.
  destruct (onChangeDisabled s); [apply assigns_refl|].
  destruct (codeMirrorView s) as [view|]; [|apply assigns_refl]. cbv zeta.
  destruct (String.eqb _ _); [apply assigns_codeMirrorText|].
  eapply assigns_trans; [apply assigns_applied|].
  apply (assigns_emitOnChange _ _ (applied _ view s)).
Qed.

Lemma assigns_timerExpired s : assigns allowed s (snd (timerExpired s)).
Proof.
  rewrite timerExpired_unfold. destruct (debouncePending s); [|apply assigns_refl].
  eapply assigns_trans; [apply assigns_unschedule|].
  apply assigns_onChangeCodeMirrorValue.
Qed.

Lemma widgetTransaction_unfold update s :
  widgetTransaction update s =
  match codeMirrorView s with
  | Some _ =>
      let s1 := set_editorState (Some (update_state update))
                  (set_codeMirrorView (Some (update_state update)) s) in
      (Ret tt, if docChanged update then set_debouncePending true s1 else s1)
  | None => (Ret tt, s)
  end.
Proof.
  unfold widgetTransaction, updateListener, onChangeCodeMirrorValueDebounced.
  unfold bind, get, modify, ret.
  destruct (codeMirrorView s); [|done]. by destruct (docChanged update).
Qed.

Lemma assigns_widgetTransaction update s :
  assigns allowed s (snd (widgetTransaction update s)).
Proof.
  rewrite widgetTransaction_unfold.
  destruct (codeMirrorView s) as [view|] eqn:Hv; [|apply assigns_refl].
  cbv zeta. cbn [snd].
  assert (H1 : assigns allowed s
            (set_editorState (Some (update_state update))
               (set_codeMirrorView (Some (update_state update)) s))).
  { eapply assigns_trans; [apply assigns_view; by rewrite Hv|].
    apply assigns_editorState. }
  destruct (docChanged update); [|exact H1].
  eapply assigns_trans; [exact H1|]. by apply assigns_schedule.
Qed.

Lemma setCodeMirrorValue_unfold value force s :
  setCodeMirrorValue value force s =
  if textEditorDisabled s && negb force then (Ret tt, s)
  else match codeMirrorView s with
       | Some view =>
           if same_text (codeMirrorText s) value then (Ret tt, s)
           else
             let update :=
               replaceAll view (escapeValue (escapeUnicodeCharacters s) value) in
             let s1 :=
               set_editorState (Some (update_state update))
                 (set_codeMirrorView (Some (update_state update))
                    (set_codeMirrorText (Some value) s)) in
             let s2 :=
               if docChanged update then set_debouncePending true s1 else s1 in
             (Ret tt,
              set_canRedo (Nat.ltb 0 (redoDepth (update_state update)))
                (set_canUndo (Nat.ltb 0 (undoDepth (update_state update))) s2))
       | None => (Ret tt, s)
       end.
Proof.
  unfold setCodeMirrorValue. unfold bind at 1, get at 1.
  destruct (textEditorDisabled s && negb force); [done|].
  destruct (codeMirrorView s) as [view|] eqn:Hv; [|done].
  destruct (same_text (codeMirrorText s) value); [done|]. simpl.
  unfold bind at 1, modify at 1. unfold bind at 1.
  rewrite widgetTransaction_unfold. simpl. rewrite Hv.
  unfold updateCanUndoRedo, bind, get, modify.
  by destruct (docChanged _).
Qed.

Lemma assigns_setCodeMirrorValue value force s :
  assigns allowed s (snd (setCodeMirrorValue value force s)).
Proof.
  rewrite setCodeMirrorValue_unfold.
  destruct (_ && _); [apply assigns_refl|].
  destruct (codeMirrorView s) as [view|] eqn:Hv; [|apply assigns_refl].
  destruct (same_text _ _); [apply assigns_refl|]. cbv zeta. cbn [snd].
  set (update := replaceAll view _).
  assert (H1 : assigns allowed s
            (set_editorState (Some (update_state update))
               (set_codeMirrorView (Some (update_state update))
                  (set_codeMirrorText (Some value) s)))).
  { eapply assigns_trans; [apply assigns_codeMirrorText|].
    eapply assigns_trans; [apply assigns_view; simpl; by rewrite Hv|].
    apply assigns_editorState. }
  eapply assigns_trans; [|apply assigns_canRedo].
  eapply assigns_trans; [|apply assigns_canUndo].
  destruct (docChanged update); [|exact H1].
  eapply assigns_trans; [exact H1|]. by apply assigns_schedule.
Qed.

Lemma handleAcceptTooLarge_unfold s :
  handleAcceptTooLarge s =
  setCodeMirrorValue (text s) true (set_acceptTooLarge true s).
Proof. reflexivity. Qed.

Lemma assigns_handleAcceptTooLarge s :
  assigns allowed s (snd (handleAcceptTooLarge s)).
Proof.
  rewrite handleAcceptTooLarge_unfold.
  eapply assigns_trans; [apply assigns_acceptTooLarge|].
  apply assigns_setCodeMirrorValue.
Qed.

Lemma assigns_projectText s : assigns allowed s (snd (projectText s)).
Proof. apply (assigns_setCodeMirrorValue (text s) false s). Qed.

Lemma assigns_forceUpdateText s : assigns allowed s (snd (forceUpdateText s)).
Proof.
  unfold forceUpdateText. unfold bind, get.
  destruct (codeMirrorView s); [apply assigns_widgetTransaction|apply assigns_refl].
Qed.

Lemma sortModal_onSort_unfold operations s :
  sortModal_onSort operations s =
  (Ret match fst (patch operations s) with
       | Ret _ => Ret tt
       | Throw err => Throw err
       end, snd (patch operations s)).
Proof.
  unfold sortModal_onSort. by destruct (patch operations s) as [[r|err] s'].
Qed.

Lemma transformModal_onTransform_unfold options json operations s :
  transformModal_onTransform options json operations s =
  match opt_onTransform options with
  | Some onTransform =>
      match JSONPatch.immutableJSONPatch json operations with
      | Some transformedJson =>
          let preview := {| preview_operations := operations;
                            preview_json := json;
                            preview_transformedJson := transformedJson |} in
          (outcomeOf (onTransform preview),
           set_trace (trace s ++ [EvTransformPreview preview]) s)
      | None => (Throw patchError, s)
      end
  | None =>
      (match fst (patch operations s) with
       | Ret _ => Ret tt
       | Throw err => Throw err
       end, snd (patch operations s))
  end.
Proof.
  unfold transformModal_onTransform.
  destruct (opt_onTransform options) as [onTransform|].
  - destruct (JSONPatch.immutableJSONPatch json operations); [|done].
    by rewrite call_host_unfold.
  - unfold bind, ret. by destruct (patch operations s) as [[r|err] s'].
Qed.

Lemma transformModal_onClose_unfold options s :
  transformModal_onClose options s =
  match opt_onClose options with
  | Some result =>
      (outcomeOf result,
       set_trace (trace s ++ [EvClose]) (set_modalOpen false s))
  | None => (Ret tt, set_modalOpen false s)
  end.
Proof.
  unfold transformModal_onClose, focus. unfold bind, modify, ret.
  destruct (opt_onClose options); [|done]. by rewrite call_host_unfold.
Qed.

Lemma assigns_quiet a s :
  callsOnChangeOnly a = true -> assigns allowed s (perform a s).
Proof.
  destruct a; simpl; try done; intros Hq.
  - apply assigns_patch.
  - apply assigns_validate.
  - apply assigns_linterCallback.
  - apply assigns_timerExpired.
  - apply assigns_widgetTransaction.
  - apply assigns_onChangeCodeMirrorValue.
  - apply assigns_handleAcceptTooLarge.
  - apply assigns_projectText.
  - apply assigns_forceUpdateText.
  - rewrite sortModal_onSort_unfold. apply assigns_patch.
  - apply assigns_modalOpen.
  - rewrite transformModal_onTransform_unfold.
    destruct (opt_onTransform options); [done|]. apply assigns_patch.
  - rewrite transformModal_onClose_unfold.
    destruct (opt_onClose options); [done|]. apply assigns_modalOpen.
Qed.

End Assignments.

Lemma assigns_reportError err s :
  assigns anyEvent s (snd (reportError err s)).
Proof. rewrite reportError_unfold. by apply assigns_call. Qed.

Lemma assigns_then_report t p s0 s :
  assigns anyEvent s0 s ->
  assigns anyEvent s0
    (snd match emitOnChange t p s with
         | (Ret _, s2) => (Ret tt, s2)
         | (Throw err, s2) => reportError err s2
         end).
Proof.
  intros H0. pose proof (assigns_emitOnChange anyEvent (fun _ => I) t p s) as He.
  destruct (emitOnChange t p s) as [[[]|err] s2]; cbn [snd] in *.
  - by eapply assigns_trans.
  - eapply assigns_trans; [exact H0|].
    eapply assigns_trans; [exact He|apply assigns_reportError].
Qed.

Lemma assigns_run c s : assigns anyEvent s (snd (run c s)).
Proof.
  destruct c; simpl.
  - rewrite handleFormat_unfold. destruct (readOnly s); [apply assigns_refl|].
    destruct (JSON_parse (text s)); [|apply assigns_reportError]. cbv zeta.
    destruct (String.eqb _ _); [apply assigns_text|].
    apply assigns_then_report, assigns_text.
  - rewrite handleCompact_unfold. destruct (readOnly s); [apply assigns_refl|].
    destruct (JSON_parse (text s)); [|apply assigns_reportError]. cbv zeta.
    destruct (String.eqb _ _); [apply assigns_text|].
    apply assigns_then_report, assigns_text.
  - rewrite handleSort_unfold. destruct (readOnly s); [apply assigns_refl|].
    destruct (JSON_parse (text s)); [|apply assigns_reportError]. cbv zeta.
    assert (H1 : assigns anyEvent s
              (set_trace
                 (trace s ++
                  [EvSortModal {| sort_id := sortModalId s; sort_json := a;
                                  sort_selectedPath := [] |}])
                 (set_modalOpen true s))).
    { eapply assigns_trans; [apply assigns_modalOpen|]. by apply assigns_call_eq. }
    destruct (onSortModal s _); [|exact H1].
    eapply assigns_trans; [exact H1|apply assigns_reportError].
  - rewrite handleTransform_unfold. destruct (readOnly s); [apply assigns_refl|].
    destruct (JSON_parse (text s)); [|apply assigns_reportError]. cbv zeta.
    assert (H1 : assigns anyEvent s
              (set_trace
                 (trace s ++
                  [EvTransformModal
                     {| transform_id := transformModalId s;
                        transform_json := a;
                        transform_selectedPath := [] |}])
                 (set_modalOpen true s))).
    { eapply assigns_trans; [apply assigns_modalOpen|]. by apply assigns_call_eq. }
    destruct (onTransformModal s _); [|exact H1].
    eapply assigns_trans; [exact H1|apply assigns_reportError].
  - rewrite handleRepair_unfold. destruct (readOnly s); [apply assigns_refl|].
    destruct (jsonrepair (text s)); [|apply assigns_reportError]. cbv zeta.
    assert (H1 : assigns anyEvent s
              (set_jsonParseError Undefined
                 (set_jsonStatus JSON_STATUS_VALID (set_text a s)))).
    { eapply assigns_trans; [apply assigns_text|].
      eapply assigns_trans; [apply assigns_jsonStatus|apply assigns_jsonParseError]. }
    destruct (String.eqb _ _); [exact H1|].
    by apply assigns_then_report.
Qed.

Lemma openTransformModal_unfold options s :
  openTransformModal options s =
  match JSON_parse (text s) with
  | Ret json =>
      let id := match opt_id options with
                | Some id => if String.eqb id "" then transformModalId s else id
                | None => transformModalId s
                end in
      let props := {| transform_id := id;
                      transform_json := json;
                      transform_selectedPath := opt_selectedPath options |} in
      let s1 := set_trace (trace s ++ [EvTransformModal props])
                  (set_modalOpen true s) in
      match onTransformModal s props with
      | Some err => reportError err s1
      | None => (Ret tt, s1)
      end
  | Throw err => reportError err s
  end.
Proof.
  unfold openTransformModal.
  unfold try_catch, bind, get, lift, modify, ret.
  destruct (JSON_parse (text s)) as [json|err]; [|done]. simpl.
  rewrite call_host_unfold. simpl. by destruct (onTransformModal s _).
Qed.

Lemma assigns_openTransformModal options s :
  assigns anyEvent s (snd (openTransformModal options s)).
Proof.
  rewrite openTransformModal_unfold.
  destruct (JSON_parse (text s)); [|apply assigns_reportError]. cbv zeta.
  set (props := {| transform_id := _ |}).
  assert (H1 : assigns anyEvent s
            (set_trace (trace s ++ [EvTransformModal props])
               (set_modalOpen true s))).
  { eapply assigns_trans; [apply assigns_modalOpen|]. by apply assigns_call_eq. }
  destruct (onTransformModal s props); [|exact H1].
  eapply assigns_trans; [exact H1|apply assigns_reportError].
Qed.

Lemma assigns_perform a s : assigns anyEvent s (perform a s).
Proof.
  destruct a; simpl.
  - apply assigns_run.
  - by apply assigns_patch.
  - by apply assigns_validate.
  - by apply assigns_linterCallback.
  - by apply assigns_timerExpired.
  - by apply assigns_widgetTransaction.
  - by apply assigns_onChangeCodeMirrorValue.
  - by apply assigns_handleAcceptTooLarge.
  - by apply assigns_projectText.
  - by apply assigns_forceUpdateText.
  - apply assigns_openTransformModal.
  - rewrite sortModal_onSort_unfold. by apply assigns_patch.
  - apply assigns_modalOpen.
  - rewrite transformModal_onTransform_unfold.
    destruct (opt_onTransform options).
    + destruct (JSONPatch.immutableJSONPatch _ _);
        [by apply assigns_call|apply assigns_refl].
    + by apply assigns_patch.
  - rewrite transformModal_onClose_unfold.
    destruct (opt_onClose options); [|apply assigns_modalOpen].
    eapply assigns_trans; [apply assigns_modalOpen|]. by apply assigns_call_eq.
Qed.

Lemma assigns_performAll actions s : assigns anyEvent s (performAll actions s).
Proof.
  revert s. induction actions as [|a rest IH]; intros s; [apply assigns_refl|].
  simpl. eapply assigns_trans; [apply assigns_perform|apply IH].
Qed.

(** ** What the assignments keep *)

Lemma assigns_unassigned allowed s s' : assigns allowed s s' -> unassigned s s'.
Proof.
  induction 1 as [ |s1 s2 s3 _ IH1 _ IH2| | | | | | | | | | | | | | | ];
    try (by repeat split).
  unfold unassigned in *.
  destruct IH1 as (A1&A2&A3&A4&A5&A6&A7&A8&A9&A10&A11).
  destruct IH2 as (B1&B2&B3&B4&B5&B6&B7&B8&B9&B10&B11).
  repeat split; congruence.
Qed.

Lemma assigns_coherent allowed s s' :
  assigns allowed s s' -> coherent s -> coherent s'.
Proof.
  induction 1 as [ |s1 s2 s3 _ IH1 _ IH2| | | | | | | | | | | | | |t v s| ];
    intros Hc; try exact Hc.
  - by apply IH2, IH1.
  - by intros t' v' r [= <- <- <-].
Qed.

Lemma assigns_accepted allowed s s' :
  assigns allowed s s' -> acceptTooLarge s = true -> acceptTooLarge s' = true.
Proof.
  induction 1 as [ |s1 s2 s3 _ IH1 _ IH2| | | | | | | | | | | | | | | ];
    intros Ha; try exact Ha; [by apply IH2, IH1|done].
Qed.

Lemma assigns_trace allowed s s' :
  assigns allowed s s' ->
  exists events, trace s' = trace s ++ events /\ Forall allowed events.
Proof.
  induction 1 as [ |s1 s2 s3 _ IH1 _ IH2| | | | | | | | | | | | | | |ev s Hev];
    try (exists []; split; [by rewrite app_nil_r|by constructor]).
  - destruct IH1 as (e1&H1&F1), IH2 as (e2&H2&F2).
    exists (e1 ++ e2). split; [by rewrite H2, H1, app_assoc|].
    by apply Forall_app.
  - exists [ev]. split; [done|]. by repeat constructor.
Qed.

Lemma changes_only events :
  Forall isChange events -> events = map EvChange (changes events).
Proof.
  induction 1 as [|ev events Hev _ IH]; [done|].
  destruct ev; try done. simpl. by rewrite <- IH.
Qed.

Lemma assigns_quiet_all actions s :
  forallb callsOnChangeOnly actions = true ->
  assigns isChange s (performAll actions s).
Proof.
  revert s. induction actions as [|a rest IH]; intros s Hq; [apply assigns_refl|].
  simpl in Hq. apply andb_prop in Hq as [Ha Hrest]. simpl.
  eapply assigns_trans; [by apply assigns_quiet|by apply IH].
Qed.

(** ** The component over any sequence of events *)

(** X1.  Whatever the user, the widget, the timer and the host make the
    component do, in any order, the props other than [text] keep their
    values: no function of the script assigns [readOnly], [indentation],
    [escapeUnicodeCharacters], [validator] or a callback; the identifiers
    of the modals and [onChangeDisabled] keep their initial values too. *)
Theorem props_never_assigned actions s : unassigned s (performAll actions s).
Proof. exact (assigns_unassigned _ _ _ (assigns_performAll actions s)). Qed.

(** X2.  Of the callbacks of the host that the script calls ([onChange],
    [onError], [onSortModal], [onTransformModal] and the [onTransform] and
    [onClose] of the options of the transform modal), [patch], [validate],
    the linter, the timer of the debounce, the transactions of the widget,
    the projection of the text, [handleAcceptTooLarge],
    [cancelLoadTooLarge] and the default callbacks of the modals call
    [onChange] only: whatever fails in them is thrown, never passed to
    [onError], and no modal is opened. *)
Theorem only_commands_report actions s :
  forallb callsOnChangeOnly actions = true ->
  exists events,
    trace (performAll actions s) = trace s ++ map EvChange events.
Proof.
  intros Hq.
  destruct (assigns_trace _ _ _ (assigns_quiet_all actions s Hq))
    as (events&Ht&Hev).
  exists (changes events). by rewrite Ht, <- changes_only.
Qed.

(** X3.  [memoizeOne] never serves a stale outcome.  When the cache holds
    what [validateText] returned (as it does at mount, when it is empty),
    then after any sequence of events [validate] returns what
    [validateText] gives for the text and the validator that the component
    holds when [validate] returns. *)
Theorem validate_never_stale actions s contentErrors :
  coherent s ->
  let s1 := performAll actions s in
  fst (validate s1) = Ret contentErrors ->
  contentErrors =
  validateText (text (snd (validate s1))) (validator (snd (validate s1))).
Proof.
  intros Hc s1.
  assert (Hc1 : coherent s1)
    by exact (assigns_coherent _ _ _ (assigns_performAll actions s) Hc).
  rewrite validate_unfold.
  pose proof (flush_coherent s1 Hc1) as Hf.
  destruct (flush s1) as [[[]|e] s2]; cbn [fst snd] in *; [|done].
  intros [= <-].
  by rewrite validated_text, validated_validator, validated_result.
Qed.

(** ** The linter and the repair action *)

Lemma validated_recorded s :
  exists s0,
    snd (validated s) = recordOutcome (fst (validated s)) s0
    /\ readOnly s0 = readOnly s.
Proof.
  unfold validated. destruct (remembered _ _ _); cbn [fst snd]; by eexists.
Qed.

Lemma recordOutcome_parseError parseError isRepairable s :
  parseErrorRecorded (recordOutcome (ContentParseError parseError isRepairable) s).
Proof.
  split; [by eexists|]. split; [|done]. simpl. destruct isRepairable; auto.
Qed.

Lemma validate_recorded s contentErrors :
  fst (validate s) = Ret contentErrors ->
  exists s0,
    snd (validate s) = recordOutcome contentErrors s0
    /\ readOnly s0 = readOnly s.
Proof.
  rewrite validate_unfold.
  pose proof (assigns_unassigned _ _ _ (assigns_flush anyEvent (fun _ => I) s))
    as (Hro&_).
  destruct (flush s) as [[[]|e] s1]; cbn [fst snd] in *; [|done].
  intros [= <-]. destruct (validated_recorded s1) as (s0&H0&H1).
  exists s0. split; [done|congruence].
Qed.

(** X4.  What the linter shows.  When the text does not parse there is one
    diagnostic: of severity error, of width zero, and the component records
    the parse error.  Otherwise there is one diagnostic for each validation
    error that the component records, each a warning without actions,
    whatever severity the validator gave. *)
Theorem linter_diagnostics s diagnostics :
  fst (linterCallback s) = Ret diagnostics ->
  let s' := snd (linterCallback s) in
  (parseErrorRecorded s'
   /\ exists d,
        diagnostics = [d]
        /\ diag_severity d = SeverityError
        /\ diag_from d = diag_to d)
  \/ (noParseErrorRecorded s'
      /\ length diagnostics = length (validationErrors s')
      /\ Forall (fun d => diag_severity d = SeverityWarning
                          /\ diag_actions d = Some []) diagnostics).
Proof.
  rewrite linterCallback_unfold.
  pose proof (validate_recorded s) as Hrec.
  destruct (validate s) as [[r|e] s1]; cbn [fst snd] in *; [|done].
  intros [= <-].
  destruct (Hrec r eq_refl) as (s0&->&_).
  destruct r as [parseError isRepairable|errors].
  - left. split; [apply recordOutcome_parseError|]. by eexists.
  - right. split; [done|]. split.
    + by rewrite !length_map.
    + rewrite map_map. by apply Forall_map, Forall_true.
Qed.

(** X5.  The repair button of the message agrees with the action of the
    diagnostic.  After [validate] found a parse error, [repairActions]
    holds the repair action exactly when the diagnostic that the linter
    makes of the error offers it, which is when the error is repairable
    and the document is not read-only. *)
Theorem repair_offered_consistently s parseError isRepairable :
  fst (validate s) = Ret (ContentParseError parseError isRepairable) ->
  let s' := snd (validate s) in
  rich_actions (toRichParseError s' parseError isRepairable) =
    (if isRepairable && negb (readOnly s) then Some [AutoRepair] else None)
  /\ repairActions s' =
    (if isRepairable && negb (readOnly s) then [AutoRepair] else []).
Proof.
  intros Hv.
  destruct (validate_recorded s _ Hv) as (s0&Hs&Hro). cbv zeta. rewrite Hs.
  unfold repairActions, toRichParseError. simpl. rewrite Hro.
  by destruct isRepairable, (readOnly s).
Qed.

(** ** Edits of the user and the timer of the debounce *)

Lemma userEdit_unfold newDoc s :
  userEdit newDoc s =
  match codeMirrorView s with
  | Some view =>
      let st := {| doc := newDoc;
                   undoDepth := S (undoDepth view);
                   redoDepth := 0 |} in
      (Ret tt,
       set_debouncePending true
         (set_editorState (Some st) (set_codeMirrorView (Some st) s)))
  | None => (Ret tt, s)
  end.
Proof.
  unfold userEdit. unfold bind at 1, get at 1.
  destruct (codeMirrorView s) as [view|] eqn:Hv; [|done].
  by rewrite widgetTransaction_unfold, Hv.
Qed.

Lemma edits_typed docs last s view :
  codeMirrorView s = Some view ->
  exists st,
    doc st = last
    /\ tasks (edits (docs ++ [last])) s =
       set_debouncePending true
         (set_editorState (Some st) (set_codeMirrorView (Some st) s)).
Proof.
  revert s view. induction docs as [|d docs IH]; intros s view Hv.
  - change (tasks (edits ([] ++ [last])) s) with (snd (userEdit last s)).
    rewrite userEdit_unfold, Hv.
    by exists {| doc := last; undoDepth := S (undoDepth view); redoDepth := 0 |}.
  - change (tasks (edits ((d :: docs) ++ [last])) s)
      with (tasks (edits (docs ++ [last])) (snd (userEdit d s))).
    rewrite userEdit_unfold, Hv. cbv zeta. cbn [snd].
    set (st1 := {| doc := d; undoDepth := S (undoDepth view); redoDepth := 0 |}).
    destruct (IH (set_debouncePending true
                    (set_editorState (Some st1)
                       (set_codeMirrorView (Some st1) s))) st1 eq_refl)
      as (st&Hdoc&Ht).
    exists st. split; [done|]. by rewrite Ht.
Qed.

Lemma emitted_trace_changes t p s :
  changes (trace (snd (emitted t p s))) =
  changes (trace s)
  ++ (if defined (onChange s) then [changeEvent t p (fst (validated s))]
      else []).
Proof.
  destruct (onChange s) as [callback|] eqn:Hc.
  - by rewrite (emitted_changes _ _ _ callback).
  - unfold emitted. rewrite Hc. simpl. by rewrite app_nil_r.
Qed.

(** X6.  Edits coalesce.  However many edits the user makes before the
    timer of the debounce expires, they leave the canonical text as it is
    and call no callback; when the timer expires the canonical text becomes
    the unescaped text of the widget after the last edit, and at most one
    change event is emitted: none when that text is the canonical text or
    no change handler is registered, one otherwise, with that text as its
    [text]. *)
Theorem edits_coalesce docs last s view :
  codeMirrorView s = Some view ->
  onChangeDisabled s = false ->
  let typed := tasks (edits (docs ++ [last])) s in
  let value := unescapeValue (escapeUnicodeCharacters s) last in
  text typed = text s
  /\ trace typed = trace s
  /\ text (snd (timerExpired typed)) = value
  /\ exists contentErrors,
       changes (trace (snd (timerExpired typed))) =
       changes (trace s)
       ++ (if String.eqb value (text s) || negb (defined (onChange s)) then []
           else [changeEvent value value contentErrors]).
Proof.
  intros Hv Hd typed value.
  destruct (edits_typed docs last s view Hv) as (st&Hdoc&Ht).
  subst typed. rewrite Ht. split; [done|]. split; [done|].
  rewrite timerExpired_unfold. cbn [debouncePending set_debouncePending].
  set (s2 := set_debouncePending false _).
  assert (Hvalue : getCodeMirrorValue s2 = value).
  { unfold getCodeMirrorValue. simpl. by rewrite Hdoc. }
  unfold onChangeCodeMirrorValue. rewrite Body_onChangeCodeMirrorValue_unfold.
  change (onChangeDisabled s2) with (onChangeDisabled s). rewrite Hd.
  change (codeMirrorView s2) with (Some st). cbv zeta. rewrite Hvalue.
  change (text s2) with (text s).
  destruct (String.eqb value (text s)) eqn:Heq.
  - apply String.eqb_eq in Heq. split; [done|].
    exists (ContentValidationErrors []). simpl. by rewrite app_nil_r.
  - fold (emitOnChange value value (applied value st s2)).
    rewrite emitOnChange_idle by done.
    rewrite emitted_text. split; [done|].
    eexists. rewrite emitted_trace_changes.
    change (onChange (applied value st s2)) with (onChange s).
    change (trace (applied value st s2)) with (trace s).
    simpl. by destruct (onChange s).
Qed.

(** ** The projection of the text into the widget *)

(** X7.  Projecting a text twice is projecting it once: after
    [setCodeMirrorValue(text)] the same call dispatches nothing and assigns
    nothing, whether the first call replaced the document of the widget or
    returned early. *)
Theorem projection_idempotent value force s :
  let s' := snd (setCodeMirrorValue value force s) in
  setCodeMirrorValue value force s' = (Ret tt, s').
Proof.
  cbv zeta. rewrite (setCodeMirrorValue_unfold value force s).
  destruct (textEditorDisabled s && negb force) eqn:Hd.
  { cbn [snd]. by rewrite setCodeMirrorValue_unfold, Hd. }
  destruct (codeMirrorView s) as [view|] eqn:Hv.
  2: { cbn [snd]. by rewrite setCodeMirrorValue_unfold, Hd, Hv. }
  destruct (same_text (codeMirrorText s) value) eqn:Hs.
  { cbn [snd]. by rewrite setCodeMirrorValue_unfold, Hd, Hv, Hs. }
  cbv zeta. cbn [snd]. rewrite setCodeMirrorValue_unfold.
  destruct (docChanged _).
  - change (textEditorDisabled _) with (textEditorDisabled s). rewrite Hd.
    simpl. by rewrite String.eqb_refl.
  - change (textEditorDisabled _) with (textEditorDisabled s). rewrite Hd.
    simpl. by rewrite String.eqb_refl.
Qed.

Lemma timerExpired_in_sync s :
  (debouncePending s = true ->
   exists view,
     codeMirrorView s = Some view
     /\ unescapeValue (escapeUnicodeCharacters s) (doc view) = text s) ->
  text (snd (timerExpired s)) = text s
  /\ trace (snd (timerExpired s)) = trace s.
Proof.
  intros Hsync. rewrite timerExpired_unfold.
  destruct (debouncePending s); [|done].
  destruct (Hsync eq_refl) as (view&Hv&Hdoc).
  unfold onChangeCodeMirrorValue. rewrite Body_onChangeCodeMirrorValue_unfold.
  destruct (onChangeDisabled _); [done|].
  change (codeMirrorView (set_debouncePending false s)) with (codeMirrorView s).
  rewrite Hv. cbv zeta.
  assert (Hvalue : getCodeMirrorValue (set_debouncePending false s) = text s).
  { unfold getCodeMirrorValue. simpl. by rewrite Hv. }
  rewrite Hvalue. change (text (set_debouncePending false s)) with (text s).
  by rewrite String.eqb_refl.
Qed.

Lemma setCodeMirrorValue_in_sync force s0 s :
  debouncePending s = false ->
  text s0 = text s ->
  escapeUnicodeCharacters s0 = escapeUnicodeCharacters s ->
  debouncePending s0 = false ->
  trace s0 = trace s ->
  unescapeValue (escapeUnicodeCharacters s)
    (escapeValue (escapeUnicodeCharacters s) (text s)) = text s ->
  let s1 := snd (setCodeMirrorValue (text s0) force s0) in
  text s1 = text s
  /\ trace s1 = trace s
  /\ (debouncePending s1 = true ->
      exists view,
        codeMirrorView s1 = Some view
        /\ unescapeValue (escapeUnicodeCharacters s1) (doc view) = text s1).
Proof.
  intros Hp Ht He Hp0 Htr Hround. cbv zeta. rewrite setCodeMirrorValue_unfold.
  destruct (_ && _); [cbn [snd]; by rewrite Hp0|].
  destruct (codeMirrorView s0) as [view|]; [|cbn [snd]; by rewrite Hp0].
  destruct (same_text _ _); [cbn [snd]; by rewrite Hp0|].
  cbv zeta. cbn [snd].
  destruct (docChanged _); simpl; (split; [done|]); (split; [done|]);
    [|by rewrite Hp0].
  intros _. eexists. split; [reflexivity|].
  by rewrite replaceAll_doc, He, Ht.
Qed.

Lemma forceUpdateText_unfold s :
  forceUpdateText s =
  match codeMirrorView s with
  | Some view =>
      widgetTransaction
        (replaceAll view (escapeValue (escapeUnicodeCharacters s) (text s))) s
  | None => (Ret tt, s)
  end.
Proof. unfold forceUpdateText, bind, get. by destruct (codeMirrorView s). Qed.

(** X8.  No echo.  Let the escaping of the text be undone by the
    unescaping, and let no update from the widget be scheduled.  Then
    writing the canonical text into the widget (the reactive projection,
    the button that accepts a large document, the forced update when the
    escaping option changes) and letting the timer that the write started
    expire leaves the canonical text as it is and calls no callback: the
    text that the host assigned does not come back as a change event. *)
Theorem projection_no_echo a s :
  In a [DoProjectText; DoAcceptTooLarge; DoForceUpdateText] ->
  debouncePending s = false ->
  unescapeValue (escapeUnicodeCharacters s)
    (escapeValue (escapeUnicodeCharacters s) (text s)) = text s ->
  let s' := perform DoTimer (perform a s) in
  text s' = text s /\ trace s' = trace s.
Proof.
  intros Ha Hp Hround. cbv zeta.
  assert (Hsync :
    text (perform a s) = text s
    /\ trace (perform a s) = trace s
    /\ (debouncePending (perform a s) = true ->
        exists view,
          codeMirrorView (perform a s) = Some view
          /\ unescapeValue (escapeUnicodeCharacters (perform a s)) (doc view)
             = text (perform a s))).
  { destruct Ha as [<-|[<-|[<-|[]]]].
    - by apply (setCodeMirrorValue_in_sync false s s).
    - by apply (setCodeMirrorValue_in_sync true (set_acceptTooLarge true s) s).
    - simpl. rewrite forceUpdateText_unfold.
      destruct (codeMirrorView s) as [view|] eqn:Hv; [|cbn [snd]; by rewrite Hp].
      rewrite widgetTransaction_unfold, Hv. cbv zeta. cbn [snd].
      destruct (docChanged _); simpl; (split; [done|]); (split; [done|]);
        [|by rewrite Hp].
      intros _. eexists. split; [reflexivity|]. by rewrite replaceAll_doc. }
  destruct Hsync as (Ht&Htr&Hs). simpl.
  destruct (timerExpired_in_sync _ Hs) as [Ht' Htr']. split; congruence.
Qed.

Lemma emitted_frame t p s :
  codeMirrorText (snd (emitted t p s)) = codeMirrorText s
  /\ codeMirrorView (snd (emitted t p s)) = codeMirrorView s
  /\ acceptTooLarge (snd (emitted t p s)) = acceptTooLarge s.
Proof.
  unfold emitted. destruct (onChange s); [|done]. cbn [snd].
  by validated_cases s.
Qed.

(** X9.  An update that came from the widget is not written back into it.
    After the timer of the debounce applied the text of the widget, the
    canonical text is that text, and the reactive projection of the
    canonical text finds it equal to [codeMirrorText]: it dispatches
    nothing and assigns nothing. *)
Theorem update_not_written_back s :
  debouncePending s = true ->
  onChangeDisabled s = false ->
  defined (codeMirrorView s) = true ->
  let s' := snd (timerExpired s) in
  text s' = getCodeMirrorValue s
  /\ projectText s' = (Ret tt, s').
Proof.
  intros Hp Hd Hv. cbv zeta. rewrite timerExpired_unfold, Hp.
  unfold onChangeCodeMirrorValue. rewrite Body_onChangeCodeMirrorValue_unfold.
  set (s0 := set_debouncePending false s).
  change (onChangeDisabled s0) with (onChangeDisabled s). rewrite Hd.
  change (codeMirrorView s0) with (codeMirrorView s).
  destruct (codeMirrorView s) as [view|] eqn:Hview; [|done]. cbv zeta.
  change (getCodeMirrorValue s0) with (getCodeMirrorValue s).
  change (text s0) with (text s).
  set (value := getCodeMirrorValue s).
  assert (Hproject : forall s',
            text s' = value -> codeMirrorText s' = Some value ->
            projectText s' = (Ret tt, s')).
  { intros s' Ht Hc. unfold projectText. unfold bind, get.
    rewrite setCodeMirrorValue_unfold, Hc, Ht. simpl.
    rewrite String.eqb_refl. by destruct (_ && _), (codeMirrorView s'). }
  destruct (String.eqb value (text s)) eqn:Heq.
  - apply String.eqb_eq in Heq. cbn [snd]. split; [done|].
    by apply Hproject.
  - fold (emitOnChange value value (applied value view s0)).
    rewrite emitOnChange_idle by done.
    destruct (emitted_frame value value (applied value view s0)) as (Hc&_&_).
    split; [by rewrite emitted_text|].
    apply Hproject; [by rewrite emitted_text|by rewrite Hc].
Qed.

(** ** Documents above the size threshold *)

(** X10.  Open anyway.  On a mounted view whose [codeMirrorText] is not the
    canonical text (as after the mount of a large document), the button
    that accepts the large document enables the editor and puts the escaped
    canonical text into the widget; the canonical text stays as it is and
    no callback is called. *)
Theorem accept_shows_document s view :
  codeMirrorView s = Some view ->
  codeMirrorText s <> Some (text s) ->
  let s' := snd (handleAcceptTooLarge s) in
  textEditorDisabled s' = false
  /\ text s' = text s
  /\ trace s' = trace s
  /\ codeMirrorText s' = Some (text s)
  /\ exists view',
       codeMirrorView s' = Some view'
       /\ doc view' = escapeValue (escapeUnicodeCharacters s) (text s).
Proof.
  intros Hv Hneq. cbv zeta.
  rewrite handleAcceptTooLarge_unfold, setCodeMirrorValue_unfold.
  change (codeMirrorView (set_acceptTooLarge true s)) with (codeMirrorView s).
  rewrite Hv. rewrite andb_false_r.
  change (codeMirrorText (set_acceptTooLarge true s)) with (codeMirrorText s).
  assert (Hs : same_text (codeMirrorText s) (text s) = false).
  { destruct (codeMirrorText s) as [t|]; [|done]. simpl.
    apply String.eqb_neq. by intros ->. }
  change (text (set_acceptTooLarge true s)) with (text s). rewrite Hs.
  cbv zeta. cbn [snd].
  assert (Hen : forall s1,
            acceptTooLarge s1 = true -> textEditorDisabled s1 = false).
  { intros s1 Ha. unfold textEditorDisabled. rewrite Ha. apply andb_false_r. }
  destruct (docChanged _); (split; [by apply Hen|]);
    repeat (split; [done|]); eexists; (split; [reflexivity|]);
    apply replaceAll_doc.
Qed.

(** X11.  Once the user accepted a large document, the editor is never
    disabled again: no function of the script sets [acceptTooLarge] back,
    whatever the size of the texts that follow. *)
Theorem accepted_stays_enabled actions s :
  textEditorDisabled (performAll actions (perform DoAcceptTooLarge s)) = false.
Proof.
  assert (Ha : acceptTooLarge (perform DoAcceptTooLarge s) = true).
  { simpl. rewrite handleAcceptTooLarge_unfold.
    eapply assigns_accepted;
      [by apply (assigns_setCodeMirrorValue anyEvent)|done]. }
  unfold textEditorDisabled.
  rewrite (assigns_accepted _ _ _ (assigns_performAll actions _) Ha).
  apply andb_false_r.
Qed.

(** X12.  Cancel empties the document.  A document larger than the
    threshold is mounted on an empty widget; the button that cancels the
    loading copies the text of the widget into the canonical text.  On a
    freshly mounted large document (read-only or not) the canonical text
    becomes the unescaped empty text, and a registered change handler is
    told so, with that text as [text] and as previous text. *)
Theorem cancel_oversized_empties readOnly text0 indentation validator onChange :
  MAX_DOCUMENT_SIZE_TEXT_MODE < String.length text0 ->
  unescapeValue false "" = "" ->
  let s := mounted readOnly text0 indentation validator onChange in
  let s' := snd (cancelLoadTooLarge s) in
  textEditorDisabled s = true
  /\ text s' = ""
  /\ exists contentErrors,
       changes (trace s') =
       if defined onChange then [changeEvent "" "" contentErrors] else [].
Proof.
  intros Hlarge Hempty s s'.
  assert (Hne : text0 <> "").
  { intros ->. simpl in Hlarge. lia. }
  assert (Hdis : textEditorDisabled s = true).
  { unfold textEditorDisabled, tooLarge. simpl.
    apply String.eqb_neq in Hne. rewrite Hne. simpl.
    rewrite andb_true_r. by apply Nat.ltb_lt. }
  split; [done|].
  assert (Hview : codeMirrorView s =
                  Some {| doc := ""; undoDepth := 0; redoDepth := 0 |}).
  { unfold s, mounted. cbv zeta.
    cbn [codeMirrorView set_codeMirrorView].
    unfold textEditorDisabled, tooLarge in *. simpl in *. by rewrite Hdis. }
  assert (Hvalue : getCodeMirrorValue s = "").
  { unfold getCodeMirrorValue. rewrite Hview. exact Hempty. }
  subst s'. unfold cancelLoadTooLarge.
  rewrite (onChangeCodeMirrorValue_applies s _ eq_refl eq_refl Hview)
    by (rewrite Hvalue; intros Heq; apply Hne; symmetry; exact Heq).
  rewrite Hvalue, emitted_text. split; [done|].
  eexists. rewrite emitted_trace_changes. simpl. reflexivity.
Qed.

(** ** [patch] and the callbacks of the modals *)

(** X13.  A [patch] that fails leaves no trace.  When [patch] throws and
    the change handler of the host is not the cause, the text did not
    parse or the patch did not apply to the parsed value; the component is
    exactly as it was before the call: the text is not replaced, nothing is
    validated and [onError] is not called (Format, on the same text, would
    have passed the error to [onError]). *)
Theorem patch_failure_unreported operations s e :
  fst (patch operations s) = Throw e ->
  onChangeReturns s ->
  snd (patch operations s) = s
  /\ (JSON_parse (text s) = Throw e
      \/ exists previousJson,
           JSON_parse (text s) = Ret previousJson
           /\ JSONPatch.immutableJSONPatch previousJson operations = None).
Proof.
  rewrite patch_unfold. intros Hthrow Hret.
  destruct (JSON_parse (text s)) as [previousJson|err] eqn:Hparse.
  - destruct (JSONPatch.immutableJSONPatch previousJson operations)
      as [updatedJson|] eqn:Happly.
    + exfalso. cbv zeta in Hthrow.
      destruct (String.eqb _ _); [done|].
      destruct (emitOnChange _ _ _) as [[[]|err] s2] eqn:He; [done|].
      apply emitOnChange_throw in He as (callback&ev&Hc&Hev).
      change (onChange (set_text _ s)) with (onChange s) in Hc.
      by rewrite (Hret callback ev Hc) in Hev.
    + split; [done|]. right. by exists previousJson.
  - injection Hthrow as ->. by split; [|left].
Qed.

(** X14.  The empty patch formats the document.  On a writable document
    whose text parses, with a change handler that returns, [patch] with no
    operations does what Format does: both leave the component in the same
    state, with the text serialised again with the indentation, and both
    emit the same change events; [patch] returns the parsed value as [json]
    and as [previousJson], and the empty list as [undo] and [redo]. *)
Theorem empty_patch_formats s previousJson :
  readOnly s = false ->
  onChangeReturns s ->
  JSON_parse (text s) = Ret previousJson ->
  snd (patch [] s) = snd (handleFormat s)
  /\ fst (patch [] s) =
     Ret {| json := previousJson;
            previousJson := previousJson;
            undo := [];
            redo := [] |}.
Proof.
  intros Hro Hret Hparse.
  rewrite patch_unfold, handleFormat_unfold, Hro, Hparse.
  change (JSONPatch.immutableJSONPatch previousJson [])
    with (Some previousJson).
  change (JSONPatch.revertJSONPatch previousJson [])
    with (@nil JSONPatchOperation).
  cbv beta iota zeta.
  destruct (String.eqb _ _); [done|].
  destruct (emitOnChange _ _ _) as [[[]|err] s2] eqn:He; [done|].
  exfalso. apply emitOnChange_throw in He as (callback&ev&Hc&Hev).
  change (onChange (set_text _ s)) with (onChange s) in Hc.
  by rewrite (Hret callback ev Hc) in Hev.
Qed.

(** X15.  A custom [onTransform] only previews.  When
    [openTransformModal] was given an [onTransform], the callback handed to
    the modal never touches the document: whatever the operations, the
    canonical text stays as it is and no change event is emitted.  When the
    operations apply to the value parsed at the opening of the modal, the
    custom callback receives that value, the operations and the
    transformed value; otherwise the error is thrown to the modal. *)
Theorem preview_never_commits options onTransform json operations s :
  opt_onTransform options = Some onTransform ->
  let result := transformModal_onTransform options json operations s in
  text (snd result) = text s
  /\ changes (trace (snd result)) = changes (trace s)
  /\ match JSONPatch.immutableJSONPatch json operations with
     | Some transformedJson =>
         let preview := {| preview_operations := operations;
                           preview_json := json;
                           preview_transformedJson := transformedJson |} in
         trace (snd result) = trace s ++ [EvTransformPreview preview]
         /\ fst result = outcomeOf (onTransform preview)
     | None => result = (Throw patchError, s)
     end.
Proof.
  intros Ho. cbv zeta. rewrite transformModal_onTransform_unfold, Ho.
  destruct (JSONPatch.immutableJSONPatch json operations); [|done].
  cbv zeta. cbn [fst snd]. split; [done|]. split; [|done].
  cbn [trace set_trace]. by rewrite changes_app, app_nil_r.
Qed.

(** X16.  Auto repair clears the error.  On a writable document whose text
    [jsonrepair] turns into a text that parses, with no update from the
    widget scheduled, Repair makes the repaired text the canonical text,
    sets the status to valid and leaves no parse error to show, so that the
    repair button disappears; this holds whether a change handler is
    registered or not, and whether it returns or throws. *)
Theorem repair_clears_error s repaired json :
  readOnly s = false ->
  jsonrepair (text s) = Ret repaired ->
  JSON_parse repaired = Ret json ->
  debouncePending s = false ->
  coherent s ->
  let s' := snd (handleRepair s) in
  text s' = repaired
  /\ jsonStatus s' = JSON_STATUS_VALID
  /\ (forall parseError, jsonParseError s' <> Value parseError)
  /\ repairActions s' = [].
Proof.
  intros Hro Hrepair Hparse Hp Hc. cbv zeta.
  rewrite handleRepair_unfold, Hro, Hrepair. cbv zeta.
  set (s1 := set_jsonParseError Undefined _).
  destruct (String.eqb repaired (text s)); [by repeat split|].
  rewrite emitOnChange_idle by done.
  assert (Hs2 : forall s2 : TextMode,
            text s2 = repaired -> jsonStatus s2 = JSON_STATUS_VALID ->
            jsonParseError s2 = Null \/ jsonParseError s2 = Undefined ->
            text s2 = repaired
            /\ jsonStatus s2 = JSON_STATUS_VALID
            /\ (forall parseError, jsonParseError s2 <> Value parseError)
            /\ repairActions s2 = []).
  { intros s2 Ht Hs He. split; [done|]. split; [done|]. split.
    - intros parseError. by destruct He as [-> | ->].
    - unfold repairActions. by rewrite Hs. }
  assert (Hem : text (snd (emitted repaired (text s) s1)) = repaired
                /\ jsonStatus (snd (emitted repaired (text s) s1))
                   = JSON_STATUS_VALID
                /\ (jsonParseError (snd (emitted repaired (text s) s1)) = Null
                    \/ jsonParseError (snd (emitted repaired (text s) s1))
                       = Undefined)).
  { split; [by rewrite emitted_text|].
    unfold emitted. destruct (onChange s1); [|by split; [|right]].
    cbn [snd]. destruct (validated_recorded s1) as (s0&Hs0&_).
    assert (Hr : fst (validated s1) =
                 validateText (text s1) (validator s1))
      by (apply validated_result; exact Hc).
    change (text s1) with repaired in Hr.
    unfold validateText in Hr. rewrite Hparse in Hr.
    change (jsonStatus (set_trace _ ?x)) with (jsonStatus x).
    change (jsonParseError (set_trace _ ?x)) with (jsonParseError x).
    rewrite Hs0, Hr. destruct (validator s1); by split; [|left]. }
  destruct Hem as (H1&H2&H3).
  destruct (emitted repaired (text s) s1) as [[[]|err] s2]; cbn [snd] in *.
  - by apply Hs2.
  - rewrite reportError_unfold. cbn [snd]. by apply Hs2.
Qed.

(** ** Format, Compact and the change event of [patch] *)

Lemma after_emitted_text t p s :
  text (snd match emitted t p s with
            | (Ret _, s2) => (Ret tt, s2)
            | (Throw err, s2) => reportError err s2
            end) = text s
  /\ debouncePending
       (snd match emitted t p s with
            | (Ret _, s2) => (Ret tt, s2)
            | (Throw err, s2) => reportError err s2
            end) = debouncePending s.
Proof.
  pose proof (emitted_text t p s) as Ht.
  pose proof (emitted_pending t p s) as Hp.
  destruct (emitted t p s) as [[[]|err] s2]; [done|].
  by rewrite reportError_unfold.
Qed.

Lemma handleFormat_text s json :
  readOnly s = false ->
  debouncePending s = false ->
  JSON_parse (text s) = Ret json ->
  text (snd (handleFormat s)) = JSON_stringify json (Some (indentation s))
  /\ debouncePending (snd (handleFormat s)) = false.
Proof.
  intros Hro Hp Hparse. rewrite handleFormat_unfold, Hro, Hparse. cbv zeta.
  destruct (String.eqb _ _); [done|].
  rewrite emitOnChange_idle by done.
  destruct (after_emitted_text (JSON_stringify json (Some (indentation s)))
              (text s)
              (set_text (JSON_stringify json (Some (indentation s))) s))
    as [-> ->].
  done.
Qed.

Lemma handleCompact_text s json :
  readOnly s = false ->
  debouncePending s = false ->
  JSON_parse (text s) = Ret json ->
  text (snd (handleCompact s)) = JSON_stringify json None
  /\ debouncePending (snd (handleCompact s)) = false.
Proof.
  intros Hro Hp Hparse. rewrite handleCompact_unfold, Hro, Hparse. cbv zeta.
  destruct (String.eqb _ _); [done|].
  rewrite emitOnChange_idle by done.
  destruct (after_emitted_text (JSON_stringify json None) (text s)
              (set_text (JSON_stringify json None) s)) as [-> ->].
  done.
Qed.

Lemma timerExpired_settles s :
  (debouncePending s = true ->
   exists view,
     codeMirrorView s = Some view
     /\ unescapeValue (escapeUnicodeCharacters s) (doc view) = text s) ->
  text (snd (timerExpired s)) = text s
  /\ debouncePending (snd (timerExpired s)) = false.
Proof.
  intros Hsync. rewrite timerExpired_unfold.
  destruct (debouncePending s) eqn:Hp; [|done].
  destruct (Hsync eq_refl) as (view&Hv&Hdoc).
  unfold onChangeCodeMirrorValue. rewrite Body_onChangeCodeMirrorValue_unfold.
  destruct (onChangeDisabled _); [done|].
  change (codeMirrorView (set_debouncePending false s)) with (codeMirrorView s).
  rewrite Hv. cbv zeta.
  assert (Hvalue : getCodeMirrorValue (set_debouncePending false s) = text s).
  { unfold getCodeMirrorValue. simpl. by rewrite Hv. }
  rewrite Hvalue. change (text (set_debouncePending false s)) with (text s).
  by rewrite String.eqb_refl.
Qed.

(** The reactive projection of the text and the timer that it starts,
    after a command left the text [t]: the text stays, and nothing is
    scheduled any more. *)
Lemma projected_settles s :
  debouncePending s = false ->
  unescapeValue (escapeUnicodeCharacters s)
    (escapeValue (escapeUnicodeCharacters s) (text s)) = text s ->
  let s' := performAll [DoProjectText; DoTimer] s in
  text s' = text s /\ debouncePending s' = false /\ unassigned s s'.
Proof.
  intros Hp Hround s'.
  destruct (setCodeMirrorValue_in_sync false s s Hp eq_refl eq_refl Hp eq_refl
              Hround) as (Ht&_&Hsync).
  destruct (timerExpired_settles _ Hsync) as [Ht' Hp'].
  split; [|split].
  - etransitivity; [exact Ht'|exact Ht].
  - exact Hp'.
  - exact (assigns_unassigned _ _ _ (assigns_performAll _ s)).
Qed.

(** X17.  The last layout wins, once the projection has settled.  On a
    writable document whose text parses to a value, with no update from the
    widget scheduled, when the compact text and the formatted text parse to
    that same value and the unescaping undoes their escaping: Compact, the
    reactive projection of the text, the timer that the projection started,
    and then Format leave the text that Format alone leaves; and likewise
    with Format first and Compact last. *)
Theorem last_layout_wins s json :
  readOnly s = false ->
  debouncePending s = false ->
  JSON_parse (text s) = Ret json ->
  JSON_parse (JSON_stringify json None) = Ret json ->
  JSON_parse (JSON_stringify json (Some (indentation s))) = Ret json ->
  (forall t,
      In t [JSON_stringify json None;
            JSON_stringify json (Some (indentation s))] ->
      unescapeValue (escapeUnicodeCharacters s)
        (escapeValue (escapeUnicodeCharacters s) t) = t) ->
  text (performAll [DoCommand Compact; DoProjectText; DoTimer;
                    DoCommand Format] s)
  = text (snd (handleFormat s))
  /\ text (performAll [DoCommand Format; DoProjectText; DoTimer;
                       DoCommand Compact] s)
     = text (snd (handleCompact s)).
Proof.
  intros Hro Hp Hparse Hcompact Hformat Hround.
  destruct (handleFormat_text s json Hro Hp Hparse) as [Hft Hfp].
  destruct (handleCompact_text s json Hro Hp Hparse) as [Hct Hcp].
  destruct (assigns_unassigned _ _ _ (assigns_run Format s))
    as (Hfro&Hfi&Hfe&_).
  destruct (assigns_unassigned _ _ _ (assigns_run Compact s))
    as (Hcro&Hci&Hce&_).
  simpl in Hfro, Hfi, Hfe, Hcro, Hci, Hce. split.
  - change (performAll [DoCommand Compact; DoProjectText; DoTimer;
                        DoCommand Format] s)
      with (snd (handleFormat
                   (performAll [DoProjectText; DoTimer]
                      (snd (handleCompact s))))).
    destruct (projected_settles (snd (handleCompact s)) Hcp)
      as (Ht&Hp'&Hro'&Hi'&_).
    { rewrite Hce, Hct. apply Hround. by left. }
    set (s3 := performAll [DoProjectText; DoTimer] (snd (handleCompact s)))
      in *.
    assert (Hro3 : readOnly s3 = false) by congruence.
    assert (Hparse3 : JSON_parse (text s3) = Ret json) by congruence.
    destruct (handleFormat_text s3 json Hro3 Hp' Hparse3) as [-> _].
    by rewrite Hft, Hi', Hci.
  - change (performAll [DoCommand Format; DoProjectText; DoTimer;
                        DoCommand Compact] s)
      with (snd (handleCompact
                   (performAll [DoProjectText; DoTimer]
                      (snd (handleFormat s))))).
    destruct (projected_settles (snd (handleFormat s)) Hfp)
      as (Ht&Hp'&Hro'&Hi'&_).
    { rewrite Hfe, Hft. apply Hround. right. by left. }
    set (s3 := performAll [DoProjectText; DoTimer] (snd (handleFormat s)))
      in *.
    assert (Hro3 : readOnly s3 = false) by congruence.
    assert (Hparse3 : JSON_parse (text s3) = Ret json) by congruence.
    destruct (handleCompact_text s3 json Hro3 Hp' Hparse3) as [-> _].
    by rewrite Hct.
Qed.

(** X18.  The change event of [patch] carries the validation of the new
    text.  When the text parses, the patch applies and changes the text, a
    change handler is registered, no update from the widget is scheduled
    and the cache of [memoizeOne] holds what [validateText] returned, then
    [patch] calls the handler once, with the new text, the previous text
    and what [validateText] gives for the new text and the validator; the
    [patchResult] of the event is [null], although [patch] returns one. *)
Theorem patch_event_validated operations s previousJson updatedJson callback :
  JSON_parse (text s) = Ret previousJson ->
  JSONPatch.immutableJSONPatch previousJson operations = Some updatedJson ->
  JSON_stringify updatedJson (Some (indentation s)) <> text s ->
  onChange s = Some callback ->
  debouncePending s = false ->
  coherent s ->
  let updated := JSON_stringify updatedJson (Some (indentation s)) in
  trace (snd (patch operations s)) =
  trace s
  ++ [EvChange {| current_text := updated;
                  previous_text := text s;
                  contentErrors := validateText updated (validator s);
                  patchResult := None |}].
Proof.
  intros Hparse Happly Hneq Hcb Hp Hc updated.
  rewrite patch_unfold, Hparse, Happly. cbv zeta. fold updated.
  apply String.eqb_neq in Hneq. fold updated in Hneq. rewrite Hneq.
  rewrite emitOnChange_idle by done.
  assert (Hr : fst (validated (set_text updated s)) =
               validateText updated (validator s))
    by (by rewrite validated_result).
  unfold emitted. cbn [onChange set_text]. rewrite Hcb. cbv zeta.
  rewrite Hr. unfold changeEvent.
  by destruct (callback _); cbn [fst snd outcomeOf]; cbn [trace set_trace];
    rewrite validated_trace.
Qed.

(** ** The claims that rest on the facts above *)

Lemma setCodeMirrorValue_text value force s :
  text (snd (setCodeMirrorValue value force s)) = text s.
Proof.
  rewrite setCodeMirrorValue_unfold.
  destruct (_ && _); [done|].
  destruct (codeMirrorView s); [|done].
  destruct (same_text _ _); [done|]. cbv zeta. cbn [snd].
  by destruct (docChanged _).
Qed.

(** Format on a document that holds the text that Format writes. *)
Lemma handleFormat_settled s json :
  JSON_parse (text s) = Ret json ->
  JSON_stringify json (Some (indentation s)) = text s ->
  handleFormat s = (Ret tt, s).
Proof.
  intros Hparse Hsame. rewrite handleFormat_unfold.
  destruct (readOnly s); [done|].
  rewrite Hparse. cbv zeta. by rewrite Hsame, String.eqb_refl, set_text_same.
Qed.

(** The JSON builtins of the reference platform, at an indentation of
    white space. *)
Lemma reference_round_trip json indentation :
  JSON_parse = Reference.parse ->
  JSON_stringify = Reference.stringify ->
  Reference.whitespaceIndentation indentation = true ->
  JSON_parse (JSON_stringify json (Some indentation)) = Ret json.
Proof.
  intros -> -> Hws. unfold Reference.stringify.
  apply ReferenceFacts.parse_serialize.
  apply ReferenceFacts.isWhitespaceString_gapOf. by destruct indentation.
Qed.


(** C8 (what the code does).  Parse errors and validation errors are
    values: what [validate] or the linter callback throw is what the change
    handler of the host threw; the linter callback returns the outcome of
    [validate] converted to diagnostics; and the outcome that [validate]
    returns is the one of the text that the component holds: its parse
    error when that text does not parse, the errors of the validator
    otherwise.  A command throws only what [onError] itself throws; on a
    writable document the error of [JSON.parse] (Format, Compact, Sort,
    Transform) or of [jsonrepair] (Repair) is passed to [onError] and the
    state is otherwise unchanged.  The callbacks that Sort and Transform
    hand to their modals are not guarded: what [patch] throws in them (the
    parse error of the text, the error of a patch that does not apply, the
    error of the change handler) is thrown to the modal by [onTransform]
    and rejects the promise of [onSort]; [onError] is not called. *)
Theorem errors_returned_or_reported s :
  (forall e s',
      validate s = (Throw e, s') \/ linterCallback s = (Throw e, s') ->
      exists callback ev, onChange s = Some callback /\ callback ev = Some e)
  /\ (forall contentErrors s',
        validate s = (Ret contentErrors, s') ->
        linterCallback s =
        (Ret match contentErrors with
             | ContentParseError parseError isRepairable =>
                 [toDiagnostic (toRichParseError s' parseError isRepairable)]
             | ContentValidationErrors validationErrors =>
                 map toDiagnostic
                   (map (toRichValidationError s') validationErrors)
             end, s'))
  /\ (coherent s ->
      forall contentErrors s',
        validate s = (Ret contentErrors, s') ->
        contentErrors =
        match JSON_parse (text s') with
        | Throw err =>
            ContentParseError (normalizeJsonParseError (text s') err)
              (canAutoRepair (text s'))
        | Ret json =>
            ContentValidationErrors
              match validator s' with
              | Some v => runValidator v json
              | None => []
              end
        end)
  /\ (forall c e s',
        run c s = (Throw e, s') -> exists err, onError s err = Some e)
  /\ (readOnly s = false ->
      forall err,
        (JSON_parse (text s) = Throw err ->
         forall c, c <> Repair ->
           run c s =
           (outcomeOf (onError s err), set_trace (trace s ++ [EvError err]) s))
        /\ (jsonrepair (text s) = Throw err ->
            run Repair s =
            (outcomeOf (onError s err), set_trace (trace s ++ [EvError err]) s)))
  /\ (forall operations e,
        fst (patch operations s) = Throw e ->
        sortModal_onSort operations s
        = (Ret (Throw e), snd (patch operations s))
        /\ (forall options json,
              opt_onTransform options = None ->
              transformModal_onTransform options json operations s
              = (Throw e, snd (patch operations s)))
        /\ exists events,
             trace (snd (patch operations s)) = trace s ++ map EvChange events).
Proof.
  split; [|split; [|split; [|split; [|split]]]].
  - intros e s' [Hv|Hl]; [by eapply validate_throw|].
    rewrite linterCallback_unfold in Hl.
    destruct (validate s) as [[r|e1] s1] eqn:Hv; [done|].
    injection Hl as -> ->. by eapply validate_throw.
  - intros r s' Hv. by rewrite linterCallback_unfold, Hv.
  - intros Hc r s'. rewrite validate_unfold.
    pose proof (flush_coherent s Hc) as Hf.
    destruct (flush s) as [[[]|e] s1]; cbn [snd] in Hf; [|done].
    intros [= <- <-].
    rewrite validated_text, validated_validator, validated_result by done.
    unfold validateText. by destruct (JSON_parse (text s1)), (validator s1).
  - intros c e s'. apply run_throw.
  - intros Hro err. split.
    + intros Hp c Hc. destruct c; simpl; [| | | |done].
      * by rewrite handleFormat_unfold, Hro, Hp, reportError_unfold.
      * by rewrite handleCompact_unfold, Hro, Hp, reportError_unfold.
      * by rewrite handleSort_unfold, Hro, Hp, reportError_unfold.
      * by rewrite handleTransform_unfold, Hro, Hp, reportError_unfold.
    + intros Hp. simpl.
      by rewrite handleRepair_unfold, Hro, Hp, reportError_unfold.
  - intros operations e Hthrow. split; [|split].
    + rewrite sortModal_onSort_unfold. by rewrite Hthrow.
    + intros options json Ho.
      rewrite transformModal_onTransform_unfold, Ho. by rewrite Hthrow.
    + destruct (assigns_trace _ _ _
                  (assigns_patch isChange (fun _ => I) operations s))
        as (events&Ht&Hev).
      exists (changes events). by rewrite Ht, <- changes_only.
Qed.

End MoreFacts.

(** ** The facts on concrete documents *)

Section MoreConcrete.
Import Scenario Desk.
#[local] Existing Instance Scenario.platform.
#[local] Existing Instance Desk.widget.

Lemma coherent_mounted readOnly text indentation validator onChange :
  coherent (mounted readOnly text indentation validator onChange).
Proof. intros t v r H. discriminate H. Qed.

Lemma listener_returns readOnly text indentation validator :
  onChangeReturns (mounted readOnly text indentation validator (Some listener)).
Proof. intros callback ev H. injection H as <-. reflexivity. Qed.

(** X2: a patch, a validation, a pass of the linter, the timer and a
    projection on the object document. *)
Lemma only_commands_report_witness :
  forallb callsOnChangeOnly hostCalls = true
  /\ exists events,
       trace (performAll hostCalls object) = trace object ++ map EvChange events.
Proof.
  assert (Hq : forallb callsOnChangeOnly hostCalls = true)
    by (vm_compute; reflexivity).
  split; [exact Hq|].
  exact (only_commands_report hostCalls object Hq).
Defined.

(** X3: typing, Format and the timer, then [validate]. *)
Lemma validate_never_stale_witness :
  let s := beforeTyping in
  let contentErrors := ContentValidationErrors [] in
  (coherent s
   /\ fst (validate (performAll session s)) = Ret contentErrors)
  /\ contentErrors =
     validateText (text (snd (validate (performAll session s))))
       (validator (snd (validate (performAll session s)))).
Proof.
  intros s contentErrors.
  assert (Hc : coherent s) by apply coherent_mounted.
  assert (Hv : fst (validate (performAll session s)) = Ret contentErrors)
    by (vm_compute; reflexivity).
  split; [split; assumption|].
  exact (validate_never_stale session s contentErrors Hc Hv).
Defined.

(** X4: the linter on the document with the trailing comma. *)
Lemma linter_diagnostics_witness :
  let s := broken in
  let diagnostics := [trailingComma] in
  fst (linterCallback s) = Ret diagnostics
  /\ ((parseErrorRecorded (snd (linterCallback s))
       /\ exists d,
            diagnostics = [d]
            /\ diag_severity d = SeverityError
            /\ diag_from d = diag_to d)
      \/ (noParseErrorRecorded (snd (linterCallback s))
          /\ length diagnostics = length (validationErrors (snd (linterCallback s)))
          /\ Forall (fun d => diag_severity d = SeverityWarning
                              /\ diag_actions d = Some []) diagnostics)).
Proof.
  intros s diagnostics.
  assert (Hl : fst (linterCallback s) = Ret diagnostics)
    by (vm_compute; reflexivity).
  split; [exact Hl|].
  exact (linter_diagnostics s diagnostics Hl).
Defined.

(** X5: the document with the trailing comma is repairable. *)
Lemma repair_offered_consistently_witness :
  let s := broken in
  fst (validate s) = Ret (ContentParseError syntaxError true)
  /\ (rich_actions (toRichParseError (snd (validate s)) syntaxError true) =
        (if true && negb (readOnly s) then Some [AutoRepair] else None)
      /\ repairActions (snd (validate s)) =
        (if true && negb (readOnly s) then [AutoRepair] else [])).
Proof.
  intros s.
  assert (Hv : fst (validate s) = Ret (ContentParseError syntaxError true))
    by (vm_compute; reflexivity).
  split; [exact Hv|].
  exact (repair_offered_consistently s syntaxError true Hv).
Defined.

(** X6: the three edits of the scenario. *)
Lemma edits_coalesce_witness :
  let s := beforeTyping in
  let view := {| doc := "[1]"; undoDepth := 0; redoDepth := 0 |} in
  let docs := ["[1,"; "[1,2"] in
  let last := "[1,2]" in
  (codeMirrorView s = Some view /\ onChangeDisabled s = false)
  /\ (text (tasks (edits (docs ++ [last])) s) = text s
      /\ trace (tasks (edits (docs ++ [last])) s) = trace s
      /\ text (snd (timerExpired (tasks (edits (docs ++ [last])) s)))
         = unescapeValue (escapeUnicodeCharacters s) last
      /\ exists contentErrors,
           changes (trace (snd (timerExpired (tasks (edits (docs ++ [last])) s))))
           = changes (trace s)
             ++ (if String.eqb (unescapeValue (escapeUnicodeCharacters s) last)
                      (text s)
                    || negb (defined (onChange s))
                 then []
                 else [changeEvent (unescapeValue (escapeUnicodeCharacters s) last)
                         (unescapeValue (escapeUnicodeCharacters s) last)
                         contentErrors])).
Proof.
  intros s view docs last.
  assert (Hv : codeMirrorView s = Some view) by (vm_compute; reflexivity).
  assert (Hd : onChangeDisabled s = false) by (vm_compute; reflexivity).
  split; [split; assumption|].
  exact (edits_coalesce docs last s view Hv Hd).
Defined.

(** X8: the host assigned a text to the validated document. *)
Lemma projection_no_echo_witness :
  let s := reassigned in
  let a := DoProjectText in
  (In a [DoProjectText; DoAcceptTooLarge; DoForceUpdateText]
   /\ debouncePending s = false
   /\ unescapeValue (escapeUnicodeCharacters s)
        (escapeValue (escapeUnicodeCharacters s) (text s)) = text s)
  /\ (text (perform DoTimer (perform a s)) = text s
      /\ trace (perform DoTimer (perform a s)) = trace s).
Proof.
  intros s a.
  assert (Ha : In a [DoProjectText; DoAcceptTooLarge; DoForceUpdateText])
    by (left; reflexivity).
  assert (Hp : debouncePending s = false) by (vm_compute; reflexivity).
  assert (Hr : unescapeValue (escapeUnicodeCharacters s)
                 (escapeValue (escapeUnicodeCharacters s) (text s)) = text s)
    by (vm_compute; reflexivity).
  split; [repeat split; assumption|].
  exact (projection_no_echo a s Ha Hp Hr).
Defined.

(** X9: after the three edits of the scenario. *)
Lemma update_not_written_back_witness :
  let s := tasks typing beforeTyping in
  (debouncePending s = true
   /\ onChangeDisabled s = false
   /\ defined (codeMirrorView s) = true)
  /\ (text (snd (timerExpired s)) = getCodeMirrorValue s
      /\ projectText (snd (timerExpired s)) = (Ret tt, snd (timerExpired s))).
Proof.
  intros s.
  assert (Hp : debouncePending s = true) by (vm_compute; reflexivity).
  assert (Hd : onChangeDisabled s = false) by (vm_compute; reflexivity).
  assert (Hv : defined (codeMirrorView s) = true) by (vm_compute; reflexivity).
  split; [repeat split; assumption|].
  exact (update_not_written_back s Hp Hd Hv).
Defined.

(** X10: the large document of the scenarios. *)
Lemma accept_shows_document_witness :
  let s := oversized in
  let view := {| doc := ""; undoDepth := 0; redoDepth := 0 |} in
  (codeMirrorView s = Some view /\ codeMirrorText s <> Some (text s))
  /\ (textEditorDisabled (snd (handleAcceptTooLarge s)) = false
      /\ text (snd (handleAcceptTooLarge s)) = text s
      /\ trace (snd (handleAcceptTooLarge s)) = trace s
      /\ codeMirrorText (snd (handleAcceptTooLarge s)) = Some (text s)
      /\ exists view',
           codeMirrorView (snd (handleAcceptTooLarge s)) = Some view'
           /\ doc view' = escapeValue (escapeUnicodeCharacters s) (text s)).
Proof.
  intros s view.
  assert (Hv : codeMirrorView s = Some view) by (vm_compute; reflexivity).
  assert (Hn : codeMirrorText s <> Some (text s))
    by (intros Heq; vm_compute in Heq; discriminate).
  split; [split; assumption|].
  exact (accept_shows_document s view Hv Hn).
Defined.

(** X12: the large document of the scenarios, cancelled. *)
Lemma cancel_oversized_empties_witness :
  let onChange := Some listener in
  let s := mounted false largeText (IndentNumber 2) None onChange in
  (MAX_DOCUMENT_SIZE_TEXT_MODE < String.length largeText
   /\ unescapeValue false "" = "")
  /\ (textEditorDisabled s = true
      /\ text (snd (cancelLoadTooLarge s)) = ""
      /\ exists contentErrors,
           changes (trace (snd (cancelLoadTooLarge s))) =
           if defined onChange then [changeEvent "" "" contentErrors] else []).
Proof.
  intros onChange s.
  assert (Hl : MAX_DOCUMENT_SIZE_TEXT_MODE < String.length largeText)
    by (apply Nat.ltb_lt; vm_compute; reflexivity).
  assert (He : unescapeValue false "" = "") by (vm_compute; reflexivity).
  split; [split; assumption|].
  exact (cancel_oversized_empties false largeText (IndentNumber 2) None onChange
           Hl He).
Defined.

(** X13: a patch of the document with the trailing comma. *)
Lemma patch_failure_unreported_witness :
  let s := broken in
  let e := Reference.syntaxError in
  (fst (patch replaceA s) = Throw e /\ onChangeReturns s)
  /\ (snd (patch replaceA s) = s
      /\ (JSON_parse (text s) = Throw e
          \/ exists previousJson,
               JSON_parse (text s) = Ret previousJson
               /\ JSONPatch.immutableJSONPatch previousJson replaceA = None)).
Proof.
  intros s e.
  assert (Ht : fst (patch replaceA s) = Throw e) by (vm_compute; reflexivity).
  assert (Hr : onChangeReturns s) by apply listener_returns.
  split; [split; assumption|].
  exact (patch_failure_unreported replaceA s e Ht Hr).
Defined.

(** X14: the empty patch on the document [[1, 2]]. *)
Lemma empty_patch_formats_witness :
  let s := spaced in
  let previousJson := JArray [JNumber 1; JNumber 2] in
  (readOnly s = false
   /\ onChangeReturns s
   /\ JSON_parse (text s) = Ret previousJson)
  /\ (snd (patch [] s) = snd (handleFormat s)
      /\ fst (patch [] s) =
         Ret {| json := previousJson;
                previousJson := previousJson;
                undo := [];
                redo := [] |}).
Proof.
  intros s previousJson.
  assert (Hro : readOnly s = false) by (vm_compute; reflexivity).
  assert (Hr : onChangeReturns s) by apply listener_returns.
  assert (Hp : JSON_parse (text s) = Ret previousJson)
    by (vm_compute; reflexivity).
  split; [repeat split; assumption|].
  exact (empty_patch_formats s previousJson Hro Hr Hp).
Defined.

(** X15: a preview of the replacement of the member [a]. *)
Lemma preview_never_commits_witness :
  let s := object in
  let json := JObject {[ "a" := JNumber 1 ]} in
  opt_onTransform previewOptions = Some preview
  /\ (text (snd (transformModal_onTransform previewOptions json replaceA s))
      = text s
      /\ changes
           (trace (snd (transformModal_onTransform previewOptions json replaceA s)))
         = changes (trace s)
      /\ match JSONPatch.immutableJSONPatch json replaceA with
         | Some transformedJson =>
             let preview' := {| preview_operations := replaceA;
                                preview_json := json;
                                preview_transformedJson := transformedJson |} in
             trace (snd (transformModal_onTransform previewOptions json replaceA s))
             = trace s ++ [EvTransformPreview preview']
             /\ fst (transformModal_onTransform previewOptions json replaceA s)
                = outcomeOf (preview preview')
         | None =>
             transformModal_onTransform previewOptions json replaceA s
             = (Throw patchError, s)
         end).
Proof.
  intros s json.
  assert (Ho : opt_onTransform previewOptions = Some preview) by reflexivity.
  split; [exact Ho|].
  exact (preview_never_commits previewOptions preview json replaceA s Ho).
Defined.

(** X16: the repair of the document with the trailing comma. *)
Lemma repair_clears_error_witness :
  let s := broken in
  let repaired := "[1, 2]" in
  let json := JArray [JNumber 1; JNumber 2] in
  (readOnly s = false
   /\ jsonrepair (text s) = Ret repaired
   /\ JSON_parse repaired = Ret json
   /\ debouncePending s = false
   /\ coherent s)
  /\ (text (snd (handleRepair s)) = repaired
      /\ jsonStatus (snd (handleRepair s)) = JSON_STATUS_VALID
      /\ (forall parseError,
            jsonParseError (snd (handleRepair s)) <> Value parseError)
      /\ repairActions (snd (handleRepair s)) = []).
Proof.
  intros s repaired json.
  assert (Hro : readOnly s = false) by (vm_compute; reflexivity).
  assert (Hj : jsonrepair (text s) = Ret repaired) by (vm_compute; reflexivity).
  assert (Hp : JSON_parse repaired = Ret json) by (vm_compute; reflexivity).
  assert (Hd : debouncePending s = false) by (vm_compute; reflexivity).
  assert (Hc : coherent s) by apply coherent_mounted.
  split; [repeat split; assumption|].
  exact (repair_clears_error s repaired json Hro Hj Hp Hd Hc).
Defined.

(** X17: Compact and Format on the document [[1, 2]], with the
    projection and its timer between them. *)
Lemma last_layout_wins_witness :
  let s := spaced in
  let json := JArray [JNumber 1; JNumber 2] in
  (readOnly s = false
   /\ debouncePending s = false
   /\ JSON_parse (text s) = Ret json
   /\ JSON_parse (JSON_stringify json None) = Ret json
   /\ JSON_parse (JSON_stringify json (Some (indentation s))) = Ret json
   /\ (forall t,
         In t [JSON_stringify json None;
               JSON_stringify json (Some (indentation s))] ->
         unescapeValue (escapeUnicodeCharacters s)
           (escapeValue (escapeUnicodeCharacters s) t) = t))
  /\ (text (performAll [DoCommand Compact; DoProjectText; DoTimer;
                        DoCommand Format] s)
      = text (snd (handleFormat s))
      /\ text (performAll [DoCommand Format; DoProjectText; DoTimer;
                           DoCommand Compact] s)
         = text (snd (handleCompact s))).
Proof.
  intros s json.
  assert (Hro : readOnly s = false) by (vm_compute; reflexivity).
  assert (Hp : debouncePending s = false) by (vm_compute; reflexivity).
  assert (Hparse : JSON_parse (text s) = Ret json) by (vm_compute; reflexivity).
  assert (Hc : JSON_parse (JSON_stringify json None) = Ret json)
    by (vm_compute; reflexivity).
  assert (Hf : JSON_parse (JSON_stringify json (Some (indentation s))) = Ret json)
    by (vm_compute; reflexivity).
  assert (Hr : forall t,
             In t [JSON_stringify json None;
                   JSON_stringify json (Some (indentation s))] ->
             unescapeValue (escapeUnicodeCharacters s)
               (escapeValue (escapeUnicodeCharacters s) t) = t)
    by (intros t _; reflexivity).
  split; [repeat split; assumption|].
  exact (last_layout_wins s json Hro Hp Hparse Hc Hf Hr).
Defined.

(** X18: the replacement of the member [a] of the object. *)
Lemma patch_event_validated_witness :
  let s := object in
  let previousJson := JObject {[ "a" := JNumber 1 ]} in
  let updatedJson := JObject {[ "a" := JNumber 2 ]} in
  (JSON_parse (text s) = Ret previousJson
   /\ JSONPatch.immutableJSONPatch previousJson replaceA = Some updatedJson
   /\ JSON_stringify updatedJson (Some (indentation s)) <> text s
   /\ onChange s = Some listener
   /\ debouncePending s = false
   /\ coherent s)
  /\ trace (snd (patch replaceA s)) =
     trace s
     ++ [EvChange
           {| current_text := JSON_stringify updatedJson (Some (indentation s));
              previous_text := text s;
              contentErrors :=
                validateText
                  (JSON_stringify updatedJson (Some (indentation s)))
                  (validator s);
              patchResult := None |}].
Proof.
  intros s previousJson updatedJson.
  assert (Hparse : JSON_parse (text s) = Ret previousJson)
    by (vm_compute; reflexivity).
  assert (Happly : JSONPatch.immutableJSONPatch previousJson replaceA
                   = Some updatedJson) by (vm_compute; reflexivity).
  assert (Hneq : JSON_stringify updatedJson (Some (indentation s)) <> text s)
    by (intros Heq; vm_compute in Heq; discriminate).
  assert (Hcb : onChange s = Some listener) by (vm_compute; reflexivity).
  assert (Hp : debouncePending s = false) by (vm_compute; reflexivity).
  assert (Hc : coherent s) by apply coherent_mounted.
  split; [repeat split; assumption|].
  exact (patch_event_validated replaceA s previousJson updatedJson listener
           Hparse Happly Hneq Hcb Hp Hc).
Defined.


Example format_idempotent_values :
  text (snd (handleFormat spaced))
  = "[" +:+ Reference.newline +:+ "  1," +:+ Reference.newline +:+ "  2"
    +:+ Reference.newline +:+ "]"
  /\ changes (trace (snd (handleFormat (snd (handleFormat spaced)))))
     = changes (trace (snd (handleFormat spaced))).
Proof. vm_compute. split; reflexivity. Qed.

(** With an update from the widget scheduled, the first Format is
    overwritten by the flushed update (the defect of C3), and Format run
    again changes the text. *)
Example format_twice_while_scheduled :
  text (snd (handleFormat beforeFormat)) = "[1, 2, 3]"
  /\ text (snd (handleFormat (snd (handleFormat beforeFormat))))
     <> text (snd (handleFormat beforeFormat)).
Proof.
  split; [vm_compute; reflexivity|].
  intros Heq. vm_compute in Heq. discriminate.
Qed.

(** C8: the change handler of the host throws; the callbacks of the modals
    apply the replacement of the member [a]. *)
Lemma errors_returned_or_reported_witness :
  let s := guarded in
  fst (patch replaceA s) = Throw boom
  /\ (sortModal_onSort replaceA s = (Ret (Throw boom), snd (patch replaceA s))
      /\ (forall options json,
            opt_onTransform options = None ->
            transformModal_onTransform options json replaceA s
            = (Throw boom, snd (patch replaceA s)))
      /\ exists events,
           trace (snd (patch replaceA s)) = trace s ++ map EvChange events).
Proof.
  intros s.
  assert (Hthrow : fst (patch replaceA s) = Throw boom)
    by (vm_compute; reflexivity).
  split; [exact Hthrow|].
  exact (proj2 (proj2 (proj2 (proj2 (proj2 (errors_returned_or_reported s)))))
           replaceA boom Hthrow).
Defined.

(** The callback of the transform modal throws the error of the change
    handler and [onError] is not called; Format, with the same handler,
    passes the error to [onError] and returns. *)
Example errors_returned_or_reported_values :
  (exists ev,
      transformModal_onTransform plainOptions
        (JObject {[ "a" := JNumber 1 ]}) replaceA guarded
      = (Throw boom, snd (patch replaceA guarded))
      /\ trace (snd (patch replaceA guarded)) = [EvChange ev])
  /\ (exists ev s',
        handleFormat guarded = (Ret tt, s')
        /\ trace s' = [EvChange ev; EvError boom]).
Proof.
  split.
  - eexists. split; vm_compute; reflexivity.
  - eexists _, _. split; vm_compute; reflexivity.
Qed.

End MoreConcrete.
